(** * compara.py: alignment, selection, projection and peak summary

    A shallow embedding of [preparar_dados] and [rodar_modelo] of
    [src/compara.py], and the properties of the pipeline that follow from
    the code.  The tables the program downloads are inputs of the model;
    the chart ([gerar_grafico]) is not modelled.

    Numbers.  The program computes with IEEE-754 doubles (numpy float64).
    They are modelled by [float64]: a finite value is an exact rational,
    and the three special values NaN, +inf and -inf follow the IEEE rules
    for arithmetic and comparison.  Finite arithmetic is exact, and zero
    carries no sign (a zero divisor counts as +0).  The one place where
    the program turns a double into an integer is line 247: there the
    product and the quotient are rounded to the nearest double, as the
    machine does ([round64]), and a product beyond the largest double is
    an infinity.

    Tables.  A pandas DataFrame is a list of named columns in column
    order; a Series indexed by names is an association list.  Exceptions
    are values of [exn], and a computation that may raise has type
    [result A].

    Library code.  The Pearson coefficient of [DataFrame.corr] is a
    parameter [corr] of the model: what is proved holds for every such
    function.  The concrete runs use [pearson2], the exact coefficient of
    series of two observations, and [pearson_q], the exact coefficient
    of series for which it is rational.  The order that
    [sort_values] leaves among equal coefficients is a parameter too. *)

From Stdlib Require Import QArith Qreduction ZArith String List Bool Arith Lia.
From Stdlib Require Import Permutation Sorted Qround.
Import ListNotations.

Local Open Scope string_scope.
Local Open Scope nat_scope.
Local Open Scope list_scope.

(* ================================================================== *)
(** ** Doubles *)

Module Float64.

Inductive float64 : Type :=
| Num (q : Q)
| PInf
| NInf
| NaN.

Definition isnan (x : float64) : bool :=
  match x with NaN => true | _ => false end.

Definition isinf (x : float64) : bool :=
  match x with PInf | NInf => true | _ => false end.

Definition isfinite (x : float64) : bool :=
  match x with Num _ => true | _ => false end.

(** Sign of a value: [Gt] positive, [Lt] negative, [Eq] zero (or NaN). *)
Definition fsign (x : float64) : comparison :=
  match x with
  | Num q => (q ?= 0)%Q
  | PInf => Gt
  | NInf => Lt
  | NaN => Eq
  end.

Definition mul_sign (a b : comparison) : comparison :=
  match a, b with
  | Eq, _ | _, Eq => Eq
  | Gt, Gt | Lt, Lt => Gt
  | _, _ => Lt
  end.

(** The infinity of a given sign; no sign (zero) gives NaN, as in
    [inf * 0] and [0 / 0]. *)
Definition inf_of (s : comparison) : float64 :=
  match s with Gt => PInf | Lt => NInf | Eq => NaN end.

Definition fopp (x : float64) : float64 :=
  match x with
  | Num q => Num (Qred (- q))
  | PInf => NInf
  | NInf => PInf
  | NaN => NaN
  end.

Definition fadd (x y : float64) : float64 :=
  match x, y with
  | NaN, _ | _, NaN => NaN
  | Num a, Num b => Num (Qred (a + b))
  | PInf, NInf | NInf, PInf => NaN
  | PInf, _ | _, PInf => PInf
  | NInf, _ | _, NInf => NInf
  end.

Definition fsub (x y : float64) : float64 :=
  match x, y with
  | NaN, _ | _, NaN => NaN
  | Num a, Num b => Num (Qred (a - b))
  | PInf, PInf | NInf, NInf => NaN
  | PInf, _ | _, NInf => PInf
  | NInf, _ | _, PInf => NInf
  end.

Definition fmul (x y : float64) : float64 :=
  match x, y with
  | NaN, _ | _, NaN => NaN
  | Num a, Num b => Num (Qred (a * b))
  | _, _ => inf_of (mul_sign (fsign x) (fsign y))
  end.

(** numpy division: a zero divisor raises nothing, it gives an infinity
    (or NaN for [0 / 0]). *)
Definition fdiv (x y : float64) : float64 :=
  match x, y with
  | NaN, _ | _, NaN => NaN
  | Num a, Num b =>
      if Qeq_bool b 0 then inf_of (a ?= 0)%Q else Num (Qred (a / b))
  | Num _, _ => Num 0
  | _, Num b => inf_of (mul_sign (fsign x) (if Qle_bool 0 b then Gt else Lt))
  | _, _ => NaN
  end.

(** Comparisons: every comparison with NaN is false. *)
Definition fle (x y : float64) : bool :=
  match x, y with
  | NaN, _ | _, NaN => false
  | Num a, Num b => Qle_bool a b
  | NInf, _ | _, PInf => true
  | _, _ => false
  end.

Definition fge (x y : float64) : bool := fle y x.

Definition feqb (x y : float64) : bool :=
  match x, y with
  | Num a, Num b => Qeq_bool a b
  | PInf, PInf | NInf, NInf => true
  | _, _ => false
  end.

(** The largest finite double, (2^53 - 1) * 2^971. *)
Definition dbl_max : Q := inject_Z ((2 ^ 53 - 1) * 2 ^ 971).

(** [np.nan_to_num]: NaN becomes 0, the infinities the largest finite
    doubles of their sign. *)
Definition nan_to_num (x : float64) : float64 :=
  match x with
  | NaN => Num 0
  | PInf => Num dbl_max
  | NInf => Num (Qred (- dbl_max))
  | Num q => Num q
  end.

(** [fillna(0.0)] on one cell. *)
Definition fillna0 (x : float64) : float64 :=
  match x with NaN => Num 0 | _ => x end.

(** numpy's maximum of two values propagates NaN. *)
Definition fmax (x y : float64) : float64 :=
  match x, y with
  | NaN, _ | _, NaN => NaN
  | _, _ => if fle x y then y else x
  end.

(** *** Rounding to the nearest double

    The integer nearest to [n / d], for [0 <= n] and [0 < d]; of two
    nearest integers, the even one. *)
Definition div_nearest_even (n d : Z) : Z :=
  let q := (n / d)%Z in
  match (2 * (n mod d) ?= d)%Z with
  | Lt => q
  | Gt => (q + 1)%Z
  | Eq => if Z.even q then q else (q + 1)%Z
  end.

(** [n / d] counted in units of [2^e], as a fraction. *)
Definition em_unidades (n d e : Z) : Z * Z :=
  if (0 <=? e)%Z then (n, (d * 2 ^ e)%Z) else ((n * 2 ^ (- e))%Z, d).

(** The exponent [k] with [2^k <= n / d < 2^(k+1)], for [0 < n], [0 < d]. *)
Definition expoente (n d : Z) : Z :=
  let k := (Z.log2 n - Z.log2 d)%Z in
  let ab := em_unidades n d k in
  if (fst ab <? snd ab)%Z then (k - 1)%Z else k.

(** The double nearest to [n / d], for [0 < n] and [0 < d], its exponent
    unbounded above: 53 significant bits, or a multiple of [2^-1074]
    below the normal range. *)
Definition nearest64 (n d : Z) : Q :=
  let e := Z.max (expoente n d - 52) (- 1074) in
  let ab := em_unidades n d e in
  let m := div_nearest_even (fst ab) (snd ab) in
  Qred (if (0 <=? e)%Z then inject_Z (m * 2 ^ e)
        else Qmake m (Z.to_pos (2 ^ (- e)))).

(** From [2^1024 - 2^970] on, halfway between the largest double and
    [2^1024], a value rounds to infinity. *)
Definition limite : Q := inject_Z (2 ^ 1024 - 2 ^ 970).

(** IEEE-754 rounding to nearest, ties to even, of an exact result. *)
Definition round64 (q : Q) : float64 :=
  let r := Qred q in
  match Qnum r with
  | Z0 => Num 0
  | Zpos n =>
      if Qle_bool limite r then PInf
      else Num (nearest64 (Zpos n) (Zpos (Qden r)))
  | Zneg n =>
      if Qle_bool limite (- r) then NInf
      else Num (Qred (- nearest64 (Zpos n) (Zpos (Qden r))))
  end.

(** The double an operation returns, given its exact result. *)
Definition arred (x : float64) : float64 :=
  match x with
  | Num q => round64 q
  | _ => x
  end.

End Float64.
Import Float64.

(* ================================================================== *)
(** ** Exceptions *)

Inductive exn : Type :=
| KeyError
| ValueError
| OverflowError.

Definition result (A : Type) : Type := (exn + A)%type.

Definition ok {A : Type} (a : A) : result A := inr a.
Definition raise {A : Type} (e : exn) : result A := inl e.

Definition bind {A B : Type} (c : result A) (k : A -> result B) : result B :=
  match c with
  | inl e => inl e
  | inr a => k a
  end.

Notation "x <- c ;; k" := (bind c (fun x => k))
  (at level 61, c at next level, right associativity).

Fixpoint mapM {A B : Type} (f : A -> result B) (l : list A) : result (list B) :=
  match l with
  | [] => ok []
  | a :: l' => b <- f a ;; bs <- mapM f l' ;; ok (b :: bs)
  end.

Fixpoint foldM {A S : Type} (f : S -> A -> result S) (l : list A) (s : S)
  : result S :=
  match l with
  | [] => ok s
  | a :: l' => s' <- f s a ;; foldM f l' s'
  end.

(* ================================================================== *)
(** ** Tables *)

(** A Series or dict keyed by names; a DataFrame is a [frame]. *)
Definition series (V : Type) : Type := list (string * V).
Definition frame : Type := series (list float64).

Fixpoint lookup {V : Type} (s : series V) (k : string) : option V :=
  match s with
  | [] => None
  | (k', v) :: s' => if (k' =? k)%string then Some v else lookup s' k
  end.

(** [s[k]]: a missing label raises KeyError. *)
Definition getitem {V : Type} (s : series V) (k : string) : result V :=
  match lookup s k with
  | Some v => ok v
  | None => raise KeyError
  end.

Definition keys {V : Type} (s : series V) : list string := map fst s.

Definition mem (k : string) (l : list string) : bool :=
  existsb (fun k' => (k' =? k)%string) l.

(** [s[k] = v]: an existing label keeps its place, a new one goes last. *)
Fixpoint setitem {V : Type} (s : series V) (k : string) (v : V) : series V :=
  match s with
  | [] => [(k, v)]
  | (k', v') :: s' =>
      if (k' =? k)%string then (k, v) :: s' else (k', v') :: setitem s' k v
  end.

(** [data[k] = values] on a frame of [n] rows: pandas refuses an array of
    another length. *)
Definition assign (n : nat) (df : frame) (k : string) (v : list float64)
  : result frame :=
  if length v =? n then ok (setitem df k v) else raise ValueError.

(** Position of the first element satisfying [p]. *)
Fixpoint first_index {A : Type} (p : A -> bool) (l : list A) : option nat :=
  match l with
  | [] => None
  | a :: l' => if p a then Some 0 else option_map S (first_index p l')
  end.

(** [idxmax] of a boolean column: the first position of the greatest
    value, so the first [True], or 0 when every entry is [False]; an empty
    column raises ValueError. *)
Definition idxmax (col : list bool) : result nat :=
  match col with
  | [] => raise ValueError
  | _ :: _ =>
      ok (match first_index (fun b => b) col with Some i => i | None => 0 end)
  end.

(** [Series.max()]: NaN cells are skipped; NaN when nothing is left. *)
Definition series_max (col : list float64) : float64 :=
  match filter (fun x => negb (isnan x)) col with
  | [] => NaN
  | x :: l => fold_left fmax l x
  end.

(** [[l[i] - l[i+1] for i in range(len(l)-1)]] *)
Fixpoint adjacent_diff (l : list float64) : list float64 :=
  match l with
  | a :: ((b :: _) as l') => fsub a b :: adjacent_diff l'
  | _ => []
  end.

Definition scale (p : float64) (col : list float64) : list float64 :=
  map (fun x => fmul x p) col.

(** [values * (10**5) / pop] *)
Definition per100k (pop : float64) (col : list float64) : list float64 :=
  map (fun x => fdiv (fmul x (Num 100000)) pop) col.

(* ================================================================== *)
(** ** preparar_dados *)

(** A row of the brasil.io table, with the columns the program reads. *)
Record sp_row : Type := {
  place_type : string;
  city : string;
  deaths : float64;
  estimated_population_2019 : float64
}.

(** What [preparar_dados] returns. *)
Record preparados : Type := {
  raw : frame;
  inicio : series nat;
  data : frame;
  nbr : nat;
  popu : series float64;
  popuBR : series float64;
  por100k : frame
}.

(** The four cuts of the target country. *)
Definition out : list string := ["Brazil"; "Brazil_sem_SP"; "SP"; "SP_City"].

(** Line 97, [raw.ge(p1).idxmax()]: per column, the first row whose value
    is at least [p1]. *)
Definition onset (p1 : float64) (col : list float64) : result nat :=
  idxmax (map (fun x => fge x p1) col).

Definition inicio_de (raw0 : frame) (p1 : float64) : result (series nat) :=
  mapM (fun kc => i <- onset p1 (snd kc) ;; ok (fst kc, i)) raw0.

(** Lines 98-99: the target's series from its onset on, times [p4]. *)
Definition base_brazil (raw0 : frame) (ini : series nat) (p4 : float64)
  : result (list float64) :=
  col <- getitem raw0 "Brazil" ;;
  i <- getitem ini "Brazil" ;;
  ok (scale p4 (skipn i col)).

(** Lines 103-105 (and 111-113): daily deaths from the cumulative column,
    most recent first, of which the first [n + 1] rows are read. *)
Definition diarios (n : nat) (acumulado : list float64) : list float64 :=
  rev (adjacent_diff (map fillna0 (firstn (n + 1) acumulado))).

(** Lines 122-127, one turn of the loop over the countries. *)
Definition adicionar_pais (raw0 : frame) (pop : series float64)
  (ini : series nat) (n : nat) (df : frame) (k : string) : result frame :=
  if (k =? "Brazil")%string then ok df
  else if negb (mem k (keys pop)) then ok df
  else
    ik <- getitem ini k ;;
    ibr <- getitem ini "Brazil" ;;
    if (ik =? 0) || (ibr <? ik) then ok df
    else
      col <- getitem raw0 k ;;
      assign n df k (firstn n (skipn ik col)).

(** [raw_csv] is the table of daily deaths as read (the date column
    dropped), [pop] the population by country name, [sp] the brasil.io
    rows. *)
Definition preparar_dados (raw_csv : frame) (pop : series float64)
  (sp : list sp_row) (p1 p4 : float64) : result preparados :=
  let raw0 : frame := map (fun kc => (fst kc, map fillna0 (snd kc))) raw_csv in
  ini <- inicio_de raw0 p1 ;;
  brazil <- base_brazil raw0 ini p4 ;;
  let n := length brazil in
  let df := [("Brazil", brazil)] in
  (* SP, the state *)
  let sp_estado := filter (fun r => (place_type r =? "state")%string) sp in
  let SP_estado := diarios n (map deaths sp_estado) in
  let SP_estado_popu := series_max (map estimated_population_2019 sp_estado) in
  df <- assign n df "SP" (scale p4 SP_estado) ;;
  (* SP, the city *)
  let sp_city := filter (fun r => (city r =? "São Paulo")%string) sp in
  let SP_city := diarios n (map deaths sp_city) in
  let SP_city_popu := series_max (map estimated_population_2019 sp_city) in
  df <- assign n df "SP_City" (scale p4 SP_city) ;;
  (* the country without the state *)
  br <- getitem df "Brazil" ;;
  let br_ex_sp := map (fun x => fsub (fst x) (snd x)) (combine br SP_estado) in
  df <- assign n df "Brazil_sem_SP" br_ex_sp ;;
  (* the countries ahead of the target, or level with it *)
  df <- foldM (adicionar_pais raw0 pop ini n) (keys ini) df ;;
  pop_br <- getitem pop "Brazil" ;;
  let popBR : series float64 :=
    [("Brazil", pop_br); ("SP", SP_estado_popu); ("SP_City", SP_city_popu);
     ("Brazil_sem_SP", fsub pop_br SP_estado_popu)] in
  c_br <- getitem df "Brazil" ;;
  c_sp <- getitem df "SP" ;;
  c_city <- getitem df "SP_City" ;;
  c_ex <- getitem df "Brazil_sem_SP" ;;
  let p100 : frame :=
    [("Brazil", per100k pop_br c_br);
     ("SP", per100k SP_estado_popu c_sp);
     ("SP_City", per100k SP_city_popu c_city);
     ("Brazil_sem_SP", per100k (fsub pop_br SP_estado_popu) c_ex)] in
  ok {| raw := raw0; inicio := ini; data := df; nbr := n; popu := pop;
        popuBR := popBR; por100k := p100 |}.

(* ================================================================== *)
(** ** rodar_modelo *)

(** [Series.sort_values(ascending=False)]: greatest first, undefined
    (NaN) coefficients last, these in the order of the table.  pandas
    sorts with numpy's quicksort, which is not stable, and the order it
    leaves among equal coefficients changes with the version of the
    library: it is a parameter of the model, [tie a b] telling whether
    the label [a] goes before the label [b] when their coefficients are
    equal.

    [precede tie x y]: the sort puts the entry [x] before the entry [y]. *)
Definition precede (tie : string -> string -> bool) (x y : string * float64)
  : bool :=
  isnan (snd y)
  || (negb (isnan (snd x))
      && (if feqb (snd x) (snd y) then tie (fst x) (fst y)
          else fle (snd y) (snd x))).

Fixpoint insert_desc (tie : string -> string -> bool) (x : string * float64)
  (l : series float64) : series float64 :=
  match l with
  | [] => [x]
  | y :: l' =>
      if precede tie x y then x :: l else y :: insert_desc tie x l'
  end.

Definition sort_values_desc (tie : string -> string -> bool)
  (s : series float64) : series float64 :=
  fold_right (insert_desc tie) [] s.

(** [l[:n]] *)
Definition slice_to {A : Type} (n : Z) (l : list A) : list A :=
  if (0 <=? n)%Z then firstn (Z.to_nat n) l
  else firstn (length l - Z.to_nat (- n)) l.

(** Line 186: the names that follow the reference best, the cuts of the
    target left out. *)
Definition selecionar (tie : string -> string -> bool)
  (pearson_ref : series float64) (p2 : Z) : list string :=
  slice_to p2
    (filter (fun k => negb (mem k out))
       (keys (sort_values_desc tie pearson_ref))).

(** Number of rows of a frame built by [pd.concat(..., axis=1)]: that of
    its longest column. *)
Definition shape0 (df : frame) : nat :=
  fold_right (fun kc m => Nat.max (length (snd kc)) m) 0 df.

Definition pad (n : nat) (col : list float64) : list float64 :=
  col ++ repeat NaN (n - length col).

(** Columns side by side on the union of their row labels; the rows a
    column lacks hold NaN. *)
Definition concat_axis1 (df : frame) : frame :=
  map (fun kc => (fst kc, pad (shape0 df) (snd kc))) df.

Definition fsum (l : list float64) : float64 := fold_left fadd l (Num 0).

(** Mean of one full window; pandas turns infinities into NaN before it
    rolls, and a window holding a NaN has too few observations. *)
Definition window_mean (w : nat) (win : list float64) : float64 :=
  if forallb isfinite win
  then fdiv (fsum win) (Num (inject_Z (Z.of_nat w)))
  else NaN.

(** [col.rolling(w).mean()]: the trailing mean over [w] rows; the first
    [w - 1] rows have no full window. *)
Definition rolling_mean (w : nat) (col : list float64) : list float64 :=
  map (fun i =>
         if (w =? 0) || (i + 1 <? w) then NaN
         else window_mean w (firstn w (skipn (i + 1 - w) col)))
      (seq 0 (length col)).

Definition rolling (p3 : Z) (df : frame) : result frame :=
  if (p3 <? 0)%Z then raise ValueError
  else ok (map (fun kc => (fst kc, rolling_mean (Z.to_nat p3) (snd kc))) df).

(** Lines 201-206: a comparator's whole series from its onset on, per
    100 thousand inhabitants. *)
Definition coluna_pais (pd : preparados) (k : string)
  : result (string * list float64) :=
  col <- getitem (raw pd) k ;;
  ik <- getitem (inicio pd) k ;;
  let C := skipn ik col in
  if (k =? "China")%string then ok (k, per100k (Num 15000000) C)
  else pop <- getitem (popu pd) k ;; ok (k, per100k pop C).

(** Lines 196-210. *)
Definition calibrar (pd : preparados) (correlacionados : list string)
  (p3 : Z) (ref : string) : result frame :=
  r <- getitem (por100k pd) ref ;;
  cols <- mapM (coluna_pais pd) correlacionados ;;
  rolling p3 (concat_axis1 ((ref, r) :: cols)).

(** Lines 217-219.  The names are distinct labels of [data], so the dict
    of line 219 is the list of pairs. *)
Definition pesos_de (pearson_ref : series float64)
  (correlacionados : list string) : result (series float64) :=
  pesos <- mapM (getitem pearson_ref) correlacionados ;;
  ok (combine correlacionados (map (fun r => fdiv r (fsum pesos)) pesos)).

(** [calibrados[c][d]] and [pesos[c]] inside the loop of lines 227-238,
    where the column, the row and the key exist. *)
Definition cell (cal : frame) (c : string) (d : nat) : float64 :=
  match lookup cal c with
  | Some col => nth d col NaN
  | None => NaN
  end.

Definition peso (pesos : series float64) (c : string) : float64 :=
  match lookup pesos c with
  | Some w => w
  | None => NaN
  end.

(** What comparator [c] adds to the day's multiplier (lines 230-235). *)
Definition parcela (cal : frame) (pesos : series float64) (d : nat)
  (c : string) : float64 :=
  if negb (isnan (cell cal c d))
  then fmul (fdiv (cell cal c d) (cell cal c (d - 1))) (peso pesos c)
  else fmul (Num 1) (peso pesos c).

(** The multiplier [x] of day [d] (lines 228-235). *)
Definition incremento (cal : frame) (pesos : series float64)
  (correlacionados : list string) (d : nat) : float64 :=
  fold_left (fun x c => fadd x (parcela cal pesos d c)) correlacionados (Num 0).

(** The loop of lines 227-238 over the days [dias]. *)
Fixpoint estender (cal : frame) (pesos : series float64)
  (correlacionados : list string) (dias : list nat) (proj : list float64)
  : list float64 :=
  match dias with
  | [] => proj
  | d :: dias' =>
      estender cal pesos correlacionados dias'
        (proj ++ [fmul (last proj NaN) (incremento cal pesos correlacionados d)])
  end.

(** Lines 222-238.  With [nbr = 0] the seam would be row [-1] of the
    reference, a label the column does not have. *)
Definition projetar (cal : frame) (pesos : series float64)
  (correlacionados : list string) (ref : string) (n : nat)
  : result (list float64) :=
  r <- getitem cal ref ;;
  seam <- match n with
          | 0 => raise KeyError
          | S m => match nth_error r m with
                   | Some v => ok v
                   | None => raise KeyError
                   end
          end ;;
  ok (estender cal pesos correlacionados (seq n (shape0 cal - n))
        (repeat NaN (n - 1) ++ [seam])).

(** [ndarray.max()] *)
Definition np_max (a : list float64) : result float64 :=
  match a with
  | [] => raise ValueError
  | x :: a' => ok (fold_left fmax a' x)
  end.

(** [int(x)]: the integer part, towards zero. *)
Definition py_int (x : float64) : result Z :=
  match x with
  | Num q => ok (Z.quot (Qnum q) (Z.pos (Qden q)))
  | NaN => raise ValueError
  | PInf | NInf => raise OverflowError
  end.

(** [l.index(v)] *)
Definition list_index (l : list float64) (v : float64) : result nat :=
  match first_index (fun x => feqb x v) l with
  | Some i => ok i
  | None => raise ValueError
  end.

(** The dict [infos].  [mortes_no_pico] is the integer whose decimal
    digits the program stores, [dia_do_pico] the day (as a day count)
    whose ISO date it stores. *)
Record infos : Type := {
  mortes_no_pico : Z;
  dia_do_pico : Z;
  pico : float64;
  index : nat
}.

(** Lines 245-257.  [now] is the day [datetime.datetime.now()] falls on.
    On line 247 the product and the quotient are doubles, and [int] fails
    on a product that has overflowed. *)
Definition resumir (now : Z) (proj : list float64) (popBR : series float64)
  (ref : string) (n : nat) : result infos :=
  p <- np_max (map nan_to_num proj) ;;
  pop <- getitem popBR ref ;;
  m <- py_int (arred (fdiv (arred (fmul p pop)) (Num 100000))) ;;
  ix <- list_index proj p ;;
  ok {| mortes_no_pico := m;
        dia_do_pico := (now + (Z.of_nat ix - Z.of_nat n))%Z;
        pico := p;
        index := ix |}.

Section Modelo.

(** [corr x y]: the Pearson coefficient pandas computes for two columns
    of [data]. *)
Variable corr : list float64 -> list float64 -> float64.

(** [tie a b]: among equal coefficients, [sort_values] puts the label
    [a] before the label [b]. *)
Variable tie : string -> string -> bool.

(** Line 172, of which the program reads the column [pearson[ref]]. *)
Definition pearson_col (df : frame) (ref : string) : result (series float64) :=
  r <- getitem df ref ;;
  ok (map (fun kc => (fst kc, corr (snd kc) r)) df).

Definition rodar_modelo (now : Z) (pd : preparados) (p2 p3 : Z) (ref : string)
  : result (list string * frame * list float64 * infos) :=
  pearson_ref <- pearson_col (data pd) ref ;;
  let correlacionados := selecionar tie pearson_ref p2 in
  calibrados <- calibrar pd correlacionados p3 ref ;;
  pesos <- pesos_de pearson_ref correlacionados ;;
  proj <- projetar calibrados pesos correlacionados ref (nbr pd) ;;
  inf <- resumir now proj (popuBR pd) ref (nbr pd) ;;
  ok (correlacionados, calibrados, proj, inf).

(** Lines 302-303: the two stages one after the other. *)
Definition pipeline (now : Z) (raw_csv : frame) (pop : series float64)
  (sp : list sp_row) (p1 p4 : float64) (p2 p3 : Z) (ref : string)
  : result (preparados * (list string * frame * list float64 * infos)) :=
  pd <- preparar_dados raw_csv pop sp p1 p4 ;;
  r <- rodar_modelo now pd p2 p3 ref ;;
  ok (pd, r).

End Modelo.

(* ================================================================== *)
(** ** The specification's reading of some steps *)

(** The onset as the specification words it: the first day at which the
    running total of the series reaches [p1]. *)
Fixpoint onset_acumulado_from (acc p1 : float64) (col : list float64)
  : option nat :=
  match col with
  | [] => None
  | x :: col' =>
      if fge (fadd acc x) p1 then Some 0
      else option_map S (onset_acumulado_from (fadd acc x) p1 col')
  end.

Definition onset_acumulado (p1 : float64) (col : list float64) : option nat :=
  onset_acumulado_from (Num 0) p1 col.

(** The complement cut as the specification words it: the correction
    factor times the difference of the uncorrected country and state
    series. *)
Definition complemento_corrigido (p4 : float64) (br sp : list float64)
  : list float64 :=
  scale p4 (map (fun x => fsub (fst x) (snd x)) (combine br sp)).

(** The growth ratio as the specification words it: neutral when the
    comparator's value of the day before is zero or missing. *)
Definition parcela_neutra (cal : frame) (pesos : series float64) (d : nat)
  (c : string) : float64 :=
  if isnan (cell cal c d) || isnan (cell cal c (d - 1))
     || feqb (cell cal c (d - 1)) (Num 0)
  then fmul (Num 1) (peso pesos c)
  else fmul (fdiv (cell cal c d) (cell cal c (d - 1))) (peso pesos c).

(** Pearson's coefficient of two columns of two observations each, in
    exact arithmetic: 1 when they move the same way, -1 when they move
    opposite ways, undefined when one of them is constant. *)
Definition pearson2 (x y : list float64) : float64 :=
  match x, y with
  | [Num a; Num b], [Num c; Num d] =>
      match ((b - a) * (d - c) ?= 0)%Q with
      | Gt => Num 1
      | Lt => Num (-1)
      | Eq => NaN
      end
  | _, _ => NaN
  end.

(* ================================================================== *)
(** ** Notions used by the statements *)

(** The table of the four cuts (lines 98-119), before the countries are
    added. *)
Definition recortes (p4 : float64) (brazil SP_estado SP_city : list float64)
  : frame :=
  [("Brazil", brazil); ("SP", scale p4 SP_estado);
   ("SP_City", scale p4 SP_city);
   ("Brazil_sem_SP",
    map (fun x => fsub (fst x) (snd x)) (combine brazil SP_estado))].

(** The columns the loop of lines 122-127 leaves in the table: the
    target's own, and under any name outside the four cuts the window of
    [n] days of that country from its onset on. *)
Definition alinhado (raw0 : frame) (ini : series nat) (n : nat)
  (brazil : list float64) (df : frame) : Prop :=
  lookup df "Brazil" = Some brazil /\
  forall k c, ~ In k out -> lookup df k = Some c ->
    exists col i, lookup raw0 k = Some col /\ lookup ini k = Some i /\
      c = firstn n (skipn i col).

(** [nao_abaixo a b]: in a ranking by decreasing coefficient the
    coefficient [a] is not below [b], that is [a >= b] as numbers, with
    an undefined coefficient below every defined one. *)
Definition nao_abaixo (a b : float64) : Prop :=
  match a, b with
  | _, NaN => True
  | NaN, _ => False
  | PInf, _ => True
  | _, NInf => True
  | Num x, Num y => (y <= x)%Q
  | _, _ => False
  end.

(** The regions of a table that may be comparators: its labels other
    than the four cuts of the target, by name. *)
Definition elegiveis (df : frame) : list string :=
  filter (fun k => negb ((k =? "Brazil") || (k =? "Brazil_sem_SP")
                         || (k =? "SP") || (k =? "SP_City"))%string)
    (keys df).

(** Equal coefficients left in the order of the table. *)
Definition ordem_da_tabela : string -> string -> bool := fun _ _ => true.

Definition Qsum (l : list Q) : Q := fold_right Qplus 0%Q l.

Definition media (l : list Q) : Q :=
  (Qsum l / inject_Z (Z.of_nat (length l)))%Q.

(** Sum of the products of the deviations from the means. *)
Definition sxy (x y : list Q) : Q :=
  Qsum (map (fun p => ((fst p - media x) * (snd p - media y))%Q) (combine x y)).

(** The finite values of a column, when all of them are finite. *)
Fixpoint finitos (l : list float64) : option (list Q) :=
  match l with
  | [] => Some []
  | Num q :: l' => option_map (cons q) (finitos l')
  | _ => None
  end.

(** The square root of a rational that is the square of a rational. *)
Definition raiz (q : Q) : option Q :=
  let r := Qred q in
  let n := Z.sqrt (Qnum r) in
  let d := Z.sqrt (Z.pos (Qden r)) in
  if ((n * n =? Qnum r) && (d * d =? Z.pos (Qden r)))%Z
  then Some (Qmake n (Z.to_pos d)) else None.

(** Pearson's coefficient of two columns of finite values, in exact
    arithmetic, for columns whose coefficient is a rational number:
    [sxy / sqrt (sxx * syy)], undefined when a column is constant.  An
    irrational coefficient has no value in this model of the doubles:
    the concrete tables are chosen so that every coefficient is
    rational. *)
Definition pearson_q (x y : list float64) : float64 :=
  match finitos x, finitos y with
  | Some xs, Some ys =>
      if Nat.eqb (length xs) (length ys) then
        match raiz (sxy xs xs * sxy ys ys) with
        | Some s => if Qeq_bool s 0 then NaN else Num (Qred (sxy xs ys / s))
        | None => NaN
        end
      else NaN
  | _, _ => NaN
  end.

(** The countries of the table, outside the four cuts, satisfy the
    condition of line 125. *)
Definition qualifica (pop : series float64) (ini : series nat) (k : string)
  : Prop :=
  mem k (keys pop) = true /\
  exists ik ibr, lookup ini k = Some ik /\ lookup ini "Brazil" = Some ibr /\
                 ik <> 0 /\ ik <= ibr.

(** The prepared tables with another population table. *)
Definition com_popu (pd : preparados) (pop : series float64) : preparados :=
  {| raw := raw pd; inicio := inicio pd; data := data pd; nbr := nbr pd;
     popu := pop; popuBR := popuBR pd; por100k := por100k pd |}.

(** Two values that are equal as numbers: the same special value, or
    finite values that are equal. *)
Definition mesmo_valor (x y : float64) : Prop :=
  match x, y with
  | Num a, Num b => (a == b)%Q
  | PInf, PInf | NInf, NInf | NaN, NaN => True
  | _, _ => False
  end.

(** The deaths figure of a peak [q] fits the doubles: neither the
    product nor the quotient of line 247 is beyond the largest double. *)
Definition cabe (q pop : Q) : Prop :=
  exists r1 r2,
    round64 (q * pop) = Num r1 /\ round64 (r1 / 100000) = Num r2.

(** The value of a computation that raised nothing. *)
Definition valor {A : Type} (d : A) (r : result A) : A :=
  match r with
  | inr a => a
  | inl _ => d
  end.

(* ================================================================== *)
(** ** Concrete tables *)

Module Exemplo.

Definition N (z : Z) : float64 := Num (inject_Z z).

Definition estado (d : Z) : sp_row :=
  {| place_type := "state"; city := "";
     deaths := N d; estimated_population_2019 := N 50000 |}.

Definition cidade (d : Z) : sp_row :=
  {| place_type := "city"; city := "São Paulo";
     deaths := N d; estimated_population_2019 := N 10000 |}.

(** Five days of daily deaths.  With [p1 = 3] the target starts on day 3
    and has two days of data, in which its deaths rise.  Italy, Spain and
    France started before it: over their first two days Italy rises and
    Spain and France fall.  Peru started after it, and Chile never has 3
    deaths in a day. *)
Definition raw_csv : frame :=
  [("Brazil", [N 1; NaN; N 2; N 3; N 6]);
   ("Italy", [N 0; N 3; N 6; N 0; N 5]);
   ("Spain", [N 0; N 0; N 8; N 4; N 2]);
   ("France", [N 0; N 0; N 9; N 4; N 1]);
   ("Peru", [N 0; N 0; N 0; N 0; N 3]);
   ("Chile", [N 1; N 1; N 1; N 1; N 1])].

Definition pop : series float64 :=
  [("Brazil", N 200000); ("Italy", N 100000); ("Spain", N 100000);
   ("France", N 100000); ("Peru", N 100000); ("Chile", N 100000)].

(** Cumulative deaths of the state and of the city, most recent first. *)
Definition sp : list sp_row :=
  [estado 2; cidade 1; estado 1; cidade 1; estado 0; cidade 0].

Definition p1 : float64 := N 3.
Definition p4 : float64 := Num (148 # 100).

Definition nulo : preparados :=
  {| raw := []; inicio := []; data := []; nbr := 0; popu := [];
     popuBR := []; por100k := [] |}.

(** What [preparar_dados] returns on these tables. *)
Definition pd : preparados :=
  Eval vm_compute in valor nulo (preparar_dados raw_csv pop sp p1 p4).

(** A run with the whole country as reference, one comparator and no
    smoothing: Italy is selected. *)
Definition calibrados : frame :=
  Eval vm_compute in valor [] (calibrar pd ["Italy"] 1 "Brazil").

Definition pesos : series float64 := [("Italy", Num 1)].

Definition projetado : list float64 :=
  [NaN; Num (111 # 25); Num 0; NaN].

Definition resumo : infos :=
  {| mortes_no_pico := 8; dia_do_pico := 99; pico := Num (111 # 25);
     index := 1 |}.

(** The same tables with a smoothing window of a week. *)
Definition calibrados7 : frame :=
  Eval vm_compute in valor [] (calibrar pd ["Italy"] 7 "Brazil").

(** Three days in which the target never has 3 deaths in a day. *)
Definition raw_baixo : frame :=
  [("Brazil", [N 0; N 1; N 2]); ("Italy", [N 0; N 3; N 6])].

Definition sp_baixo : list sp_row :=
  [estado 3; cidade 2; estado 2; cidade 1; estado 1; cidade 1;
   estado 0; cidade 0].

Definition pd_baixo : preparados :=
  Eval vm_compute in valor nulo (preparar_dados raw_baixo pop sp_baixo p1 p4).

End Exemplo.

(** Three days of data for the target, whose deaths rise by 3 a day.
    Over their first three days Italy's deaths go 4, 3, 5 (coefficient
    1/2 with the target), Spain's 5, 3, 4 (coefficient -1/2) and
    France's 5, 4, 3 (coefficient -1): no two countries have the same
    coefficient. *)
Module Exemplo3.

Definition raw_csv : frame :=
  [("Brazil", [Exemplo.N 0; Exemplo.N 0; Exemplo.N 3; Exemplo.N 6; Exemplo.N 9]);
   ("France", [Exemplo.N 0; Exemplo.N 5; Exemplo.N 4; Exemplo.N 3; Exemplo.N 1]);
   ("Spain", [Exemplo.N 0; Exemplo.N 5; Exemplo.N 3; Exemplo.N 4; Exemplo.N 2]);
   ("Italy", [Exemplo.N 0; Exemplo.N 4; Exemplo.N 3; Exemplo.N 5; Exemplo.N 7])].

(** Cumulative deaths of the state and of the city, most recent first:
    1, 2 and 3 deaths a day. *)
Definition sp : list sp_row :=
  [Exemplo.estado 6; Exemplo.cidade 6; Exemplo.estado 3; Exemplo.cidade 3;
   Exemplo.estado 1; Exemplo.cidade 1; Exemplo.estado 0; Exemplo.cidade 0].

Definition pd : preparados :=
  Eval vm_compute in
    valor Exemplo.nulo
      (preparar_dados raw_csv Exemplo.pop sp Exemplo.p1 Exemplo.p4).

(** The column [pearson["Brazil"]] of these tables. *)
Definition pearson_ref : series float64 :=
  Eval vm_compute in valor [] (pearson_col pearson_q (data pd) "Brazil").

End Exemplo3.

(* ================================================================== *)
(** * Properties *)

(* ================================================================== *)
(** ** Auxiliary facts: exceptions and tables *)

Lemma bind_inr {A B : Type} (c : result A) (k : A -> result B) (b : B) :
  bind c k = inr b -> exists a, c = inr a /\ k a = inr b.
Proof.
  destruct c as [e | a]; simpl; intros H; [discriminate | eauto].
Qed.

(** Splits a successful sequence of steps into its steps. *)
Ltac inv_bind H :=
  let a := fresh "v" in
  let E := fresh "E" in
  apply bind_inr in H; destruct H as (a & E & H).

Lemma lookup_setitem_eq {V : Type} (s : series V) (k : string) (v : V) :
  lookup (setitem s k v) k = Some v.
Proof.
  induction s as [| [k' v'] s IH]; simpl.
  - now rewrite String.eqb_refl.
  - destruct (k' =? k)%string eqn:E; simpl.
    + now rewrite String.eqb_refl.
    + now rewrite E.
Qed.

Lemma lookup_setitem_neq {V : Type} (s : series V) (k k' : string) (v : V) :
  k <> k' -> lookup (setitem s k v) k' = lookup s k'.
Proof.
  intros Hne. induction s as [| [k0 v0] s IH]; simpl.
  - destruct (k =? k')%string eqn:E; [apply String.eqb_eq in E; contradiction | reflexivity].
  - destruct (k0 =? k)%string eqn:E; simpl.
    + apply String.eqb_eq in E; subst k0.
      destruct (k =? k')%string eqn:E'; [apply String.eqb_eq in E'; contradiction | reflexivity].
    + destruct (k0 =? k')%string; [reflexivity | exact IH].
Qed.

Lemma getitem_inr {V : Type} (s : series V) (k : string) (v : V) :
  getitem s k = inr v <-> lookup s k = Some v.
Proof.
  unfold getitem. destruct (lookup s k); split; intros H;
    try discriminate; inversion H; reflexivity.
Qed.

Lemma assign_inr (n : nat) (df df' : frame) (k : string) (v : list float64) :
  assign n df k v = inr df' -> length v = n /\ df' = setitem df k v.
Proof.
  unfold assign. destruct (length v =? n) eqn:E; intros H; [| discriminate].
  apply Nat.eqb_eq in E. inversion H. auto.
Qed.

Lemma mem_In (k : string) (l : list string) : mem k l = true <-> In k l.
Proof.
  unfold mem. rewrite existsb_exists. split.
  - intros (x & Hx & E). apply String.eqb_eq in E. now subst.
  - intros H. exists k. split; [exact H | apply String.eqb_refl].
Qed.

Lemma first_index_map {A B : Type} (f : A -> B) (p : B -> bool) (l : list A) :
  first_index p (map f l) = first_index (fun a => p (f a)) l.
Proof.
  induction l as [| a l IH]; simpl; [reflexivity |].
  destruct (p (f a)); [reflexivity | now rewrite IH].
Qed.

Lemma first_index_some {A : Type} (p : A -> bool) (l : list A) (i : nat) (d : A) :
  first_index p l = Some i ->
  i < length l /\ p (nth i l d) = true /\
  forall j, j < i -> p (nth j l d) = false.
Proof.
  revert i. induction l as [| a l IH]; simpl; intros i H; [discriminate |].
  destruct (p a) eqn:Pa.
  - inversion H; subst. repeat split; [lia | exact Pa | intros j Hj; lia].
  - destruct (first_index p l) as [i' |]; simpl in H; [| discriminate].
    inversion H; subst. destruct (IH i' eq_refl) as (Hl & Hp & Hlt).
    repeat split; [lia | exact Hp |].
    intros [| j] Hj; [exact Pa | apply Hlt; lia].
Qed.

Lemma first_index_none {A : Type} (p : A -> bool) (l : list A) :
  first_index p l = None -> forall x, In x l -> p x = false.
Proof.
  induction l as [| a l IH]; simpl; intros H x Hx; [contradiction |].
  destruct (p a) eqn:Pa; [discriminate |].
  destruct (first_index p l); [discriminate |].
  destruct Hx as [-> | Hx]; [exact Pa | now apply IH].
Qed.

(** [onset]: the first row at or above the threshold, 0 when there is none. *)
Lemma onset_inr (p1 : float64) (col : list float64) (i : nat) :
  onset p1 col = inr i ->
  i < length col /\
  (forall j, j < length col -> fge (nth j col NaN) p1 = true ->
             i <= j /\ fge (nth i col NaN) p1 = true) /\
  ((forall j, j < length col -> fge (nth j col NaN) p1 = false) -> i = 0).
Proof.
  unfold onset, idxmax. destruct col as [| x col]; [discriminate |].
  set (l := x :: col). change (map _ l) with (map (fun x => fge x p1) l).
  rewrite first_index_map.
  destruct (first_index (fun a => fge a p1) l) as [i' |] eqn:F.
  - simpl map. intros H. inversion H; subst i'.
    destruct (first_index_some _ _ _ NaN F) as (Hl & Hp & Hlt).
    split; [exact Hl |]. split.
    + intros j Hj Hge. split; [| exact Hp].
      destruct (Nat.le_gt_cases i j) as [|Hji]; [assumption |].
      rewrite (Hlt j Hji) in Hge. discriminate.
    + intros Hall. rewrite (Hall i Hl) in Hp. discriminate.
  - simpl map. intros H. inversion H; subst i.
    split; [simpl; lia |]. split; [| reflexivity].
    intros j Hj Hge. exfalso.
    rewrite (first_index_none _ _ F (nth j l NaN)) in Hge; [discriminate |].
    now apply nth_In.
Qed.

Lemma inicio_de_lookup (raw0 : frame) (p1 : float64) (ini : series nat) :
  inicio_de raw0 p1 = inr ini ->
  forall k, match lookup raw0 k with
            | Some col => exists i, lookup ini k = Some i /\ onset p1 col = inr i
            | None => lookup ini k = None
            end.
Proof.
  unfold inicio_de. revert ini.
  induction raw0 as [| [k0 c0] raw0 IH]; simpl; intros ini H k.
  - inversion H. reflexivity.
  - inv_bind H. inv_bind E. inversion E; subst v. clear E.
    inv_bind H. inversion H; subst ini. simpl.
    destruct (k0 =? k)%string.
    + eauto.
    + apply IH. exact E.
Qed.

Lemma foldM_invariant {A S : Type} (f : S -> A -> result S) (P : S -> Prop) :
  (forall s a s', P s -> f s a = inr s' -> P s') ->
  forall l s s', P s -> foldM f l s = inr s' -> P s'.
Proof.
  intros Hstep. induction l as [| a l IH]; simpl; intros s s' Hs H.
  - inversion H; subst. exact Hs.
  - inv_bind H. eapply IH; [| exact H]. eapply Hstep; eauto.
Qed.

(** One turn of the loop either leaves the table alone or stores the
    country's window under its name. *)
Lemma adicionar_pais_inr raw0 pop ini n df k df' :
  adicionar_pais raw0 pop ini n df k = inr df' ->
  df' = df \/
  (k <> "Brazil" /\
   exists col ik, lookup raw0 k = Some col /\ lookup ini k = Some ik /\
     length (firstn n (skipn ik col)) = n /\
     df' = setitem df k (firstn n (skipn ik col))).
Proof.
  unfold adicionar_pais.
  destruct (k =? "Brazil")%string eqn:Ek; [intros H; inversion H; auto |].
  destruct (negb (mem k (keys pop))); [intros H; inversion H; auto |].
  intros H. inv_bind H. inv_bind H.
  destruct ((v =? 0) || (v0 <? v)); [inversion H; auto |].
  inv_bind H. apply assign_inr in H. destruct H as [Hl ->].
  right. split; [now apply String.eqb_neq |].
  apply getitem_inr in E, E1. eauto 8.
Qed.

Lemma adicionar_pais_alinhado raw0 pop ini n brazil df k df' :
  alinhado raw0 ini n brazil df ->
  adicionar_pais raw0 pop ini n df k = inr df' ->
  alinhado raw0 ini n brazil df'.
Proof.
  intros [Hb Hk] H. apply adicionar_pais_inr in H.
  destruct H as [-> | (Hne & col & ik & Hc & Hi & _ & ->)]; [split; assumption |].
  split.
  - rewrite lookup_setitem_neq; assumption.
  - intros k' c Hout Hl.
    destruct (string_dec k k') as [<- | Hkk].
    + rewrite lookup_setitem_eq in Hl. inversion Hl; subst. eauto.
    + rewrite lookup_setitem_neq in Hl by assumption. eauto.
Qed.

Lemma lookup_map_fillna (raw_csv : frame) (k : string) :
  lookup (map (fun kc => (fst kc, map fillna0 (snd kc))) raw_csv) k =
  option_map (map fillna0) (lookup raw_csv k).
Proof.
  induction raw_csv as [| [k0 c0] r IH]; simpl; [reflexivity |].
  destruct (k0 =? k)%string; [reflexivity | exact IH].
Qed.

Lemma setitem_lengths (n : nat) (df : frame) (k : string) (v : list float64) :
  Forall (fun kc => length (snd kc) = n) df -> length v = n ->
  Forall (fun kc => length (snd kc) = n) (setitem df k v).
Proof.
  intros Hdf Hv. induction df as [| [k0 c0] df IH]; simpl.
  - constructor; [exact Hv | constructor].
  - inversion Hdf as [| ? ? Hh Ht].
    destruct (k0 =? k)%string; constructor; auto.
Qed.

Lemma lookup_lengths (n : nat) (df : frame) (k : string) (c : list float64) :
  Forall (fun kc => length (snd kc) = n) df -> lookup df k = Some c ->
  length c = n.
Proof.
  intros Hdf. induction df as [| [k0 c0] df IH]; simpl; [discriminate |].
  inversion Hdf as [| ? ? Hh Ht]. simpl in Hh.
  destruct (k0 =? k)%string; [| now apply IH].
  intros Hc. inversion Hc. congruence.
Qed.

Lemma adicionar_pais_lengths raw0 pop ini n df k df' :
  Forall (fun kc => length (snd kc) = n) df ->
  adicionar_pais raw0 pop ini n df k = inr df' ->
  Forall (fun kc => length (snd kc) = n) df'.
Proof.
  intros Hdf H. apply adicionar_pais_inr in H.
  destruct H as [-> | (_ & col & ik & _ & _ & Hl & ->)]; [exact Hdf |].
  apply setitem_lengths; [exact Hdf | exact Hl].
Qed.

(** What a successful [preparar_dados] went through. *)
Lemma preparar_dados_inr raw_csv pop sp p1 p4 pd :
  preparar_dados raw_csv pop sp p1 p4 = inr pd ->
  raw pd = map (fun kc => (fst kc, map fillna0 (snd kc))) raw_csv /\
  inicio_de (raw pd) p1 = inr (inicio pd) /\
  popu pd = pop /\
  exists brazil,
    base_brazil (raw pd) (inicio pd) p4 = inr brazil /\
    nbr pd = length brazil /\
    foldM (adicionar_pais (raw pd) pop (inicio pd) (nbr pd)) (keys (inicio pd))
      (recortes p4 brazil
         (diarios (nbr pd)
            (map deaths (filter (fun r => (place_type r =? "state")%string) sp)))
         (diarios (nbr pd)
            (map deaths (filter (fun r => (city r =? "São Paulo")%string) sp))))
    = inr (data pd) /\
    Forall (fun kc => length (snd kc) = nbr pd) (data pd) /\
    exists c_br c_sp c_city c_ex pop_br,
      lookup (data pd) "Brazil" = Some c_br /\
      lookup (data pd) "SP" = Some c_sp /\
      lookup (data pd) "SP_City" = Some c_city /\
      lookup (data pd) "Brazil_sem_SP" = Some c_ex /\
      lookup pop "Brazil" = Some pop_br /\
      let pop_sp := series_max (map estimated_population_2019
                      (filter (fun r => (place_type r =? "state")%string) sp)) in
      let pop_city := series_max (map estimated_population_2019
                      (filter (fun r => (city r =? "São Paulo")%string) sp)) in
      popuBR pd = [("Brazil", pop_br); ("SP", pop_sp); ("SP_City", pop_city);
                   ("Brazil_sem_SP", fsub pop_br pop_sp)] /\
      por100k pd = [("Brazil", per100k pop_br c_br);
                    ("SP", per100k pop_sp c_sp);
                    ("SP_City", per100k pop_city c_city);
                    ("Brazil_sem_SP", per100k (fsub pop_br pop_sp) c_ex)].
Proof.
  unfold preparar_dados. cbv zeta. intros H.
  inv_bind H. inv_bind H. inv_bind H. inv_bind H. inv_bind H. inv_bind H.
  inv_bind H. inv_bind H. inv_bind H. inv_bind H. inv_bind H. inv_bind H.
  inversion H; subst pd; clear H. simpl.
  apply assign_inr in E1. destruct E1 as [L1 ->].
  apply assign_inr in E2. destruct E2 as [L2 ->].
  cbn in E3. inversion E3; subst v3; clear E3.
  apply assign_inr in E4. destruct E4 as [L4 ->].
  cbn [setitem String.eqb Ascii.eqb Bool.eqb] in E5.
  split; [reflexivity |]. split; [exact E |]. split; [reflexivity |].
  exists v0. split; [exact E0 |]. split; [reflexivity |].
  split; [exact E5 |]. split.
  - eapply (foldM_invariant _ (fun df => Forall (fun kc => length (snd kc) = length v0) df));
      [| | exact E5].
    + intros s a s'. apply adicionar_pais_lengths.
    + repeat constructor; assumption.
  - apply getitem_inr in E6, E7, E8, E9, E10.
    exists v7, v8, v9, v10, v6. repeat split; assumption.
Qed.

Lemma base_brazil_inr raw0 ini p4 brazil :
  base_brazil raw0 ini p4 = inr brazil ->
  exists col i, lookup raw0 "Brazil" = Some col /\
    lookup ini "Brazil" = Some i /\ brazil = scale p4 (skipn i col).
Proof.
  unfold base_brazil. intros H. inv_bind H. inv_bind H.
  apply getitem_inr in E, E0. inversion H. eauto.
Qed.

Lemma recortes_alinhado raw0 ini n p4 brazil e c :
  alinhado raw0 ini n brazil (recortes p4 brazil e c).
Proof.
  split; [reflexivity |].
  intros k col Hout. unfold recortes. cbn [lookup].
  assert (Hne : forall k', In k' out -> (k' =? k)%string = false).
  { intros k' Hin. apply String.eqb_neq. intros ->. contradiction. }
  rewrite !Hne by (unfold out; simpl; tauto).
  intros Hl. discriminate Hl.
Qed.

Lemma preparar_dados_alinhado raw_csv pop sp p1 p4 pd :
  preparar_dados raw_csv pop sp p1 p4 = inr pd ->
  exists col i,
    lookup (raw pd) "Brazil" = Some col /\
    lookup (inicio pd) "Brazil" = Some i /\
    i < length col /\
    nbr pd = length col - i /\
    alinhado (raw pd) (inicio pd) (nbr pd) (scale p4 (skipn i col)) (data pd).
Proof.
  intros H. apply preparar_dados_inr in H.
  destruct H as (_ & Hini & Hpop & brazil & Hb & Hn & Hfold & _).
  apply base_brazil_inr in Hb. destruct Hb as (col & i & Hc & Hi & ->).
  exists col, i. split; [exact Hc |]. split; [exact Hi |].
  pose proof (inicio_de_lookup _ _ _ Hini "Brazil") as Ho.
  rewrite Hc in Ho. destruct Ho as (i' & Hi' & Ho).
  rewrite Hi in Hi'. inversion Hi'; subst i'.
  apply onset_inr in Ho. destruct Ho as (Hlt & _).
  split; [exact Hlt |].
  split; [rewrite Hn; unfold scale; now rewrite length_map, length_skipn |].
  eapply (foldM_invariant _ (alinhado (raw pd) (inicio pd) (nbr pd) _)); [| | exact Hfold].
  - intros s a s' Hs Ha. eapply adicionar_pais_alinhado; eauto.
  - apply recortes_alinhado.
Qed.

(** C1 (as amended).  For every region of the raw table, the onset index
    that [preparar_dados] computes is the first day whose daily (not
    cumulative) count is at least [p1], and 0 when no day is; it is a row
    of the region's series.  Row 0 of the aligned series of an included
    region is the raw value of that day, and row 0 of the target's series
    is that value times [p4]. *)
Theorem onset_is_first_daily_reach :
  forall raw_csv pop sp p1 p4 pd k col,
    preparar_dados raw_csv pop sp p1 p4 = inr pd ->
    lookup (raw pd) k = Some col ->
    exists i,
      lookup (inicio pd) k = Some i /\
      i < length col /\
      (forall j, j < length col -> fge (nth j col NaN) p1 = true ->
                 i <= j /\ fge (nth i col NaN) p1 = true) /\
      ((forall j, j < length col -> fge (nth j col NaN) p1 = false) -> i = 0) /\
      (k = "Brazil" ->
       exists c, lookup (data pd) k = Some c /\
                 c = scale p4 (skipn i col) /\
                 nth 0 c NaN = fmul (nth i col NaN) p4) /\
      (~ In k out ->
       forall c, lookup (data pd) k = Some c ->
                 c = firstn (nbr pd) (skipn i col) /\
                 nth 0 c NaN = nth i col NaN).
Proof.
  intros raw_csv pop sp p1 p4 pd k col H Hcol.
  pose proof (preparar_dados_alinhado _ _ _ _ _ _ H) as
    (cb & ib & Hcb & Hib & Hlt & Hn & Hbr & Hal).
  apply preparar_dados_inr in H. destruct H as (_ & Hini & _).
  pose proof (inicio_de_lookup _ _ _ Hini k) as Ho.
  rewrite Hcol in Ho. destruct Ho as (i & Hi & Ho).
  apply onset_inr in Ho. destruct Ho as (Hil & Hfirst & Hnone).
  exists i. repeat split; try assumption.
  - apply Hfirst; assumption.
  - apply (Hfirst j); assumption.
  - intros ->. rewrite Hcb in Hcol. inversion Hcol; subst cb.
    rewrite Hib in Hi. inversion Hi; subst ib.
    exists (scale p4 (skipn i col)). repeat split; [exact Hbr |].
    unfold scale. rewrite <- (firstn_skipn i col) at 2.
    rewrite app_nth2; rewrite length_firstn, Nat.min_l by lia; [| lia].
    rewrite Nat.sub_diag. destruct (skipn i col) eqn:Es; [| reflexivity].
    apply (f_equal (@length _)) in Es. rewrite length_skipn in Es. simpl in Es. lia.
  - destruct (Hal k c H H0) as (col' & i' & Hc' & Hi' & ->).
    rewrite Hcol in Hc'. inversion Hc'; subst col'.
    rewrite Hi in Hi'. inversion Hi'; subst i'. reflexivity.
  - destruct (Hal k c H H0) as (col' & i' & Hc' & Hi' & ->).
    rewrite Hcol in Hc'. inversion Hc'; subst col'.
    rewrite Hi in Hi'. inversion Hi'; subst i'.
    rewrite <- (firstn_skipn i col) at 2.
    rewrite app_nth2; rewrite length_firstn, Nat.min_l by lia; [| lia].
    rewrite Nat.sub_diag. destruct (skipn i col) eqn:Es.
    + apply (f_equal (@length _)) in Es. rewrite length_skipn in Es. simpl in Es. lia.
    + destruct (nbr pd) eqn:En; [lia | reflexivity].
Qed.

(* ================================================================== *)
(** ** The projection loop *)

Section Loop.

Variables (cal : frame) (pesos : series float64) (cs : list string).

Lemma estender_snoc (dias : list nat) (d : nat) (proj : list float64) :
  estender cal pesos cs (dias ++ [d]) proj =
  estender cal pesos cs dias proj
    ++ [fmul (last (estender cal pesos cs dias proj) NaN)
             (incremento cal pesos cs d)].
Proof.
  revert proj.
  induction dias as [| d0 dias IH]; intros proj; simpl; [reflexivity |].
  apply IH.
Qed.

Lemma estender_prefix (dias : list nat) (proj : list float64) :
  exists t,
    estender cal pesos cs dias proj = proj ++ t /\ length t = length dias.
Proof.
  revert proj.
  induction dias as [| d dias IH]; intros proj; simpl.
  - exists []. now rewrite app_nil_r.
  - destruct (IH (proj ++ [fmul (last proj NaN) (incremento cal pesos cs d)]))
      as (t & Ht & Hl).
    eexists. rewrite Ht, <- app_assoc. split; [reflexivity |].
    simpl. now rewrite Hl.
Qed.

Lemma estender_length (dias : list nat) (proj : list float64) :
  length (estender cal pesos cs dias proj) = length proj + length dias.
Proof.
  destruct (estender_prefix dias proj) as (t & -> & Hl).
  now rewrite length_app, Hl.
Qed.

(** Each projected day is the day before times the day's multiplier. *)
Lemma estender_step (n m : nat) (proj : list float64) :
  length proj = n -> 1 <= n ->
  forall d, n <= d < n + m ->
    nth d (estender cal pesos cs (seq n m) proj) NaN =
    fmul (nth (d - 1) (estender cal pesos cs (seq n m) proj) NaN)
         (incremento cal pesos cs d).
Proof.
  intros Hn Hpos. induction m as [| m IH]; intros d Hd; [lia |].
  rewrite seq_S, estender_snoc.
  pose proof (estender_length (seq n m) proj) as Hl.
  rewrite length_seq, Hn in Hl.
  destruct (Nat.eq_dec d (n + m)) as [-> | Hne].
  - rewrite app_nth2 by lia. rewrite Hl, Nat.sub_diag. simpl nth.
    rewrite app_nth1 by lia. f_equal.
    destruct (estender cal pesos cs (seq n m) proj) as [| x l] eqn:El
      using rev_ind; [simpl in Hl; lia |].
    rewrite last_last. rewrite length_app in Hl. simpl in Hl.
    rewrite app_nth2 by lia.
    replace (n + m - 1 - length l) with 0 by lia. reflexivity.
  - rewrite !app_nth1 by lia. apply IH. lia.
Qed.

(** Once the projection is undefined it stays undefined. *)
Lemma estender_nan (dias : list nat) (proj : list float64) :
  Forall (fun x => x = NaN) proj -> proj <> [] ->
  Forall (fun x => x = NaN) (estender cal pesos cs dias proj).
Proof.
  revert proj.
  induction dias as [| d dias IH]; intros proj Hall Hne; simpl; [exact Hall |].
  apply IH.
  - apply Forall_app. split; [exact Hall |].
    constructor; [| constructor].
    destruct proj as [| x l] using rev_ind; [contradiction |].
    rewrite last_last. apply Forall_app in Hall. destruct Hall as [_ Hx].
    inversion Hx; subst. reflexivity.
  - destruct proj; discriminate.
Qed.

End Loop.

Lemma projetar_inr cal pesos cs ref n proj :
  projetar cal pesos cs ref n = inr proj ->
  exists r seam m,
    lookup cal ref = Some r /\ n = S m /\ nth_error r m = Some seam /\
    proj = estender cal pesos cs (seq n (shape0 cal - n))
             (repeat NaN m ++ [seam]).
Proof.
  unfold projetar. intros H. inv_bind H. inv_bind H.
  apply getitem_inr in E. inversion H; subst proj; clear H.
  destruct n as [| m]; [discriminate |].
  destruct (nth_error v m) as [s |] eqn:En; [| discriminate].
  inversion E0; subst v0. exists v, s, m.
  repeat split; try assumption. simpl. now rewrite Nat.sub_0_r.
Qed.

(** The projection raises nothing once the seam exists. *)
Lemma projetar_total cal pesos cs ref n r :
  lookup cal ref = Some r -> 1 <= n <= length r ->
  exists proj, projetar cal pesos cs ref n = inr proj.
Proof.
  intros Hr [Hn Hl]. unfold projetar, getitem. rewrite Hr. simpl.
  destruct n as [| m]; [lia |].
  destruct (nth_error r m) as [s |] eqn:En.
  - simpl. eauto.
  - apply nth_error_None in En. lia.
Qed.

Lemma projetar_seam cal pesos cs ref n proj :
  projetar cal pesos cs ref n = inr proj ->
  exists r,
    lookup cal ref = Some r /\ 1 <= n /\
    (exists v, nth_error r (n - 1) = Some v) /\
    nth_error proj (n - 1) = nth_error r (n - 1) /\
    forall i, i < n - 1 -> nth_error proj i = Some NaN.
Proof.
  intros H. apply projetar_inr in H.
  destruct H as (r & seam & m & Hr & -> & Hs & ->).
  exists r. split; [exact Hr |]. split; [lia |].
  replace (S m - 1) with m by lia. split; [eauto |].
  destruct (estender_prefix cal pesos cs (seq (S m) (shape0 cal - S m))
              (repeat NaN m ++ [seam])) as (t & -> & _).
  split.
  - rewrite nth_error_app1 by (rewrite length_app, repeat_length; simpl; lia).
    rewrite nth_error_app2 by (rewrite repeat_length; lia).
    rewrite repeat_length, Nat.sub_diag. simpl. now rewrite Hs.
  - intros i Hi.
    rewrite nth_error_app1 by (rewrite length_app, repeat_length; simpl; lia).
    rewrite nth_error_app1 by (rewrite repeat_length; lia).
    now apply nth_error_repeat.
Qed.

(* ================================================================== *)
(** ** The calibrated table *)

Lemma rolling_mean_length (w : nat) (col : list float64) :
  length (rolling_mean w col) = length col.
Proof. unfold rolling_mean. now rewrite length_map, length_seq. Qed.

(** A row before the first full window holds no value. *)
Lemma rolling_mean_head (w : nat) (col : list float64) (i : nat) :
  i < length col -> i + 1 < w -> nth_error (rolling_mean w col) i = Some NaN.
Proof.
  intros Hi Hw. unfold rolling_mean.
  rewrite nth_error_map, nth_error_seq.
  destruct (Nat.ltb_spec i (length col)) as [_ | ?]; [| lia].
  simpl. destruct (Nat.ltb_spec (i + 1) w) as [_ | ?]; [| lia].
  now rewrite orb_true_r.
Qed.

Lemma shape0_ge (df : frame) (k : string) (c : list float64) :
  In (k, c) df -> length c <= shape0 df.
Proof.
  induction df as [| [k0 c0] df IH]; simpl; [contradiction |].
  intros [E | Hin]; [inversion E; subst; lia |].
  specialize (IH Hin). lia.
Qed.

Lemma shape0_const (n : nat) (df : frame) :
  df <> [] -> Forall (fun kc => length (snd kc) = n) df -> shape0 df = n.
Proof.
  induction df as [| [k0 c0] df IH]; [contradiction |].
  intros _ Hall. inversion Hall as [| ? ? Hh Ht]; subst. simpl in *.
  destruct df as [| kc df]; [simpl; lia |].
  rewrite IH; [lia | discriminate | exact Ht].
Qed.

Lemma pad_length (n : nat) (col : list float64) :
  length col <= n -> length (pad n col) = n.
Proof. intros Hle. unfold pad. rewrite length_app, repeat_length. lia. Qed.

Lemma rolling_inr (p3 : Z) (df cal : frame) :
  rolling p3 df = inr cal ->
  (0 <= p3)%Z /\
  cal = map (fun kc => (fst kc, rolling_mean (Z.to_nat p3) (snd kc))) df.
Proof.
  unfold rolling. destruct (Z.ltb_spec p3 0) as [Hn | Hn]; intros Hr; [discriminate |].
  inversion Hr. split; [lia | reflexivity].
Qed.

(** What a successful [calibrar] built: every column has the rows of the
    longest one, and the reference comes first. *)
Lemma calibrar_inr pd cs p3 ref cal :
  calibrar pd cs p3 ref = inr cal ->
  exists r0 cols,
    lookup (por100k pd) ref = Some r0 /\
    mapM (coluna_pais pd) cs = inr cols /\
    (0 <= p3)%Z /\
    length r0 <= shape0 cal /\
    Forall (fun kc => length (snd kc) = shape0 cal) cal /\
    lookup cal ref =
      Some (rolling_mean (Z.to_nat p3) (pad (shape0 cal) r0)).
Proof.
  unfold calibrar. intros H. inv_bind H. inv_bind H.
  apply getitem_inr in E. apply rolling_inr in H. destruct H as [Hp ->].
  exists v, v0. split; [exact E |]. split; [exact E0 |]. split; [exact Hp |].
  set (df := (ref, v) :: v0).
  set (cal := map _ (concat_axis1 df)).
  assert (Hall : Forall (fun kc => length (snd kc) = shape0 df) cal).
  { subst cal. unfold concat_axis1. rewrite map_map. apply Forall_map.
    apply Forall_forall. intros [k c] Hin. cbn [fst snd].
    rewrite rolling_mean_length. apply pad_length. eapply shape0_ge; eauto. }
  assert (Hs : shape0 cal = shape0 df).
  { apply shape0_const; [subst cal df; discriminate | exact Hall]. }
  rewrite Hs. split; [apply (shape0_ge df ref); now left |].
  split; [exact Hall |].
  subst cal df. cbn [concat_axis1 map lookup fst snd].
  now rewrite String.eqb_refl.
Qed.

Lemma scale_length (p : float64) (col : list float64) :
  length (scale p col) = length col.
Proof. apply length_map. Qed.

Lemma per100k_length (p : float64) (col : list float64) :
  length (per100k p col) = length col.
Proof. apply length_map. Qed.

(** The normalised series of a cut has the target's [nbr] rows, and the
    target has at least one. *)
Lemma preparar_dados_por100k raw_csv pop sp p1 p4 pd ref r0 :
  preparar_dados raw_csv pop sp p1 p4 = inr pd ->
  lookup (por100k pd) ref = Some r0 ->
  length r0 = nbr pd /\ 1 <= nbr pd.
Proof.
  intros H Hr.
  pose proof (preparar_dados_alinhado _ _ _ _ _ _ H) as (cb & ib & _ & _ & Hlt & Hn & _).
  apply preparar_dados_inr in H.
  destruct H as (_ & _ & _ & brazil & _ & _ & _ & Hall & c1 & c2 & c3 & c4 & pb
                   & H1 & H2 & H3 & H4 & _ & _ & Hp).
  split; [| lia].
  rewrite Hp in Hr. cbn [lookup] in Hr.
  repeat match type of Hr with
         | (if ?b then _ else _) = _ => destruct b
         end;
    try discriminate; inversion Hr; rewrite per100k_length;
    eapply lookup_lengths; eauto.
Qed.

(** With fewer days than the window, the smoothed reference has no
    value at the seam. *)
Lemma calibrar_short_seam raw_csv pop sp p1 p4 pd cs p3 ref cal :
  preparar_dados raw_csv pop sp p1 p4 = inr pd ->
  calibrar pd cs p3 ref = inr cal ->
  (Z.of_nat (nbr pd) < p3)%Z ->
  exists r,
    lookup cal ref = Some r /\ 1 <= nbr pd <= length r /\
    nth_error r (nbr pd - 1) = Some NaN.
Proof.
  intros Hpd Hcal Hlt.
  apply calibrar_inr in Hcal.
  destruct Hcal as (r0 & cols & Hr0 & _ & Hp & Hle & Hall & Href).
  destruct (preparar_dados_por100k _ _ _ _ _ _ _ _ Hpd Hr0) as [Hlen Hpos].
  exists (rolling_mean (Z.to_nat p3) (pad (shape0 cal) r0)).
  split; [exact Href |].
  rewrite rolling_mean_length, pad_length by assumption.
  split; [lia |].
  apply rolling_mean_head; [rewrite pad_length by assumption |]; lia.
Qed.

(** A projection that starts from an undefined seam is undefined
    throughout. *)
Lemma projetar_nan_seam cal pesos cs ref n r proj :
  lookup cal ref = Some r ->
  nth_error r (n - 1) = Some NaN ->
  projetar cal pesos cs ref n = inr proj ->
  n <= length proj /\ Forall (fun x => x = NaN) proj.
Proof.
  intros Href Hseam Hproj.
  apply projetar_inr in Hproj.
  destruct Hproj as (r' & seam & m & Hr' & -> & Hsm & ->).
  rewrite Href in Hr'. inversion Hr'; subst r'.
  replace (S m - 1) with m in Hseam by lia.
  rewrite Hsm in Hseam. inversion Hseam; subst seam.
  split; [rewrite estender_length, length_app, repeat_length; simpl; lia |].
  apply estender_nan.
  - apply Forall_app. split; [| repeat constructor].
    apply Forall_forall. intros x Hx. now apply repeat_spec in Hx.
  - destruct (repeat NaN m); discriminate.
Qed.

(** C10.  When the target has fewer days than the smoothing window, the
    smoothed value of the reference at row [nbr - 1] is undefined, the
    projection starts from an undefined seam and every entry of the
    projected series is undefined, for whatever comparators and weights:
    a defined entry is possible only when [nbr >= p3]. *)
Theorem short_series_projection_undefined :
  forall raw_csv pop sp p1 p4 pd cs p3 ref cal pesos,
    preparar_dados raw_csv pop sp p1 p4 = inr pd ->
    calibrar pd cs p3 ref = inr cal ->
    (Z.of_nat (nbr pd) < p3)%Z ->
    exists r proj,
      lookup cal ref = Some r /\
      nth_error r (nbr pd - 1) = Some NaN /\
      projetar cal pesos cs ref (nbr pd) = inr proj /\
      nbr pd <= length proj /\
      nth_error proj (nbr pd - 1) = Some NaN /\
      forall x, In x proj -> x = NaN.
Proof.
  intros raw_csv pop sp p1 p4 pd cs p3 ref cal pesos Hpd Hcal Hlt.
  destruct (calibrar_short_seam _ _ _ _ _ _ _ _ _ _ Hpd Hcal Hlt)
    as (r & Href & Hn & Hseam).
  destruct (projetar_total cal pesos cs ref (nbr pd) r Href Hn) as [proj Hproj].
  destruct (projetar_nan_seam _ _ _ _ _ _ _ Href Hseam Hproj) as [Hlen Hall].
  exists r, proj. repeat split; try assumption.
  - destruct (projetar_seam _ _ _ _ _ _ Hproj) as (r' & Hr' & _ & _ & Hs & _).
    rewrite Href in Hr'. inversion Hr'; subst r'. now rewrite Hs.
  - now apply Forall_forall.
Qed.

Lemma rodar_modelo_inr corr tie now pd p2 p3 ref cs cal proj inf :
  rodar_modelo corr tie now pd p2 p3 ref = inr (cs, cal, proj, inf) ->
  exists pearson_ref pesos,
    pearson_col corr (data pd) ref = inr pearson_ref /\
    cs = selecionar tie pearson_ref p2 /\
    calibrar pd cs p3 ref = inr cal /\
    pesos_de pearson_ref cs = inr pesos /\
    projetar cal pesos cs ref (nbr pd) = inr proj /\
    resumir now proj (popuBR pd) ref (nbr pd) = inr inf.
Proof.
  unfold rodar_modelo. intros H.
  inv_bind H. cbv zeta in H. inv_bind H. inv_bind H. inv_bind H. inv_bind H.
  inversion H; subst. eauto 10.
Qed.

(** C5.  In every run of [rodar_modelo] that returns, the projected
    series at row [nbr - 1] is the smoothed value of the reference in the
    calibrated table at that row, and every earlier row holds the
    no-data marker NaN (not zero). *)
Theorem seam_continuity :
  forall corr tie now pd p2 p3 ref cs cal proj inf,
    rodar_modelo corr tie now pd p2 p3 ref = inr (cs, cal, proj, inf) ->
    exists r,
      lookup cal ref = Some r /\
      1 <= nbr pd /\
      (exists v, nth_error r (nbr pd - 1) = Some v) /\
      nth_error proj (nbr pd - 1) = nth_error r (nbr pd - 1) /\
      forall i, i < nbr pd - 1 -> nth_error proj i = Some NaN.
Proof.
  intros corr tie now pd p2 p3 ref cs cal proj inf H.
  apply rodar_modelo_inr in H.
  destruct H as (pr & pesos & _ & _ & _ & _ & Hproj & _).
  eapply projetar_seam. exact Hproj.
Qed.

(** C3 (as amended).  Once the seam exists the loop of the projection
    raises nothing, whatever the calibrated values are.  Each day from
    [nbr] on is the day before times the sum of the comparators' shares.
    A comparator whose value of day [d] is missing contributes the neutral
    multiplier 1 times its weight, whatever its value of day [d - 1]; one
    whose value of day [d] is present contributes the quotient by its
    value of day [d - 1] times its weight, and that quotient is an
    infinity or NaN when the value of day [d - 1] is zero, NaN when it is
    missing. *)
Theorem neutral_multiplier_on_missing_day :
  forall cal pesos cs ref n r,
    lookup cal ref = Some r ->
    1 <= n <= length r ->
    exists proj,
      projetar cal pesos cs ref n = inr proj /\
      length proj = n + (shape0 cal - n) /\
      forall d, n <= d < shape0 cal ->
        nth d proj NaN =
          fmul (nth (d - 1) proj NaN)
               (fold_left (fun x c => fadd x (parcela cal pesos d c)) cs (Num 0)) /\
        forall c,
          (isnan (cell cal c d) = true ->
           parcela cal pesos d c = fmul (Num 1) (peso pesos c)) /\
          (isnan (cell cal c d) = false ->
           parcela cal pesos d c =
             fmul (fdiv (cell cal c d) (cell cal c (d - 1))) (peso pesos c)) /\
          (forall a z, cell cal c d = Num a -> cell cal c (d - 1) = Num z ->
           (z == 0)%Q ->
           parcela cal pesos d c = fmul (inf_of (a ?= 0)%Q) (peso pesos c)) /\
          (isnan (cell cal c d) = false -> cell cal c (d - 1) = NaN ->
           parcela cal pesos d c = NaN).
Proof.
  intros cal pesos cs ref n r Hr Hn.
  destruct (projetar_total cal pesos cs ref n r Hr Hn) as [proj Hproj].
  exists proj. split; [exact Hproj |].
  apply projetar_inr in Hproj.
  destruct Hproj as (r' & seam & m & _ & -> & _ & ->).
  assert (Hl0 : length (repeat NaN m ++ [seam]) = S m).
  { rewrite length_app, repeat_length. simpl. lia. }
  split; [rewrite estender_length, Hl0, length_seq; reflexivity |].
  intros d Hd. split.
  - apply (estender_step cal pesos cs (S m) (shape0 cal - S m)); [exact Hl0 | lia | lia].
  - intros c. unfold parcela. split; [| split; [| split]].
    + intros ->. reflexivity.
    + intros ->. reflexivity.
    + intros a z Ha Hz Hz0. rewrite Ha, Hz. cbn [isnan negb fdiv].
      apply Qeq_bool_iff in Hz0. now rewrite Hz0.
    + intros Hday Hprev. rewrite Hday, Hprev. cbn [negb].
      destruct (cell cal c d); try discriminate; reflexivity.
Qed.

(** The clock enters [resumir] through the date of the peak alone. *)
Lemma resumir_now now1 now2 proj popBR ref n :
  match resumir now1 proj popBR ref n, resumir now2 proj popBR ref n with
  | inr i1, inr i2 =>
      pico i1 = pico i2 /\ index i1 = index i2 /\
      mortes_no_pico i1 = mortes_no_pico i2 /\
      dia_do_pico i2 = (dia_do_pico i1 + (now2 - now1))%Z
  | inl e1, inl e2 => e1 = e2
  | _, _ => False
  end.
Proof.
  unfold resumir.
  destruct (np_max (map nan_to_num proj)) as [e | p]; cbn [bind]; [reflexivity |].
  destruct (getitem popBR ref) as [e | pop]; cbn [bind]; [reflexivity |].
  destruct (py_int (arred (fdiv (arred (fmul p pop)) (Num 100000))))
    as [e | m]; cbn [bind]; [reflexivity |].
  destruct (list_index proj p) as [e | ix]; cbn [bind]; [reflexivity |].
  unfold ok. cbn [pico index mortes_no_pico dia_do_pico]. repeat split. lia.
Qed.

(** C9 (as amended).  The aligned table, the comparators, the calibrated
    table, the projected series and the peak's value, index and deaths
    are functions of the input tables and parameters alone.  The date of
    the peak also depends on the day of the run: two runs on the same
    tables fail alike or agree on everything but that date, which moves
    by the days between the two runs. *)
Theorem clock_only_shifts_peak_date :
  forall corr tie now1 now2 raw_csv pop sp p1 p4 p2 p3 ref,
    match pipeline corr tie now1 raw_csv pop sp p1 p4 p2 p3 ref,
          pipeline corr tie now2 raw_csv pop sp p1 p4 p2 p3 ref with
    | inr (pd1, (cs1, cal1, proj1, i1)), inr (pd2, (cs2, cal2, proj2, i2)) =>
        pd1 = pd2 /\ cs1 = cs2 /\ cal1 = cal2 /\ proj1 = proj2 /\
        pico i1 = pico i2 /\ index i1 = index i2 /\
        mortes_no_pico i1 = mortes_no_pico i2 /\
        dia_do_pico i2 = (dia_do_pico i1 + (now2 - now1))%Z
    | inl e1, inl e2 => e1 = e2
    | _, _ => False
    end.
Proof.
  intros. unfold pipeline.
  destruct (preparar_dados raw_csv pop sp p1 p4) as [e | pd]; simpl; [reflexivity |].
  unfold rodar_modelo.
  destruct (pearson_col corr (data pd) ref) as [e | pr]; simpl; [reflexivity |].
  destruct (calibrar pd (selecionar tie pr p2) p3 ref) as [e | cal]; simpl; [reflexivity |].
  destruct (pesos_de pr (selecionar tie pr p2)) as [e | pesos]; simpl; [reflexivity |].
  destruct (projetar cal pesos (selecionar tie pr p2) ref (nbr pd)) as [e | proj];
    simpl; [reflexivity |].
  pose proof (resumir_now now1 now2 proj (popuBR pd) ref (nbr pd)) as Hr.
  destruct (resumir now1 proj (popuBR pd) ref (nbr pd)) as [e1 | i1],
           (resumir now2 proj (popuBR pd) ref (nbr pd)) as [e2 | i2];
    simpl; try exact Hr.
  tauto.
Qed.

(* ================================================================== *)
(** ** Order of doubles and the ranking *)

Lemma fle_num (a b : Q) : fle (Num a) (Num b) = true <-> (a <= b)%Q.
Proof. simpl. apply Qle_bool_iff. Qed.

Lemma fle_trans (x y z : float64) :
  fle x y = true -> fle y z = true -> fle x z = true.
Proof.
  destruct x, y, z; simpl; try discriminate; try reflexivity.
  rewrite !Qle_bool_iff. apply Qle_trans.
Qed.

Lemma fle_total (x y : float64) :
  isnan x = false -> isnan y = false -> fle x y = true \/ fle y x = true.
Proof.
  destruct x, y; simpl; try discriminate; auto.
  intros _ _. rewrite !Qle_bool_iff.
  destruct (Qlt_le_dec q q0) as [H | H]; [left; now apply Qlt_le_weak | now right].
Qed.

(** The ranking of coefficients is a total preorder, and the sort's
    comparison follows it. *)
Lemma nao_abaixo_trans (a b c : float64) :
  nao_abaixo a b -> nao_abaixo b c -> nao_abaixo a c.
Proof.
  destruct a, b, c; cbn [nao_abaixo]; try tauto.
  intros H1 H2. eapply Qle_trans; eauto.
Qed.

Lemma Qle_bool_false (a b : Q) : Qle_bool b a = false -> (a <= b)%Q.
Proof.
  intros H. destruct (Qlt_le_dec a b) as [Hlt | Hle]; [now apply Qlt_le_weak |].
  apply Qle_bool_iff in Hle. congruence.
Qed.

Lemma precede_nao_abaixo tie (x y : string * float64) :
  precede tie x y = true -> nao_abaixo (snd x) (snd y).
Proof.
  unfold precede. destruct x as [kx [a | | |]], y as [ky [b | | |]];
    cbn [fst snd isnan negb orb andb feqb fle nao_abaixo];
    try discriminate; try exact (fun _ => I).
  destruct (Qeq_bool a b) eqn:E.
  - intros _. apply Qeq_bool_iff in E. rewrite E. apply Qle_refl.
  - apply Qle_bool_iff.
Qed.

Lemma precede_false tie (x y : string * float64) :
  precede tie x y = false -> nao_abaixo (snd y) (snd x).
Proof.
  unfold precede. destruct x as [kx [a | | |]], y as [ky [b | | |]];
    cbn [fst snd isnan negb orb andb feqb fle nao_abaixo];
    try discriminate; try exact (fun _ => I).
  destruct (Qeq_bool a b) eqn:E.
  - intros _. apply Qeq_bool_iff in E. rewrite E. apply Qle_refl.
  - apply Qle_bool_false.
Qed.

Lemma insert_desc_perm tie (x : string * float64) (l : series float64) :
  Permutation (x :: l) (insert_desc tie x l).
Proof.
  induction l as [| y l IH]; cbn [insert_desc]; [reflexivity |].
  destruct (precede tie x y); [reflexivity |].
  rewrite perm_swap. now constructor.
Qed.

Lemma sort_values_desc_perm tie (s : series float64) :
  Permutation s (sort_values_desc tie s).
Proof.
  induction s as [| x s IH]; cbn [sort_values_desc fold_right]; [constructor |].
  rewrite <- insert_desc_perm. now constructor.
Qed.

Lemma insert_desc_sorted tie (x : string * float64) (l : series float64) :
  StronglySorted (fun a b => nao_abaixo (snd a) (snd b)) l ->
  StronglySorted (fun a b => nao_abaixo (snd a) (snd b)) (insert_desc tie x l).
Proof.
  induction 1 as [| y l Hs IH Hy]; cbn [insert_desc]; [repeat constructor |].
  destruct (precede tie x y) eqn:E.
  - constructor; [now constructor |].
    apply precede_nao_abaixo in E.
    constructor; [exact E |].
    eapply Forall_impl; [| exact Hy]. intros z Hz. cbn beta in *.
    eapply nao_abaixo_trans; eauto.
  - constructor; [exact IH |].
    rewrite <- insert_desc_perm. constructor; [| exact Hy].
    now apply precede_false in E.
Qed.

Lemma sort_values_desc_sorted tie (s : series float64) :
  StronglySorted (fun a b => nao_abaixo (snd a) (snd b))
    (sort_values_desc tie s).
Proof.
  induction s as [| x s IH]; cbn [sort_values_desc fold_right]; [constructor |].
  now apply insert_desc_sorted.
Qed.

Lemma StronglySorted_filter {A : Type} (R : A -> A -> Prop) (f : A -> bool)
  (l : list A) :
  StronglySorted R l -> StronglySorted R (filter f l).
Proof.
  induction 1 as [| a l Hs IH Ha]; simpl; [constructor |].
  destruct (f a); [| exact IH].
  constructor; [exact IH |].
  apply Forall_forall. intros x Hx. apply filter_In in Hx.
  rewrite Forall_forall in Ha. now apply Ha.
Qed.

Lemma StronglySorted_app {A : Type} (R : A -> A -> Prop) (l1 l2 : list A) :
  StronglySorted R (l1 ++ l2) ->
  StronglySorted R l1 /\ forall a b, In a l1 -> In b l2 -> R a b.
Proof.
  induction l1 as [| x l1 IH]; simpl; intros H.
  - split; [constructor | contradiction].
  - inversion H as [| ? ? Hs Hx]; subst.
    destruct (IH Hs) as [Hs1 Hc]. split.
    + constructor; [exact Hs1 |]. apply Forall_app in Hx. tauto.
    + intros a b [<- | Ha] Hb; [| now apply Hc].
      rewrite Forall_forall in Hx. apply Hx, in_or_app. now right.
Qed.

Lemma filter_series_perm (keep : string * float64 -> bool) (s t : series float64) :
  Permutation s t -> Permutation (filter keep s) (filter keep t).
Proof.
  intros Hst. induction Hst as [| kv s t _ IH | kv kv' s | s t u _ IH1 _ IH2];
    cbn [filter].
  - constructor.
  - destruct (keep kv); [now constructor | exact IH].
  - destruct (keep kv), (keep kv'); try reflexivity. apply perm_swap.
  - now transitivity (filter keep t).
Qed.

Lemma keys_filter (f : string -> bool) (s : series float64) :
  filter f (keys s) = keys (filter (fun kv => f (fst kv)) s).
Proof.
  unfold keys. induction s as [| [k v] s IH]; simpl; [reflexivity |].
  destruct (f k); simpl; now rewrite IH.
Qed.

(* ================================================================== *)
(** ** Sums of finite values and the weights *)

Lemma Qred_idem (q : Q) : Qred (Qred q) = Qred q.
Proof. apply Qred_complete, Qred_correct. Qed.

Lemma Qsum_cons (q : Q) (l : list Q) : Qsum (q :: l) = (q + Qsum l)%Q.
Proof. reflexivity. Qed.

Lemma fold_fadd_nums (qs : list Q) (acc : Q) :
  Qred acc = acc ->
  exists a, fold_left fadd (map Num qs) (Num acc) = Num a /\
            (a == acc + Qsum qs)%Q /\ Qred a = a.
Proof.
  revert acc. induction qs as [| q qs IH]; intros acc Hacc.
  - exists acc. split; [reflexivity |]. split; [simpl; ring | exact Hacc].
  - destruct (IH (Qred (acc + q)) (Qred_idem _)) as (a & Ha & He & Hr).
    exists a. split; [exact Ha |]. split; [| exact Hr].
    rewrite He, Qred_correct, Qsum_cons. ring.
Qed.

Lemma fsum_nums (qs : list Q) :
  exists a, fsum (map Num qs) = Num a /\ (a == Qsum qs)%Q /\ Qred a = a.
Proof.
  destruct (fold_fadd_nums qs 0 eq_refl) as (a & Ha & He & Hr).
  exists a. split; [exact Ha |]. split; [rewrite He; ring | exact Hr].
Qed.

Lemma Qsum_scaled (s : Q) (qs : list Q) :
  ~ (s == 0)%Q ->
  (Qsum (map (fun q => Qred (q / s)) qs) == Qsum qs / s)%Q.
Proof.
  intros Hs. induction qs as [| q qs IH].
  - simpl. field. exact Hs.
  - cbn [map]. rewrite !Qsum_cons, IH, Qred_correct. field. exact Hs.
Qed.

Lemma Qsum_nonneg (qs : list Q) :
  (forall q, In q qs -> (0 <= q)%Q) -> (0 <= Qsum qs)%Q.
Proof.
  induction qs as [| q qs IH]; intros H; [apply Qle_refl |].
  rewrite Qsum_cons. replace 0%Q with (0 + 0)%Q by reflexivity.
  apply Qplus_le_compat; [apply H; now left | apply IH; intros; apply H; now right].
Qed.

Lemma mapM_length {A B : Type} (f : A -> result B) (l : list A) (l' : list B) :
  mapM f l = inr l' -> length l' = length l.
Proof.
  revert l'. induction l as [| a l IH]; simpl; intros l' H.
  - inversion H. reflexivity.
  - inv_bind H. inv_bind H. inversion H. simpl. f_equal. now apply IH.
Qed.

(** Lines 217-218 on finite coefficients whose sum is not zero: each
    weight is the comparator's coefficient divided by that sum and the
    weights add up to exactly 1. *)
Lemma pesos_normalizados :
  forall pr cs qs,
    mapM (getitem pr) cs = inr (map Num qs) ->
    ~ (Qsum qs == 0)%Q ->
    exists ws,
      pesos_de pr cs = inr (combine cs (map Num ws)) /\
      length ws = length cs /\
      Forall2 (fun w q => (w == q / Qsum qs)%Q) ws qs /\
      (Qsum ws == 1)%Q /\
      fsum (map Num ws) = Num 1 /\
      ((forall q, In q qs -> (0 <= q)%Q) -> forall w, In w ws -> (0 <= w)%Q).
Proof.
  intros pr cs qs Hm Hs.
  destruct (fsum_nums qs) as (s & Hsum & Hse & _).
  assert (Hs' : ~ (s == 0)%Q) by (now rewrite Hse).
  assert (Hz : Qeq_bool s 0 = false).
  { destruct (Qeq_bool s 0) eqn:E; [apply Qeq_bool_iff in E; contradiction | reflexivity]. }
  exists (map (fun q => Qred (q / s)) qs).
  split; [| split; [| split; [| split; [| split]]]].
  - unfold pesos_de. rewrite Hm. cbn [bind]. rewrite Hsum, !map_map.
    unfold ok. do 2 f_equal. apply map_ext. intros q. cbn [fdiv]. now rewrite Hz.
  - apply mapM_length in Hm. now rewrite length_map in *.
  - assert (Hall : forall l, Forall2 (fun w q => (w == q / Qsum qs)%Q)
                                 (map (fun q => Qred (q / s)) l) l).
    { induction l as [| q l IH]; cbn [map]; constructor; [| exact IH].
      now rewrite Qred_correct, Hse. }
    apply Hall.
  - rewrite Qsum_scaled by exact Hs'. rewrite Hse. field. exact Hs.
  - destruct (fsum_nums (map (fun q => Qred (q / s)) qs)) as (t & Ht & Hte & Hr).
    rewrite Ht. f_equal. rewrite <- Hr.
    change 1%Q with (Qred 1). apply Qred_complete.
    rewrite Hte, Qsum_scaled by exact Hs'. rewrite Hse. field. exact Hs.
  - intros Hpos w Hw. apply in_map_iff in Hw. destruct Hw as (q & <- & Hq).
    rewrite Qred_correct.
    assert (H0 : (0 < s)%Q).
    { rewrite Hse. pose proof (Qsum_nonneg qs Hpos) as Hge.
      apply Qle_lteq in Hge. destruct Hge as [Hlt | Heq]; [exact Hlt |].
      exfalso. apply Hs. now symmetry. }
    apply Qle_shift_div_l; [exact H0 |]. rewrite Qmult_0_l. now apply Hpos.
Qed.

(** X23.  When the coefficients of the selected comparators are finite,
    none of them negative, and not all zero, the weights of lines
    217-219 are what the comments of lines 213-217 describe: none is
    negative, each is the comparator's coefficient divided by the sum
    of the coefficients, and they add up to exactly 1. *)
Theorem nonnegative_coefficients_give_normalised_weights :
  forall pr cs qs,
    mapM (getitem pr) cs = inr (map Num qs) ->
    (forall q, In q qs -> (0 <= q)%Q) ->
    (exists q, In q qs /\ (0 < q)%Q) ->
    exists ws,
      pesos_de pr cs = inr (combine cs (map Num ws)) /\
      length ws = length cs /\
      Forall2 (fun w q => (w == q / Qsum qs)%Q) ws qs /\
      (Qsum ws == 1)%Q /\
      (forall w, In w ws -> (0 <= w)%Q).
Proof.
  intros pr cs qs Hm Hpos (q0 & Hq0 & Hq0pos).
  assert (Hs : ~ (Qsum qs == 0)%Q).
  { clear Hm. induction qs as [| q qs IH]; [contradiction |].
    rewrite Qsum_cons. intros H0.
    assert (Hq : (0 <= q)%Q) by (apply Hpos; now left).
    assert (Hr : (0 <= Qsum qs)%Q) by (apply Qsum_nonneg; intros; apply Hpos; now right).
    destruct Hq0 as [-> | Hin].
    - apply (Qlt_irrefl 0). rewrite <- H0 at 2.
      apply Qlt_le_trans with (q0 + 0)%Q; [now rewrite Qplus_0_r |].
      apply Qplus_le_r. exact Hr.
    - apply IH; [intros; apply Hpos; now right | exact Hin |].
      apply Qle_antisym; [| exact Hr].
      rewrite <- H0. rewrite <- (Qplus_0_l (Qsum qs)) at 1.
      apply Qplus_le_l. exact Hq. }
  destruct (pesos_normalizados pr cs qs Hm Hs)
    as (ws & H1 & H2 & H3 & H4 & _ & H6).
  exists ws. repeat split; try assumption. now apply H6.
Qed.


(* ================================================================== *)
(** ** The peak *)

Lemma nan_to_num_finite (x : float64) : isfinite (nan_to_num x) = true.
Proof. destruct x; reflexivity. Qed.

Lemma fle_refl_num (a : Q) : fle (Num a) (Num a) = true.
Proof. apply fle_num, Qle_refl. Qed.

(** The maximum of finite values is one of them and bounds them all. *)
Lemma fold_fmax_finite (l : list float64) (x : float64) :
  Forall (fun y => isfinite y = true) (x :: l) ->
  exists m, fold_left fmax l x = Num m /\ In (Num m) (x :: l) /\
            forall y, In y (x :: l) -> fle y (Num m) = true.
Proof.
  revert x. induction l as [| b l IH]; intros x Hall.
  - inversion Hall as [| ? ? Hx _]; subst. destruct x as [a | | |]; try discriminate.
    exists a. split; [reflexivity |]. split; [now left |].
    intros y [<- | []]. apply fle_refl_num.
  - inversion Hall as [| ? ? Hx Hl]; subst.
    inversion Hl as [| ? ? Hb Hl']; subst.
    destruct x as [a | | |]; try discriminate.
    destruct b as [b | | |]; try discriminate.
    assert (Hc : exists c, fmax (Num a) (Num b) = Num c /\
                           (c = a \/ c = b) /\
                           fle (Num a) (Num c) = true /\ fle (Num b) (Num c) = true).
    { cbn [fmax fle]. destruct (Qle_bool a b) eqn:E.
      - exists b. repeat split; auto. apply fle_refl_num.
      - exists a. repeat split; auto; [apply fle_refl_num |].
        apply fle_num. destruct (Qlt_le_dec a b) as [Hlt | Hle]; [| exact Hle].
        apply Qlt_le_weak, Qle_bool_iff in Hlt. congruence. }
    destruct Hc as (c & Hc & Hcin & Hac & Hbc).
    destruct (IH (Num c)) as (m & Hm & Hin & Hub).
    { constructor; [reflexivity | exact Hl']. }
    exists m. cbn [fold_left]. rewrite Hc. split; [exact Hm |]. split.
    + destruct Hin as [E | Hin].
      * inversion E; subst m. destruct Hcin as [-> | ->]; [now left | right; now left].
      * right. now right.
    + intros y [<- | [<- | Hy]].
      * eapply fle_trans; [exact Hac |]. apply Hub. now left.
      * eapply fle_trans; [exact Hbc |]. apply Hub. now left.
      * apply Hub. now right.
Qed.

Lemma np_max_nan_to_num (proj : list float64) :
  proj <> [] ->
  exists m, np_max (map nan_to_num proj) = inr (Num m) /\
            In (Num m) (map nan_to_num proj) /\
            forall x, In x proj -> fle (nan_to_num x) (Num m) = true.
Proof.
  intros Hne. destruct proj as [| x proj]; [contradiction |].
  cbn [map np_max].
  destruct (fold_fmax_finite (map nan_to_num proj) (nan_to_num x)) as (m & Hm & Hin & Hub).
  { change (Forall (fun y => isfinite y = true) (map nan_to_num (x :: proj))).
    apply Forall_map, Forall_forall. intros; apply nan_to_num_finite. }
  exists m. unfold ok. rewrite Hm. split; [reflexivity |]. split; [exact Hin |].
  intros y Hy. apply Hub. change (In (nan_to_num y) (map nan_to_num (x :: proj))).
  now apply in_map.
Qed.

Lemma first_index_exists {A : Type} (p : A -> bool) (l : list A) (x : A) :
  In x l -> p x = true -> exists i, first_index p l = Some i.
Proof.
  induction l as [| a l IH]; simpl; [contradiction |].
  intros Hin Hp. destruct (p a) eqn:Pa; [eauto |].
  destruct Hin as [-> | Hin]; [congruence |].
  destruct (IH Hin Hp) as [i ->]. simpl. eauto.
Qed.

(** ** Rounding to the nearest double *)

(** [round64] is a function of the value of the rational. *)
Lemma round64_Qeq (a b : Q) : (a == b)%Q -> round64 a = round64 b.
Proof. intros H. unfold round64. now rewrite (Qred_complete a b H). Qed.

Lemma em_unidades_pos (n d e : Z) :
  (0 < n)%Z -> (0 < d)%Z ->
  (0 < fst (em_unidades n d e))%Z /\ (0 < snd (em_unidades n d e))%Z.
Proof.
  intros Hn Hd. unfold em_unidades.
  destruct (Z.leb_spec 0 e) as [He | He]; cbn [fst snd]; split; try assumption.
  - apply Z.mul_pos_pos; [exact Hd |]. now apply Z.pow_pos_nonneg.
  - apply Z.mul_pos_pos; [exact Hn |]. apply Z.pow_pos_nonneg; lia.
Qed.

Lemma div_nearest_even_nonneg (a b : Z) :
  (0 <= a)%Z -> (0 < b)%Z -> (0 <= div_nearest_even a b)%Z.
Proof.
  intros Ha Hb. unfold div_nearest_even.
  pose proof (Z.div_pos a b Ha Hb) as Hq.
  destruct (2 * (a mod b) ?= b)%Z; [destruct (Z.even (a / b)) | |]; lia.
Qed.

Lemma nearest64_nonneg (n d : Z) :
  (0 < n)%Z -> (0 < d)%Z -> (0 <= nearest64 n d)%Q.
Proof.
  intros Hn Hd. unfold nearest64. rewrite Qred_correct.
  set (e := Z.max (expoente n d - 52) (- 1074)).
  destruct (em_unidades_pos n d e Hn Hd) as [Ha Hb].
  pose proof (div_nearest_even_nonneg _ _ (Z.lt_le_incl _ _ Ha) Hb) as Hm.
  destruct (0 <=? e)%Z eqn:E.
  - apply Z.leb_le in E.
    assert (Hp : (0 <= 2 ^ e)%Z) by now apply Z.pow_nonneg.
    unfold Qle. cbn [Qnum Qden inject_Z]. nia.
  - unfold Qle. cbn [Qnum Qden]. lia.
Qed.

(** A result that is not negative rounds to a double that is not
    negative. *)
Lemma round64_nonneg (q r : Q) :
  (0 <= q)%Q -> round64 q = Num r -> (0 <= r)%Q.
Proof.
  intros Hq. unfold round64.
  assert (Hr : (0 <= Qred q)%Q) by now rewrite Qred_correct.
  destruct (Qred q) as [rn rd]. cbn [Qnum Qden].
  destruct rn as [| n | n].
  - intros H. inversion H. apply Qle_refl.
  - destruct (Qle_bool limite (Z.pos n # rd)); [discriminate |].
    intros H. inversion H. now apply nearest64_nonneg.
  - exfalso. unfold Qle in Hr. cbn in Hr. lia.
Qed.

(** The doubles nearest to some exact results: a tenth and a third, a
    halfway case (to the even neighbour), the largest double and the
    first value that rounds to infinity, the smallest double and a value
    that rounds to zero. *)
Lemma round64_known_values :
  round64 (1 # 10) = Num (3602879701896397 # 36028797018963968) /\
  round64 (1 # 3) = Num (6004799503160661 # 18014398509481984) /\
  round64 (inject_Z (2 ^ 53 + 1)) = Num (inject_Z (2 ^ 53)) /\
  round64 (inject_Z (2 ^ 53 + 3)) = Num (inject_Z (2 ^ 53 + 4)) /\
  round64 dbl_max = Num dbl_max /\
  round64 (inject_Z (2 ^ 1024 - 2 ^ 970 - 1)) = Num dbl_max /\
  round64 limite = PInf /\
  round64 (1 # Z.to_pos (2 ^ 1074)) = Num (1 # Z.to_pos (2 ^ 1074)) /\
  round64 (1 # Z.to_pos (2 ^ 1075)) = Num 0.
Proof. vm_compute. repeat split. Qed.

(** C8 (as amended).  For a projected series with no entry +inf and at
    least one defined entry that is not negative, a finite population
    of the reference, and a greatest entry whose deaths figure fits the
    doubles, [resumir] returns a summary: the peak is the maximum of the
    series with NaN read as zero, so it is at least every defined entry;
    the index of the peak is the first row of the series whose value
    equals the peak; and the deaths at the peak are the double
    [peak * population / 100000] of line 247 (product and quotient each
    rounded to the nearest double) with the fraction dropped: rounded
    towards zero, which is rounded down for a population that is not
    negative. *)
Theorem resumir_peak :
  forall now proj popBR ref n pop,
    ~ In PInf proj ->
    (exists q, In (Num q) proj /\ (0 <= q)%Q) ->
    lookup popBR ref = Some (Num pop) ->
    (forall q, In (Num q) proj ->
               (forall q', In (Num q') proj -> (q' <= q)%Q) -> cabe q pop) ->
    exists inf m r1 r2,
      resumir now proj popBR ref n = inr inf /\
      pico inf = Num m /\
      In (Num m) (map nan_to_num proj) /\
      (forall x, In x proj -> fle (nan_to_num x) (Num m) = true) /\
      (forall q, In (Num q) proj -> (q <= m)%Q) /\
      index inf < length proj /\
      feqb (nth (index inf) proj NaN) (Num m) = true /\
      (forall j, j < index inf -> feqb (nth j proj NaN) (Num m) = false) /\
      round64 (m * pop) = Num r1 /\
      round64 (r1 / 100000) = Num r2 /\
      mortes_no_pico inf = Z.quot (Qnum r2) (Z.pos (Qden r2)) /\
      ((0 <= pop)%Q -> mortes_no_pico inf = Qfloor r2) /\
      dia_do_pico inf = (now + (Z.of_nat (index inf) - Z.of_nat n))%Z.
Proof.
  intros now proj popBR ref n pop Hinf (q0 & Hq0 & Hq0pos) Hpop Hcabe.
  assert (Hne : proj <> []) by (destruct proj; [contradiction | discriminate]).
  destruct (np_max_nan_to_num proj Hne) as (m & Hmax & Hin & Hub).
  assert (Hdef : forall q, In (Num q) proj -> (q <= m)%Q).
  { intros q Hq. apply fle_num. exact (Hub (Num q) Hq). }
  assert (Hm0 : (0 <= m)%Q) by (eapply Qle_trans; [exact Hq0pos | now apply Hdef]).
  assert (Hhit : exists a, In (Num a) proj /\ (a == m)%Q).
  { apply in_map_iff in Hin. destruct Hin as (x & Hx & Hxin).
    destruct x as [a | | |].
    - exists a. split; [exact Hxin |]. cbn in Hx. inversion Hx. reflexivity.
    - contradiction.
    - exfalso. cbn in Hx. inversion Hx as [Hm]. rewrite <- Hm in Hm0.
      apply Qle_bool_iff in Hm0. vm_compute in Hm0. discriminate Hm0.
    - cbn in Hx. inversion Hx; subst m.
      exists q0. split; [exact Hq0 |].
      apply Qle_antisym; [now apply Hdef | exact Hq0pos]. }
  destruct Hhit as (a & Hain & Ham).
  assert (Hx : feqb (Num a) (Num m) = true) by (cbn; now apply Qeq_bool_iff).
  destruct (first_index_exists (fun y => feqb y (Num m)) proj (Num a) Hain Hx)
    as [ix Hix].
  destruct (first_index_some _ _ _ NaN Hix) as (Hlt & Hat & Hbefore).
  destruct (Hcabe a Hain) as (r1' & r2' & Hr1' & Hr2').
  { intros q' Hq'. rewrite Ham. now apply Hdef. }
  assert (Hr1 : round64 (m * pop) = Num r1').
  { rewrite <- Hr1'. apply round64_Qeq. now rewrite Ham. }
  exists {| mortes_no_pico := Z.quot (Qnum r2') (Z.pos (Qden r2'));
            dia_do_pico := (now + (Z.of_nat ix - Z.of_nat n))%Z;
            pico := Num m; index := ix |}, m, r1', r2'.
  split.
  - unfold resumir. rewrite Hmax. cbn [bind]. unfold getitem. rewrite Hpop.
    cbn [bind ok fmul arred].
    rewrite (round64_Qeq (Qred (m * pop)) (m * pop)) by apply Qred_correct.
    rewrite Hr1. cbn [fdiv].
    change (Qeq_bool 100000 0) with false. cbn [arred].
    rewrite (round64_Qeq (Qred (r1' / 100000)) (r1' / 100000))
      by apply Qred_correct.
    rewrite Hr2'. cbn [py_int bind ok]. unfold list_index. rewrite Hix.
    reflexivity.
  - cbn [pico index mortes_no_pico dia_do_pico].
    repeat split; try assumption; eauto.
    intros Hpos.
    assert (H1 : (0 <= r1')%Q).
    { apply (round64_nonneg (m * pop)); [| exact Hr1].
      now apply Qmult_le_0_compat. }
    assert (H2 : (0 <= r2')%Q).
    { apply (round64_nonneg (r1' / 100000)); [| exact Hr2'].
      apply Qle_shift_div_l; [reflexivity |]. now rewrite Qmult_0_l. }
    unfold Qfloor. destruct r2' as [tn td]. cbn [Qnum Qden].
    apply Z.quot_div_nonneg; [| lia].
    unfold Qle in H2. cbn in H2. lia.
Qed.

(** [pearson2] is Pearson's r = sxy / sqrt (sxx * syy) on two
    observations: there sxy^2 = sxx * syy, so r is the sign of sxy. *)
Lemma pearson2_exact (a b c d : Q) :
  let x := [a; b] in
  let y := [c; d] in
  match pearson2 [Num a; Num b] [Num c; Num d] with
  | Num r =>
      ~ (sxy x x * sxy y y == 0)%Q /\
      (r * r * (sxy x x * sxy y y) == sxy x y * sxy x y)%Q /\
      ((0 < r)%Q <-> (0 < sxy x y)%Q)
  | NaN => (sxy x x * sxy y y == 0)%Q
  | _ => False
  end.
Proof.
  intros x y.
  assert (Hxy : (sxy x y == (b - a) * (d - c) / 2)%Q).
  { subst x y. unfold sxy, media, Qsum. simpl. field. }
  assert (Hxx : (sxy x x == (b - a) * (b - a) / 2)%Q).
  { subst x. unfold sxy, media, Qsum. simpl. field. }
  assert (Hyy : (sxy y y == (d - c) * (d - c) / 2)%Q).
  { subst y. unfold sxy, media, Qsum. simpl. field. }
  unfold pearson2.
  destruct ((b - a) * (d - c) ?= 0)%Q eqn:E.
  - apply Qeq_alt in E. rewrite Hxx, Hyy.
    setoid_replace ((b - a) * (b - a) / 2 * ((d - c) * (d - c) / 2))%Q
      with (((b - a) * (d - c)) * ((b - a) * (d - c)) / 4)%Q by field.
    rewrite E. reflexivity.
  - apply Qlt_alt in E. rewrite Hxx, Hyy, Hxy. split; [| split].
    + setoid_replace ((b - a) * (b - a) / 2 * ((d - c) * (d - c) / 2))%Q
        with (((b - a) * (d - c)) * ((b - a) * (d - c)) / 4)%Q by field.
      intros H0. 
      assert (Hz : (((b - a) * (d - c)) * ((b - a) * (d - c)) == 0)%Q).
      { setoid_replace (((b - a) * (d - c)) * ((b - a) * (d - c)))%Q
          with (4 * (((b - a) * (d - c)) * ((b - a) * (d - c)) / 4))%Q by field.
        rewrite H0. reflexivity. }
      apply Qmult_integral in Hz. destruct Hz as [Hz | Hz]; rewrite Hz in E; discriminate.
    + field.
    + split; [intros H0; discriminate H0 |].
      intros H0. exfalso.
      assert (H1 : (0 < (b - a) * (d - c))%Q).
      { setoid_replace ((b - a) * (d - c))%Q with (2 * ((b - a) * (d - c) / 2))%Q by field.
        apply Qmult_lt_0_compat; [reflexivity | exact H0]. }
      apply (Qlt_irrefl 0). eapply Qlt_trans; eauto.
  - apply Qgt_alt in E. rewrite Hxx, Hyy, Hxy. split; [| split].
    + setoid_replace ((b - a) * (b - a) / 2 * ((d - c) * (d - c) / 2))%Q
        with (((b - a) * (d - c)) * ((b - a) * (d - c)) / 4)%Q by field.
      intros H0.
      assert (Hz : (((b - a) * (d - c)) * ((b - a) * (d - c)) == 0)%Q).
      { setoid_replace (((b - a) * (d - c)) * ((b - a) * (d - c)))%Q
          with (4 * (((b - a) * (d - c)) * ((b - a) * (d - c)) / 4))%Q by field.
        rewrite H0. reflexivity. }
      apply Qmult_integral in Hz. destruct Hz as [Hz | Hz]; rewrite Hz in E; discriminate.
    + field.
    + split; [intros _ | intros _; reflexivity].
      apply Qlt_shift_div_l; [reflexivity |]. rewrite Qmult_0_l. exact E.
Qed.


Lemma finitos_map (xs : list Q) : finitos (map Num xs) = Some xs.
Proof.
  induction xs as [| x xs IH]; cbn [map finitos]; [reflexivity |].
  now rewrite IH.
Qed.

Lemma raiz_spec (q s : Q) : raiz q = Some s -> (s * s == q)%Q /\ (0 <= s)%Q.
Proof.
  unfold raiz. pose proof (Qred_correct q) as Hq.
  destruct (Qred q) as [rn rd]. cbn [Qnum Qden]. rewrite <- Hq. clear Hq.
  set (n := Z.sqrt rn). set (d := Z.sqrt (Z.pos rd)).
  destruct ((n * n =? rn)%Z && (d * d =? Z.pos rd)%Z) eqn:E; [| discriminate].
  apply andb_prop in E. destruct E as [En Ed].
  apply Z.eqb_eq in En. apply Z.eqb_eq in Ed.
  intros H. inversion H; subst s. clear H.
  assert (Hn : (0 <= n)%Z) by apply Z.sqrt_nonneg.
  assert (Hd : (0 < d)%Z).
  { pose proof (Z.sqrt_nonneg (Z.pos rd)) as H0. fold d in H0.
    destruct (Z.eq_dec d 0) as [E0 | ?]; [| lia]. rewrite E0 in Ed. discriminate. }
  assert (Hdd : Z.pos (Pos.sqrt rd * Pos.sqrt rd) = Z.pos rd) by exact Ed.
  clearbody n. split.
  - unfold Qeq, Qmult. cbn [Qnum Qden]. rewrite Hdd, En. ring.
  - unfold Qle. cbn [Qnum Qden]. lia.
Qed.

(** [pearson_q] is Pearson's r = sxy / sqrt (sxx * syy) where it gives a
    number: [r^2 * sxx * syy = sxy^2] and [r] has the sign of [sxy]. *)
Lemma pearson_q_exact (xs ys : list Q) (r : Q) :
  pearson_q (map Num xs) (map Num ys) = Num r ->
  length xs = length ys /\
  ~ (sxy xs xs * sxy ys ys == 0)%Q /\
  (r * r * (sxy xs xs * sxy ys ys) == sxy xs ys * sxy xs ys)%Q /\
  ((0 < r)%Q <-> (0 < sxy xs ys)%Q).
Proof.
  unfold pearson_q. rewrite !finitos_map.
  destruct (Nat.eqb_spec (length xs) (length ys)) as [Hl | _]; [| discriminate].
  destruct (raiz (sxy xs xs * sxy ys ys)) as [s |] eqn:Es; [| discriminate].
  apply raiz_spec in Es. destruct Es as [Hss Hs0].
  destruct (Qeq_bool s 0) eqn:Ez; [discriminate |].
  assert (Hs : ~ (s == 0)%Q).
  { intros H0. apply Qeq_bool_iff in H0. congruence. }
  assert (Hpos : (0 < s)%Q).
  { apply Qle_lteq in Hs0. destruct Hs0 as [? | H0]; [assumption |].
    exfalso. apply Hs. now symmetry. }
  intros H. inversion H as [Hr]. clear H.
  assert (Hrq : (Qred (sxy xs ys / s) == sxy xs ys / s)%Q) by apply Qred_correct.
  split; [exact Hl |]. split; [| split].
  - rewrite <- Hss. intros H0. apply Qmult_integral in H0. tauto.
  - rewrite Hrq, <- Hss. field. exact Hs.
  - rewrite Hrq. split; intros H0.
    + setoid_replace (sxy xs ys) with (sxy xs ys / s * s)%Q by (field; exact Hs).
      now apply Qmult_lt_0_compat.
    + apply Qlt_shift_div_l; [exact Hpos |]. now rewrite Qmult_0_l.
Qed.

(* ================================================================== *)
(** ** The target's own series *)

Lemma onset_below (p1 : float64) (col : list float64) (i : nat) :
  onset p1 col = inr i ->
  (forall x, In x col -> fge x p1 = false) -> i = 0.
Proof.
  intros H Hall. apply onset_inr in H. destruct H as (_ & _ & H0).
  apply H0. intros j Hj. apply Hall. now apply nth_In.
Qed.

(** C4 (as amended).  When no day of the target's raw series reaches
    [p1], nothing is raised on that account: the step of lines 97-99
    takes the target's onset to be day 0, and a run of [preparar_dados]
    that returns has the target's whole raw series times [p4] as its
    aligned series, with [nbr] the number of days of the raw table. *)
Theorem target_without_onset_keeps_whole_series :
  forall raw_csv pop sp p1 p4 col,
    lookup raw_csv "Brazil" = Some col ->
    (forall x, In x col -> fge (fillna0 x) p1 = false) ->
    (forall ini,
       inicio_de (map (fun kc => (fst kc, map fillna0 (snd kc))) raw_csv) p1
         = inr ini ->
       lookup ini "Brazil" = Some 0 /\
       base_brazil (map (fun kc => (fst kc, map fillna0 (snd kc))) raw_csv) ini p4
         = inr (scale p4 (map fillna0 col))) /\
    (forall pd,
       preparar_dados raw_csv pop sp p1 p4 = inr pd ->
       lookup (inicio pd) "Brazil" = Some 0 /\
       lookup (data pd) "Brazil" = Some (scale p4 (map fillna0 col)) /\
       nbr pd = length col).
Proof.
  intros raw_csv pop sp p1 p4 col Hcol Hbelow.
  set (raw0 := map (fun kc => (fst kc, map fillna0 (snd kc))) raw_csv).
  assert (Hraw : lookup raw0 "Brazil" = Some (map fillna0 col)).
  { subst raw0. rewrite lookup_map_fillna, Hcol. reflexivity. }
  assert (Hini : forall ini, inicio_de raw0 p1 = inr ini ->
                             lookup ini "Brazil" = Some 0).
  { intros ini Hi. pose proof (inicio_de_lookup _ _ _ Hi "Brazil") as Ho.
    rewrite Hraw in Ho. destruct Ho as (i & Hl & Ho).
    rewrite Hl. f_equal. eapply onset_below; [exact Ho |].
    intros x Hx. apply in_map_iff in Hx. destruct Hx as (y & <- & Hy). now apply Hbelow. }
  split.
  - intros ini Hi. split; [now apply Hini |].
    unfold base_brazil, getitem. rewrite Hraw, (Hini ini Hi). reflexivity.
  - intros pd Hpd.
    pose proof (preparar_dados_alinhado _ _ _ _ _ _ Hpd) as
      (cb & ib & Hcb & Hib & _ & Hn & Hbr & _).
    apply preparar_dados_inr in Hpd. destruct Hpd as (Hr & Hi & _).
    fold raw0 in Hr. rewrite Hr in *.
    rewrite Hraw in Hcb. inversion Hcb; subst cb.
    rewrite (Hini _ Hi) in Hib. inversion Hib; subst ib.
    split; [now apply Hini |]. split; [exact Hbr |].
    rewrite Hn, length_map. lia.
Qed.

(** The complement cut is the corrected series of the country minus the
    uncorrected daily series of the state, unless the raw table has a
    country of that name. *)
Lemma adicionar_pais_keeps raw0 pop ini n df k df' name :
  lookup raw0 name = None ->
  adicionar_pais raw0 pop ini n df k = inr df' ->
  lookup df' name = lookup df name.
Proof.
  intros Hnone H. apply adicionar_pais_inr in H.
  destruct H as [-> | (_ & col & ik & Hc & _ & _ & ->)]; [reflexivity |].
  apply lookup_setitem_neq. intros ->. congruence.
Qed.

Lemma brazil_sem_sp_value raw_csv pop sp p1 p4 pd :
  preparar_dados raw_csv pop sp p1 p4 = inr pd ->
  lookup (raw pd) "Brazil_sem_SP" = None ->
  exists col i,
    lookup (raw pd) "Brazil" = Some col /\
    lookup (inicio pd) "Brazil" = Some i /\
    lookup (data pd) "Brazil_sem_SP" =
      Some (map (fun x => fsub (fst x) (snd x))
              (combine (scale p4 (skipn i col))
                 (diarios (nbr pd)
                    (map deaths
                       (filter (fun r => (place_type r =? "state")%string) sp))))).
Proof.
  intros H Hnone.
  pose proof (preparar_dados_alinhado _ _ _ _ _ _ H) as
    (col & i & Hcol & Hi & _ & _ & _).
  apply preparar_dados_inr in H.
  destruct H as (_ & _ & _ & brazil & Hb & _ & Hfold & _).
  apply base_brazil_inr in Hb. destruct Hb as (col' & i' & Hcol' & Hi' & ->).
  rewrite Hcol in Hcol'. inversion Hcol'; subst col'.
  rewrite Hi in Hi'. inversion Hi'; subst i'.
  exists col, i. split; [exact Hcol |]. split; [exact Hi |].
  eapply (foldM_invariant _ (fun df => lookup df "Brazil_sem_SP" = _)); [| | exact Hfold].
  - intros s a s' Hs Ha. rewrite <- Hs. eapply adicionar_pais_keeps; eauto.
  - reflexivity.
Qed.

(** C2 (the code departs from it).  On the example tables the target has
    3 and 6 deaths on its two days and the state 1 and 1; with
    [p4 = 1.48] the complement cut of the program is
    [1.48 * 3 - 1, 1.48 * 6 - 1], not [1.48 * (3 - 1), 1.48 * (6 - 1)],
    while the country, state and city series are [p4] times their daily
    counts and the series of the other countries are not scaled. *)
Theorem complement_cut_subtracts_uncorrected_state :
  preparar_dados Exemplo.raw_csv Exemplo.pop Exemplo.sp Exemplo.p1 Exemplo.p4
    = inr Exemplo.pd /\
  lookup (data Exemplo.pd) "Brazil" = Some (scale Exemplo.p4 [Num 3; Num 6]) /\
  lookup (data Exemplo.pd) "SP" = Some (scale Exemplo.p4 [Num 1; Num 1]) /\
  lookup (data Exemplo.pd) "SP_City" = Some (scale Exemplo.p4 [Num 1; Num 0]) /\
  lookup (data Exemplo.pd) "Italy" = Some [Num 3; Num 6] /\
  lookup (data Exemplo.pd) "Brazil_sem_SP"
    = Some [Num (86 # 25); Num (197 # 25)] /\
  complemento_corrigido Exemplo.p4 [Num 3; Num 6] [Num 1; Num 1]
    = [Num (74 # 25); Num (37 # 5)] /\
  feqb (Num (86 # 25)) (Num (74 # 25)) = false /\
  feqb (Num (197 # 25)) (Num (37 # 5)) = false.
Proof. vm_compute. repeat split. Qed.

(* ================================================================== *)
(** ** Further facts about the runs *)

(** Every column of the aligned table has the target's [nbr] rows. *)
Lemma aligned_lengths raw_csv pop sp p1 p4 pd k c :
  preparar_dados raw_csv pop sp p1 p4 = inr pd ->
  lookup (data pd) k = Some c ->
  length c = nbr pd.
Proof.
  intros H Hk. apply preparar_dados_inr in H.
  destruct H as (_ & _ & _ & brazil & _ & _ & _ & Hall & _).
  eapply lookup_lengths; eauto.
Qed.

(** A series that is undefined throughout has no summary. *)
Lemma resumir_all_nan now proj popBR ref n :
  Forall (fun x => x = NaN) proj ->
  exists e, resumir now proj popBR ref n = inl e.
Proof.
  intros Hall. unfold resumir.
  destruct proj as [| x proj]; [simpl; eauto |].
  destruct (np_max_nan_to_num (x :: proj)) as (m & Hmax & Hin & _); [discriminate |].
  rewrite Hmax. cbn [bind].
  assert (Hm : Num m = Num 0).
  { apply in_map_iff in Hin. destruct Hin as (y & Hy & Hyin).
    rewrite Forall_forall in Hall. rewrite (Hall y Hyin) in Hy. now rewrite <- Hy. }
  rewrite Hm.
  destruct (getitem popBR ref) as [e | pop]; cbn [bind]; [eauto |].
  destruct (py_int _) as [e | d]; cbn [bind]; [eauto |].
  unfold list_index.
  destruct (first_index (fun y => feqb y (Num 0)) (x :: proj)) as [i |] eqn:Ei.
  - destruct (first_index_some _ _ _ NaN Ei) as (Hlt & Hat & _).
    rewrite Forall_forall in Hall.
    rewrite (Hall (nth i (x :: proj) NaN)) in Hat by (now apply nth_In).
    discriminate.
  - exists ValueError. reflexivity.
Qed.

(** X15.  With fewer days of data than the smoothing window,
    [rodar_modelo] returns nothing: whatever the reference, the
    comparators and the clock, it raises. *)
Lemma short_series_run_raises corr tie now raw_csv pop sp p1 p4 pd p2 p3 ref :
  preparar_dados raw_csv pop sp p1 p4 = inr pd ->
  (Z.of_nat (nbr pd) < p3)%Z ->
  exists e, rodar_modelo corr tie now pd p2 p3 ref = inl e.
Proof.
  intros Hpd Hlt. unfold rodar_modelo.
  destruct (pearson_col corr (data pd) ref) as [e | pr]; cbn [bind]; [eauto |].
  destruct (calibrar pd (selecionar tie pr p2) p3 ref) as [e | cal] eqn:Hcal;
    cbn [bind]; [eauto |].
  destruct (pesos_de pr (selecionar tie pr p2)) as [e | pesos]; cbn [bind]; [eauto |].
  destruct (projetar cal pesos (selecionar tie pr p2) ref (nbr pd)) as [e | proj] eqn:Hproj;
    cbn [bind]; [eauto |].
  destruct (calibrar_short_seam _ _ _ _ _ _ _ _ _ _ Hpd Hcal Hlt)
    as (r & Href & _ & Hseam).
  destruct (projetar_nan_seam _ _ _ _ _ _ _ Href Hseam Hproj) as [_ Hall].
  destruct (resumir_all_nan now proj (popuBR pd) ref (nbr pd) Hall) as [e He].
  rewrite He. cbn [bind]. eauto.
Qed.

(** A projected series with a defined entry needs a target with at least
    as many days as the smoothing window. *)
Lemma defined_projection_needs_full_window
  raw_csv pop sp p1 p4 pd cs p3 ref cal pesos proj x :
  preparar_dados raw_csv pop sp p1 p4 = inr pd ->
  calibrar pd cs p3 ref = inr cal ->
  projetar cal pesos cs ref (nbr pd) = inr proj ->
  In x proj -> isnan x = false ->
  (p3 <= Z.of_nat (nbr pd))%Z.
Proof.
  intros Hpd Hcal Hproj Hin Hx.
  destruct (Z.le_gt_cases p3 (Z.of_nat (nbr pd))) as [Hle | Hlt]; [exact Hle |].
  exfalso.
  destruct (calibrar_short_seam _ _ _ _ _ _ _ _ _ _ Hpd Hcal Hlt)
    as (r & Href & _ & Hseam).
  destruct (projetar_nan_seam _ _ _ _ _ _ _ Href Hseam Hproj) as [_ Hall].
  rewrite Forall_forall in Hall. rewrite (Hall x Hin) in Hx. discriminate.
Qed.

(** ** Where the summary fails *)

Lemma round64_zero (q : Q) : (q == 0)%Q -> round64 q = Num 0.
Proof. intros H. now rewrite (round64_Qeq q 0 H). Qed.

Lemma round64_overflow (q : Q) : (limite <= q)%Q -> round64 q = PInf.
Proof.
  intros H. unfold round64.
  assert (Hl : (0 < limite)%Q) by (apply Qlt_alt; vm_compute; reflexivity).
  assert (Hr : (limite <= Qred q)%Q) by now rewrite Qred_correct.
  assert (H0 : (0 < Qred q)%Q) by (eapply Qlt_le_trans; eauto).
  apply Qle_bool_iff in Hr. revert Hr H0.
  destruct (Qred q) as [rn rd]. cbn [Qnum Qden].
  destruct rn as [| n | n]; intros Hr H0.
  - exfalso. unfold Qlt in H0. cbn in H0. lia.
  - now rewrite Hr.
  - exfalso. unfold Qlt in H0. cbn in H0. lia.
Qed.

(** X22.  A projected series that is undefined throughout has no
    summary: [resumir] raises ValueError, for every population of the
    reference (the maximum with NaN read as zero is 0, and no row of the
    series equals it). *)
Theorem undefined_series_has_no_summary :
  forall now proj popBR ref n pop,
    Forall (fun x => x = NaN) proj ->
    lookup popBR ref = Some pop ->
    resumir now proj popBR ref n = inl ValueError.
Proof.
  intros now proj popBR ref n pop Hall Hpop. unfold resumir.
  destruct proj as [| x proj]; [reflexivity |].
  destruct (np_max_nan_to_num (x :: proj)) as (m & Hmax & Hin & _);
    [discriminate |].
  rewrite Hmax. cbn [bind].
  assert (Hm : Num m = Num 0).
  { apply in_map_iff in Hin. destruct Hin as (y & Hy & Hyin).
    rewrite Forall_forall in Hall. rewrite (Hall y Hyin) in Hy.
    now rewrite <- Hy. }
  rewrite Hm. unfold getitem. rewrite Hpop. cbn [bind ok].
  destruct pop as [p | | |]; try reflexivity.
  cbn [fmul arred]. rewrite (round64_zero (Qred (0 * p)))
    by (rewrite Qred_correct; ring).
  assert (Hz : py_int (arred (fdiv (Num 0) (Num 100000))) = ok 0%Z)
    by (vm_compute; reflexivity).
  rewrite Hz.
  cbn [bind ok]. unfold list_index.
  destruct (first_index (fun y => feqb y (Num 0)) (x :: proj)) as [i |] eqn:Ei;
    [| reflexivity].
  destruct (first_index_some _ _ _ NaN Ei) as (Hlt & Hat & _).
  rewrite Forall_forall in Hall.
  rewrite (Hall (nth i (x :: proj) NaN)) in Hat by (now apply nth_In).
  discriminate.
Qed.

Lemma undefined_series_has_no_summary_witness :
  Forall (fun x => x = NaN) [NaN; NaN; NaN; NaN] /\
  lookup (popuBR Exemplo.pd) "Brazil" = Some (Num 200000) /\
  resumir 100 [NaN; NaN; NaN; NaN] (popuBR Exemplo.pd) "Brazil" 2
    = inl ValueError.
Proof.
  assert (H1 : Forall (fun x => x = NaN) [NaN; NaN; NaN; NaN])
    by (repeat constructor).
  assert (H2 : lookup (popuBR Exemplo.pd) "Brazil" = Some (Num 200000))
    by reflexivity.
  split; [exact H1 |]. split; [exact H2 |].
  exact (undefined_series_has_no_summary 100 _ _ "Brazil" 2 _ H1 H2).
Defined.

(** X24.  An entry +inf in the projected series, with a population of
    the reference of 2 or more, makes [resumir] raise OverflowError:
    the peak is the largest double, its product with the population is
    beyond the doubles, and [int] refuses the infinity of line 247. *)
Theorem infinite_entry_overflows_the_deaths :
  forall now proj popBR ref n pop,
    In PInf proj ->
    lookup popBR ref = Some (Num pop) ->
    (2 <= pop)%Q ->
    resumir now proj popBR ref n = inl OverflowError.
Proof.
  intros now proj popBR ref n pop Hin Hpop Hp. unfold resumir.
  assert (Hne : proj <> []) by (destruct proj; [contradiction | discriminate]).
  destruct (np_max_nan_to_num proj Hne) as (m & Hmax & _ & Hub).
  rewrite Hmax. cbn [bind]. unfold getitem. rewrite Hpop. cbn [bind ok].
  assert (Hm : (dbl_max <= m)%Q).
  { apply fle_num. exact (Hub PInf Hin). }
  assert (Hd : (0 <= dbl_max)%Q) by (apply Qle_bool_iff; vm_compute; reflexivity).
  assert (Hbig : (limite <= Qred (m * pop))%Q).
  { rewrite Qred_correct.
    apply Qle_trans with (dbl_max * 2)%Q;
      [apply Qle_bool_iff; vm_compute; reflexivity |].
    apply Qle_trans with (dbl_max * pop)%Q.
    - rewrite !(Qmult_comm dbl_max).
      apply Qmult_le_compat_r; [exact Hp | exact Hd].
    - apply Qmult_le_compat_r; [exact Hm |].
      apply Qle_trans with 2%Q; [discriminate | exact Hp]. }
  cbn [fmul arred]. rewrite (round64_overflow _ Hbig). reflexivity.
Qed.

Lemma infinite_entry_overflows_the_deaths_witness :
  In PInf [NaN; Num (111 # 25); PInf] /\
  lookup (popuBR Exemplo.pd) "Brazil" = Some (Num 200000) /\
  (2 <= 200000)%Q /\
  resumir 100 [NaN; Num (111 # 25); PInf] (popuBR Exemplo.pd) "Brazil" 2
    = inl OverflowError.
Proof.
  assert (H1 : In PInf [NaN; Num (111 # 25); PInf]) by (cbn; tauto).
  assert (H2 : lookup (popuBR Exemplo.pd) "Brazil" = Some (Num 200000))
    by reflexivity.
  assert (H3 : (2 <= 200000)%Q) by discriminate.
  split; [exact H1 |]. split; [exact H2 |]. split; [exact H3 |].
  exact (infinite_entry_overflows_the_deaths 100 _ _ "Brazil" 2 _ H1 H2 H3).
Defined.

(* ================================================================== *)
(** ** The statements on the example tables *)

(** Italy has its first day of 3 deaths on day 1. *)
Lemma onset_is_first_daily_reach_witness :
  preparar_dados Exemplo.raw_csv Exemplo.pop Exemplo.sp Exemplo.p1 Exemplo.p4
    = inr Exemplo.pd /\
  lookup (raw Exemplo.pd) "Italy" = Some [Num 0; Num 3; Num 6; Num 0; Num 5] /\
  exists i, lookup (inicio Exemplo.pd) "Italy" = Some i /\ i < 5.
Proof.
  assert (Hpd : preparar_dados Exemplo.raw_csv Exemplo.pop Exemplo.sp Exemplo.p1
                  Exemplo.p4 = inr Exemplo.pd) by (vm_compute; reflexivity).
  split; [exact Hpd |]. split; [reflexivity |].
  destruct (onset_is_first_daily_reach _ _ _ _ _ _ "Italy"
              [Num 0; Num 3; Num 6; Num 0; Num 5] Hpd eq_refl)
    as (i & Hi & Hlt & _).
  exists i. split; [exact Hi | exact Hlt].
Defined.

(** C1, the counterexample.  The target's running total reaches 3 on day
    2, and the program starts its series on day 3, the first day with 3
    deaths; Chile's running total reaches 3 on day 2 and no day of Chile
    has 3 deaths, and the program gives it the index 0. *)
Lemma onset_is_not_cumulative :
  preparar_dados Exemplo.raw_csv Exemplo.pop Exemplo.sp Exemplo.p1 Exemplo.p4
    = inr Exemplo.pd /\
  lookup (raw Exemplo.pd) "Brazil" = Some [Num 1; Num 0; Num 2; Num 3; Num 6] /\
  lookup (inicio Exemplo.pd) "Brazil" = Some 3 /\
  onset_acumulado Exemplo.p1 [Num 1; Num 0; Num 2; Num 3; Num 6] = Some 2 /\
  lookup (raw Exemplo.pd) "Chile" = Some [Num 1; Num 1; Num 1; Num 1; Num 1] /\
  lookup (inicio Exemplo.pd) "Chile" = Some 0 /\
  onset_acumulado Exemplo.p1 [Num 1; Num 1; Num 1; Num 1; Num 1] = Some 2 /\
  existsb (fun x => fge x Exemplo.p1) [Num 1; Num 1; Num 1; Num 1; Num 1] = false.
Proof. vm_compute. repeat split. Qed.

Lemma neutral_multiplier_on_missing_day_witness :
  lookup Exemplo.calibrados "Brazil"
    = Some [Num (111 # 50); Num (111 # 25); NaN; NaN] /\
  1 <= 2 <= 4 /\
  exists proj,
    projetar Exemplo.calibrados Exemplo.pesos ["Italy"] "Brazil" 2 = inr proj /\
    length proj = 4.
Proof.
  assert (Hn : 1 <= 2 <= 4) by lia.
  split; [reflexivity |]. split; [exact Hn |].
  destruct (neutral_multiplier_on_missing_day Exemplo.calibrados Exemplo.pesos
              ["Italy"] "Brazil" 2 [Num (111 # 50); Num (111 # 25); NaN; NaN]
              eq_refl Hn)
    as (proj & Hp & Hl & _).
  exists proj. split; [exact Hp | exact Hl].
Defined.

(** C3, the counterexample.  Italy's calibrated value is 0 on day 2 and 5
    on day 3, so on day 3 the program divides 5 by 0: Italy's share of
    the multiplier is +inf where the neutral multiplier would give 1, and
    the projected value of day 3 is [0 * inf], NaN. *)
Lemma zero_previous_day_gives_infinite_ratio :
  rodar_modelo pearson2 ordem_da_tabela 100 Exemplo.pd 1 1 "Brazil"
    = inr (["Italy"], Exemplo.calibrados, Exemplo.projetado, Exemplo.resumo) /\
  (exists pr, pearson_col pearson2 (data Exemplo.pd) "Brazil" = inr pr /\
              pesos_de pr ["Italy"] = inr Exemplo.pesos) /\
  cell Exemplo.calibrados "Italy" 2 = Num 0 /\
  cell Exemplo.calibrados "Italy" 3 = Num 5 /\
  parcela Exemplo.calibrados Exemplo.pesos 3 "Italy" = PInf /\
  parcela_neutra Exemplo.calibrados Exemplo.pesos 3 "Italy" = Num 1 /\
  nth_error Exemplo.projetado 2 = Some (Num 0) /\
  nth_error Exemplo.projetado 3 = Some NaN.
Proof.
  split; [vm_compute; reflexivity |].
  split; [eexists; split; vm_compute; reflexivity |].
  vm_compute. repeat split.
Qed.

Lemma target_without_onset_keeps_whole_series_witness :
  lookup Exemplo.raw_baixo "Brazil" = Some [Num 0; Num 1; Num 2] /\
  (forall x, In x [Num 0; Num 1; Num 2] -> fge (fillna0 x) Exemplo.p1 = false) /\
  lookup (inicio Exemplo.pd_baixo) "Brazil" = Some 0 /\
  nbr Exemplo.pd_baixo = 3.
Proof.
  assert (Hb : forall x, In x [Num 0; Num 1; Num 2] ->
                         fge (fillna0 x) Exemplo.p1 = false).
  { intros x [<- | [<- | [<- | []]]]; reflexivity. }
  split; [reflexivity |]. split; [exact Hb |].
  destruct (target_without_onset_keeps_whole_series Exemplo.raw_baixo Exemplo.pop
              Exemplo.sp_baixo Exemplo.p1 Exemplo.p4 [Num 0; Num 1; Num 2]
              eq_refl Hb) as [_ Hpd].
  destruct (Hpd Exemplo.pd_baixo) as (Hi & _ & Hn); [vm_compute; reflexivity |].
  split; [exact Hi | exact Hn].
Defined.

(** C4, the counterexample.  No day of the target has 3 deaths; the
    program raises nothing, aligns the target's whole series and
    projects from it. *)
Lemma target_without_onset_is_not_refused :
  existsb (fun x => fge x Exemplo.p1) [Num 0; Num 1; Num 2] = false /\
  preparar_dados Exemplo.raw_baixo Exemplo.pop Exemplo.sp_baixo Exemplo.p1
    Exemplo.p4 = inr Exemplo.pd_baixo /\
  lookup (raw Exemplo.pd_baixo) "Brazil" = Some [Num 0; Num 1; Num 2] /\
  lookup (data Exemplo.pd_baixo) "Brazil"
    = Some [Num 0; Num (37 # 25); Num (74 # 25)] /\
  nbr Exemplo.pd_baixo = 3 /\
  rodar_modelo pearson2 ordem_da_tabela 100 Exemplo.pd_baixo 5 1 "Brazil"
    = inr ([], [("Brazil", [Num 0; Num (37 # 50); Num (37 # 25)])],
           [NaN; NaN; Num (37 # 25)],
           {| mortes_no_pico := 2; dia_do_pico := 99;
              pico := Num (37 # 25); index := 2 |}).
Proof. vm_compute. repeat split. Qed.

Lemma seam_continuity_witness :
  rodar_modelo pearson2 ordem_da_tabela 100 Exemplo.pd 1 1 "Brazil"
    = inr (["Italy"], Exemplo.calibrados, Exemplo.projetado, Exemplo.resumo) /\
  exists r, lookup Exemplo.calibrados "Brazil" = Some r /\
            nth_error Exemplo.projetado (nbr Exemplo.pd - 1)
              = nth_error r (nbr Exemplo.pd - 1).
Proof.
  assert (Hrun : rodar_modelo pearson2 ordem_da_tabela 100 Exemplo.pd 1 1 "Brazil"
                 = inr (["Italy"], Exemplo.calibrados, Exemplo.projetado,
                        Exemplo.resumo)) by (vm_compute; reflexivity).
  split; [exact Hrun |].
  destruct (seam_continuity pearson2 ordem_da_tabela 100 Exemplo.pd 1 1 "Brazil" _ _ _ _ Hrun)
    as (r & Hr & _ & _ & Hs & _).
  exists r. split; [exact Hr | exact Hs].
Defined.

Lemma nonnegative_coefficients_give_normalised_weights_witness :
  mapM (getitem [("Italy", Num 1); ("Spain", Num (1 # 2))]) ["Italy"; "Spain"]
    = inr (map Num [1%Q; (1 # 2)%Q]) /\
  (forall q, In q [1%Q; (1 # 2)%Q] -> (0 <= q)%Q) /\
  (exists q, In q [1%Q; (1 # 2)%Q] /\ (0 < q)%Q) /\
  exists ws,
    pesos_de [("Italy", Num 1); ("Spain", Num (1 # 2))] ["Italy"; "Spain"]
      = inr (combine ["Italy"; "Spain"] (map Num ws)) /\
    (Qsum ws == 1)%Q.
Proof.
  assert (H1 : forall q, In q [1%Q; (1 # 2)%Q] -> (0 <= q)%Q).
  { intros q [<- | [<- | []]]; discriminate. }
  assert (H2 : exists q, In q [1%Q; (1 # 2)%Q] /\ (0 < q)%Q).
  { exists 1%Q. split; [now left | reflexivity]. }
  split; [reflexivity |]. split; [exact H1 |]. split; [exact H2 |].
  destruct (nonnegative_coefficients_give_normalised_weights
              [("Italy", Num 1); ("Spain", Num (1 # 2))]
              ["Italy"; "Spain"] [1%Q; (1 # 2)%Q] eq_refl H1 H2)
    as (ws & Hp & _ & _ & Hsum & _).
  exists ws. split; [exact Hp | exact Hsum].
Defined.


(** C6 (the code departs from it).  On the tables of [Exemplo3], with
    the whole country as reference and three comparators, the
    coefficients of the comparators are 1/2 (Italy), -1/2 (Spain) and
    -1 (France).  They add up to -1 and line 218 divides by that sum:
    Italy, the region that follows the target best, has the weight
    -1/2, the least of the three, and France, which moves against the
    target, has the greatest, 1.  The weights add up to 1, but one of
    them is negative, and the projected value of the next day is
    negative.  No two of the three coefficients are equal: the result
    is the same for every order the sort leaves among equal
    coefficients. *)
Theorem best_comparator_gets_negative_weight :
  forall tie,
    preparar_dados Exemplo3.raw_csv Exemplo.pop Exemplo3.sp Exemplo.p1
      Exemplo.p4 = inr Exemplo3.pd /\
    pearson_col pearson_q (data Exemplo3.pd) "Brazil"
      = inr Exemplo3.pearson_ref /\
    lookup Exemplo3.pearson_ref "Italy" = Some (Num (1 # 2)) /\
    lookup Exemplo3.pearson_ref "Spain" = Some (Num (- 1 # 2)) /\
    lookup Exemplo3.pearson_ref "France" = Some (Num (- 1)) /\
    selecionar tie Exemplo3.pearson_ref 3 = ["Italy"; "Spain"; "France"] /\
    pesos_de Exemplo3.pearson_ref ["Italy"; "Spain"; "France"]
      = inr [("Italy", Num (- 1 # 2)); ("Spain", Num (1 # 2));
             ("France", Num 1)] /\
    fle (Num 0) (Num (- 1 # 2)) = false /\
    fle (Num (1 # 2)) (Num (- 1 # 2)) = false /\
    rodar_modelo pearson_q tie 100 Exemplo3.pd 3 1 "Brazil"
      = inr (["Italy"; "Spain"; "France"],
             [("Brazil", [Num (111 # 50); Num (111 # 25); Num (333 # 50); NaN]);
              ("Italy", [Num 4; Num 3; Num 5; Num 7]);
              ("Spain", [Num 5; Num 3; Num 4; Num 2]);
              ("France", [Num 5; Num 4; Num 3; Num 1])],
             [NaN; NaN; Num (333 # 50); Num (- 777 # 1000)],
             {| mortes_no_pico := 13; dia_do_pico := 99;
                pico := Num (333 # 50); index := 2 |}).
Proof.
  intros tie.
  assert (Hsel : selecionar tie Exemplo3.pearson_ref 3
                 = ["Italy"; "Spain"; "France"]).
  { cbv.
    repeat (match goal with
            | |- context [tie ?a ?b] => destruct (tie a b); cbv
            end);
      reflexivity. }
  assert (Hpr : pearson_col pearson_q (data Exemplo3.pd) "Brazil"
                = inr Exemplo3.pearson_ref) by (vm_compute; reflexivity).
  split; [vm_compute; reflexivity |]. split; [exact Hpr |].
  do 3 (split; [reflexivity |]).
  split; [exact Hsel |].
  split; [vm_compute; reflexivity |].
  do 2 (split; [reflexivity |]).
  unfold rodar_modelo. rewrite Hpr. cbn [bind]. rewrite Hsel.
  vm_compute. reflexivity.
Qed.

Lemma resumir_peak_witness :
  ~ In PInf Exemplo.projetado /\
  (exists q, In (Num q) Exemplo.projetado /\ (0 <= q)%Q) /\
  lookup (popuBR Exemplo.pd) "Brazil" = Some (Num 200000) /\
  (forall q, In (Num q) Exemplo.projetado ->
             (forall q', In (Num q') Exemplo.projetado -> (q' <= q)%Q) ->
             cabe q 200000) /\
  exists inf,
    resumir 100 Exemplo.projetado (popuBR Exemplo.pd) "Brazil" 2 = inr inf /\
    index inf < 4.
Proof.
  assert (H1 : ~ In PInf Exemplo.projetado).
  { intros [H | [H | [H | [H | []]]]]; discriminate H. }
  assert (H2 : exists q, In (Num q) Exemplo.projetado /\ (0 <= q)%Q).
  { exists 0%Q. split; [right; right; now left | discriminate]. }
  assert (H3 : forall q, In (Num q) Exemplo.projetado ->
             (forall q', In (Num q') Exemplo.projetado -> (q' <= q)%Q) ->
             cabe q 200000).
  { intros q [H | [H | [H | [H | []]]]] _; try discriminate H;
      inversion H; subst q; unfold cabe.
    - exists 888000%Q, (4998995586381251 # 562949953421312)%Q.
      split; vm_compute; reflexivity.
    - exists 0%Q, 0%Q. split; vm_compute; reflexivity. }
  split; [exact H1 |]. split; [exact H2 |]. split; [reflexivity |].
  split; [exact H3 |].
  destruct (resumir_peak 100 Exemplo.projetado (popuBR Exemplo.pd) "Brazil" 2
              200000 H1 H2 eq_refl H3)
    as (inf & m & r1 & r2 & Hr & _ & _ & _ & _ & Hi & _).
  exists inf. split; [exact Hr | exact Hi].
Defined.

(** C8, the counterexample.  In the run of the example the peak is 4.44
    deaths per 100 thousand and the population of the reference 200
    thousand: peak times population over 100000 is 8.88, whose nearest
    integer is 9, and the program reports 8 deaths, the integer part. *)
Lemma deaths_at_peak_are_truncated :
  rodar_modelo pearson2 ordem_da_tabela 100 Exemplo.pd 1 1 "Brazil"
    = inr (["Italy"], Exemplo.calibrados, Exemplo.projetado, Exemplo.resumo) /\
  resumir 100 Exemplo.projetado (popuBR Exemplo.pd) "Brazil" 2
    = inr Exemplo.resumo /\
  pico Exemplo.resumo = Num (111 # 25) /\
  lookup (popuBR Exemplo.pd) "Brazil" = Some (Num 200000) /\
  ((111 # 25) * 200000 / 100000 == 888 # 100)%Q /\
  Qfloor ((888 # 100) + (1 # 2)) = 9%Z /\
  mortes_no_pico Exemplo.resumo = 8%Z.
Proof.
  split; [vm_compute; reflexivity |]. split; [vm_compute; reflexivity |].
  vm_compute. repeat split.
Qed.

(** C9, the counterexample.  The same tables on two consecutive days
    give two summaries: the date of the peak moves with the day of the
    run. *)
Lemma peak_date_follows_the_clock :
  rodar_modelo pearson2 ordem_da_tabela 100 Exemplo.pd 1 1 "Brazil"
    = inr (["Italy"], Exemplo.calibrados, Exemplo.projetado, Exemplo.resumo) /\
  rodar_modelo pearson2 ordem_da_tabela 101 Exemplo.pd 1 1 "Brazil"
    = inr (["Italy"], Exemplo.calibrados, Exemplo.projetado,
           {| mortes_no_pico := 8; dia_do_pico := 100;
              pico := Num (111 # 25); index := 1 |}) /\
  pipeline pearson2 ordem_da_tabela 100 Exemplo.raw_csv Exemplo.pop Exemplo.sp Exemplo.p1
    Exemplo.p4 1 1 "Brazil"
  <> pipeline pearson2 ordem_da_tabela 101 Exemplo.raw_csv Exemplo.pop Exemplo.sp Exemplo.p1
       Exemplo.p4 1 1 "Brazil".
Proof.
  split; [vm_compute; reflexivity |]. split; [vm_compute; reflexivity |].
  vm_compute. intros H. discriminate H.
Qed.

Lemma short_series_projection_undefined_witness :
  preparar_dados Exemplo.raw_csv Exemplo.pop Exemplo.sp Exemplo.p1 Exemplo.p4
    = inr Exemplo.pd /\
  calibrar Exemplo.pd ["Italy"] 7 "Brazil" = inr Exemplo.calibrados7 /\
  (Z.of_nat (nbr Exemplo.pd) < 7)%Z /\
  exists proj,
    projetar Exemplo.calibrados7 Exemplo.pesos ["Italy"] "Brazil"
      (nbr Exemplo.pd) = inr proj /\
    forall x, In x proj -> x = NaN.
Proof.
  assert (Hc : calibrar Exemplo.pd ["Italy"] 7 "Brazil" = inr Exemplo.calibrados7)
    by (vm_compute; reflexivity).
  assert (Hlt : (Z.of_nat (nbr Exemplo.pd) < 7)%Z) by reflexivity.
  assert (Hpd : preparar_dados Exemplo.raw_csv Exemplo.pop Exemplo.sp Exemplo.p1
                  Exemplo.p4 = inr Exemplo.pd) by (vm_compute; reflexivity).
  split; [exact Hpd |]. split; [exact Hc |]. split; [exact Hlt |].
  destruct (short_series_projection_undefined _ _ _ _ _ _ ["Italy"] 7 "Brazil"
              Exemplo.calibrados7 Exemplo.pesos Hpd Hc Hlt)
    as (r & proj & _ & _ & Hp & _ & _ & Hall).
  exists proj. split; [exact Hp | exact Hall].
Defined.

(* ================================================================== *)
(** * Further properties of the code *)

(** ** The aligned table *)

Lemma lookup_keys {V : Type} (s : series V) (k : string) :
  In k (keys s) <-> exists v, lookup s k = Some v.
Proof.
  induction s as [| [k0 v0] s IH]; simpl.
  - split; [contradiction | intros [v H]; discriminate].
  - destruct (k0 =? k)%string eqn:E.
    + apply String.eqb_eq in E. split; eauto.
    + apply String.eqb_neq in E. rewrite IH. split; [intros [? | ?]; tauto | auto].
Qed.

(** One turn of the loop of lines 122-127 stores a country only when it
    has a population, its onset is not day 0 and is not after the
    target's. *)
Lemma adicionar_pais_cases raw0 pop ini n df k df' :
  adicionar_pais raw0 pop ini n df k = inr df' ->
  df' = df \/
  (k <> "Brazil" /\ mem k (keys pop) = true /\
   exists col ik ibr,
     lookup raw0 k = Some col /\ lookup ini k = Some ik /\
     lookup ini "Brazil" = Some ibr /\ ik <> 0 /\ ik <= ibr /\
     df' = setitem df k (firstn n (skipn ik col))).
Proof.
  unfold adicionar_pais.
  destruct (k =? "Brazil")%string eqn:Ek; [intros H; inversion H; auto |].
  destruct (mem k (keys pop)) eqn:Em; cbn [negb]; [| intros H; inversion H; auto].
  intros H. inv_bind H. inv_bind H.
  destruct (Nat.eqb_spec v 0) as [Hz | Hz]; cbn [orb] in H; [inversion H; auto |].
  destruct (Nat.ltb_spec v0 v) as [Hlt | Hle]; [inversion H; auto |].
  inv_bind H. apply assign_inr in H. destruct H as [_ ->].
  right. split; [now apply String.eqb_neq |]. split; [reflexivity |].
  apply getitem_inr in E, E0, E1. exists v1, v, v0. repeat split; assumption.
Qed.

(** A country that qualifies is stored by its turn of the loop. *)
Lemma adicionar_pais_stores raw0 pop ini n df k df' ik ibr :
  adicionar_pais raw0 pop ini n df k = inr df' ->
  k <> "Brazil" -> mem k (keys pop) = true ->
  lookup ini k = Some ik -> lookup ini "Brazil" = Some ibr ->
  ik <> 0 -> ik <= ibr ->
  exists c, lookup df' k = Some c.
Proof.
  unfold adicionar_pais. intros H Hk Hm Hik Hibr Hz Hle.
  apply String.eqb_neq in Hk. rewrite Hk, Hm in H. cbn [negb] in H.
  unfold getitem in H at 1 2. rewrite Hik, Hibr in H. cbn [bind ok] in H.
  destruct (Nat.eqb_spec ik 0) as [? | _]; [contradiction |].
  destruct (Nat.ltb_spec ibr ik) as [? | _]; [lia |].
  cbn [orb] in H. inv_bind H. apply assign_inr in H. destruct H as [_ ->].
  rewrite lookup_setitem_eq. eauto.
Qed.

Lemma adicionar_pais_keeps_present raw0 pop ini n df k df' name c :
  adicionar_pais raw0 pop ini n df k = inr df' ->
  lookup df name = Some c -> exists c', lookup df' name = Some c'.
Proof.
  intros H Hc. apply adicionar_pais_inr in H.
  destruct H as [-> | (_ & col & ik & _ & _ & _ & ->)]; [eauto |].
  destruct (string_dec k name) as [<- | Hne].
  - rewrite lookup_setitem_eq. eauto.
  - rewrite lookup_setitem_neq by assumption. eauto.
Qed.

Lemma foldM_adicionar_stores raw0 pop ini n ks df df' k ik ibr :
  foldM (adicionar_pais raw0 pop ini n) ks df = inr df' ->
  In k ks ->
  k <> "Brazil" -> mem k (keys pop) = true ->
  lookup ini k = Some ik -> lookup ini "Brazil" = Some ibr ->
  ik <> 0 -> ik <= ibr ->
  exists c, lookup df' k = Some c.
Proof.
  intros H Hin Hk Hm Hik Hibr Hz Hle. revert df H Hin.
  induction ks as [| a ks IH]; intros df H Hin; [contradiction |].
  simpl in H. inv_bind H.
  destruct (string_dec a k) as [-> | Hne].
  - destruct (adicionar_pais_stores _ _ _ _ _ _ _ _ _ E Hk Hm Hik Hibr Hz Hle)
      as [c Hc].
    clear IH E Hin. revert v c Hc H.
    induction ks as [| b ks IH]; intros v c Hc H; simpl in H.
    + inversion H; subst. eauto.
    + inv_bind H.
      destruct (adicionar_pais_keeps_present _ _ _ _ _ _ _ _ _ E Hc) as [c' Hc'].
      eapply IH; eauto.
  - destruct Hin as [? | Hin]; [contradiction |]. eapply IH; eauto.
Qed.

Lemma adicionar_pais_qualifica raw0 pop ini n df k df' :
  (forall name c, ~ In name out -> lookup df name = Some c ->
                  qualifica pop ini name) ->
  adicionar_pais raw0 pop ini n df k = inr df' ->
  forall name c, ~ In name out -> lookup df' name = Some c ->
                 qualifica pop ini name.
Proof.
  intros Hinv H name c Hout Hl. apply adicionar_pais_cases in H.
  destruct H as [-> | (_ & Hm & col & ik & ibr & _ & Hik & Hibr & Hz & Hle & ->)];
    [eauto |].
  destruct (string_dec k name) as [<- | Hne].
  - split; [exact Hm |]. exists ik, ibr. repeat split; assumption.
  - rewrite lookup_setitem_neq in Hl by assumption. eauto.
Qed.

(** X1.  In every result of [preparar_dados] the target has at least
    one day, [nbr] is the number of days of the raw table from the
    target's onset on, and every column of the aligned table and of the
    normalised table has exactly [nbr] rows. *)
Theorem aligned_table_shape :
  forall raw_csv pop sp p1 p4 pd,
    preparar_dados raw_csv pop sp p1 p4 = inr pd ->
    1 <= nbr pd /\
    (exists col i, lookup (raw pd) "Brazil" = Some col /\
                   lookup (inicio pd) "Brazil" = Some i /\
                   nbr pd = length col - i) /\
    (forall k c, lookup (data pd) k = Some c -> length c = nbr pd) /\
    (forall k c, lookup (por100k pd) k = Some c -> length c = nbr pd).
Proof.
  intros raw_csv pop sp p1 p4 pd H.
  pose proof (preparar_dados_alinhado _ _ _ _ _ _ H) as
    (col & i & Hc & Hi & Hlt & Hn & _).
  split; [lia |]. split; [eauto |]. split.
  - intros k c Hk. eapply aligned_lengths; eauto.
  - intros k c Hk. eapply preparar_dados_por100k; eauto.
Qed.

Lemma aligned_table_shape_witness :
  preparar_dados Exemplo.raw_csv Exemplo.pop Exemplo.sp Exemplo.p1 Exemplo.p4
    = inr Exemplo.pd /\
  1 <= nbr Exemplo.pd /\
  forall k c, lookup (data Exemplo.pd) k = Some c -> length c = nbr Exemplo.pd.
Proof.
  assert (Hpd : preparar_dados Exemplo.raw_csv Exemplo.pop Exemplo.sp Exemplo.p1
                  Exemplo.p4 = inr Exemplo.pd) by (vm_compute; reflexivity).
  split; [exact Hpd |].
  destruct (aligned_table_shape _ _ _ _ _ _ Hpd) as (H1 & _ & H2 & _).
  split; [exact H1 | exact H2].
Defined.

(** Every country of the aligned table satisfies the condition of
    line 125. *)
Lemma preparar_dados_qualifica raw_csv pop sp p1 p4 pd k c :
  preparar_dados raw_csv pop sp p1 p4 = inr pd ->
  ~ In k out -> lookup (data pd) k = Some c ->
  qualifica pop (inicio pd) k.
Proof.
  intros H. apply preparar_dados_inr in H.
  destruct H as (_ & _ & _ & brazil & _ & _ & Hfold & _).
  revert k c.
  eapply (foldM_invariant _
            (fun df => forall name c, ~ In name out -> lookup df name = Some c ->
                                      qualifica pop (inicio pd) name));
    [| | exact Hfold].
  - intros s a s' Hs Ha. eapply adicionar_pais_qualifica; eauto.
  - intros name c Hout Hl. exfalso.
    revert Hl. unfold recortes. cbn [lookup].
    assert (Hne : forall k', In k' out -> (k' =? name)%string = false).
    { intros k' Hin. apply String.eqb_neq. intros ->. contradiction. }
    rewrite !Hne by (unfold out; simpl; tauto). discriminate.
Qed.

(** X2.  A country (a name outside the four cuts) is a column of the
    aligned table exactly when it has an entry in the population table,
    its onset index is not 0 and is not after the target's: a country
    whose first day of [p1] deaths is the first day of the raw table is
    left out, like one that never has [p1] deaths in a day. *)
Theorem country_inclusion :
  forall raw_csv pop sp p1 p4 pd k,
    preparar_dados raw_csv pop sp p1 p4 = inr pd ->
    ~ In k out ->
    ((exists c, lookup (data pd) k = Some c) <->
     (mem k (keys pop) = true /\
      exists ik ibr,
        lookup (inicio pd) k = Some ik /\
        lookup (inicio pd) "Brazil" = Some ibr /\
        ik <> 0 /\ ik <= ibr)).
Proof.
  intros raw_csv pop sp p1 p4 pd k H Hout.
  split.
  - intros [c Hc]. exact (preparar_dados_qualifica _ _ _ _ _ _ _ _ H Hout Hc).
  - intros (Hm & ik & ibr & Hik & Hibr & Hz & Hle).
    apply preparar_dados_inr in H.
    destruct H as (_ & _ & _ & brazil & _ & _ & Hfold & _).
    eapply foldM_adicionar_stores; eauto.
    + apply lookup_keys. eauto.
    + intros ->. apply Hout. unfold out. simpl. tauto.
Qed.

Lemma country_inclusion_witness :
  preparar_dados Exemplo.raw_csv Exemplo.pop Exemplo.sp Exemplo.p1 Exemplo.p4
    = inr Exemplo.pd /\
  ~ In "Chile" out /\
  lookup (inicio Exemplo.pd) "Chile" = Some 0 /\
  lookup (data Exemplo.pd) "Chile" = None.
Proof.
  assert (Hpd : preparar_dados Exemplo.raw_csv Exemplo.pop Exemplo.sp Exemplo.p1
                  Exemplo.p4 = inr Exemplo.pd) by (vm_compute; reflexivity).
  assert (Hout : ~ In "Chile" out).
  { intros [H | [H | [H | [H | []]]]]; discriminate H. }
  split; [exact Hpd |]. split; [exact Hout |]. split; [reflexivity |].
  destruct (lookup (data Exemplo.pd) "Chile") as [c |] eqn:E; [| reflexivity].
  destruct (country_inclusion _ _ _ _ _ _ "Chile" Hpd Hout) as [Hto _].
  destruct (Hto (ex_intro _ c E)) as (_ & ik & ibr & Hik & _ & Hz & _).
  vm_compute in Hik. inversion Hik. subst ik. contradiction.
Defined.

(** ** What [preparar_dados] refuses *)

Lemma onset_nonempty (p1 x : float64) (col : list float64) :
  exists i, onset p1 (x :: col) = inr i.
Proof. unfold onset, idxmax. cbn [map]. eauto. Qed.

Lemma inicio_de_empty_column (raw0 : frame) (p1 : float64) :
  (exists k, In (k, []) raw0) -> inicio_de raw0 p1 = inl ValueError.
Proof.
  unfold inicio_de. intros [k Hin].
  induction raw0 as [| [k0 c0] raw0 IH]; [contradiction |].
  cbn [mapM fst snd]. destruct c0 as [| x c0].
  - reflexivity.
  - destruct (onset_nonempty p1 x c0) as [i ->]. cbn [bind ok].
    destruct Hin as [E | Hin]; [discriminate E |].
    rewrite (IH Hin). reflexivity.
Qed.

Lemma inicio_de_total (raw0 : frame) (p1 : float64) :
  Forall (fun kc => snd kc <> []) raw0 ->
  exists ini, inicio_de raw0 p1 = inr ini.
Proof.
  unfold inicio_de. induction 1 as [| [k c] raw0 Hc _ IH]; cbn [mapM fst snd].
  - eexists. reflexivity.
  - destruct c as [| x c]; [contradiction Hc; reflexivity |].
    destruct (onset_nonempty p1 x c) as [i ->]. destruct IH as [ini ->].
    eexists. reflexivity.
Qed.

Lemma fillna_frame_nonempty (raw_csv : frame) :
  Forall (fun kc => snd kc <> []) raw_csv ->
  Forall (fun kc => snd kc <> [])
         (map (fun kc => (fst kc, map fillna0 (snd kc))) raw_csv).
Proof.
  intros H. apply Forall_map. eapply Forall_impl; [| exact H].
  intros [k c] Hc. cbn [fst snd] in *. destruct c; [contradiction | discriminate].
Qed.

(** X3.  A raw table with no rows (a column that is empty) is refused:
    line 97 raises ValueError, whatever the other inputs are. *)
Theorem empty_table_is_refused :
  forall raw_csv pop sp p1 p4 k,
    In (k, []) raw_csv ->
    preparar_dados raw_csv pop sp p1 p4 = inl ValueError.
Proof.
  intros raw_csv pop sp p1 p4 k Hin. unfold preparar_dados. cbv zeta.
  rewrite inicio_de_empty_column; [reflexivity |].
  exists k. apply in_map_iff. exists (k, []). split; [reflexivity | exact Hin].
Qed.

Lemma empty_table_is_refused_witness :
  In ("Brazil", []) [("Brazil", @nil float64)] /\
  preparar_dados [("Brazil", [])] Exemplo.pop Exemplo.sp Exemplo.p1 Exemplo.p4
    = inl ValueError.
Proof.
  assert (Hin : In ("Brazil", []) [("Brazil", @nil float64)]) by (now left).
  split; [exact Hin |].
  exact (empty_table_is_refused _ Exemplo.pop Exemplo.sp Exemplo.p1 Exemplo.p4
           "Brazil" Hin).
Defined.

(** X4.  A raw table (with rows) that has no column for the target is
    refused: line 98 raises KeyError. *)
Theorem missing_target_is_refused :
  forall raw_csv pop sp p1 p4,
    Forall (fun kc => snd kc <> []) raw_csv ->
    lookup raw_csv "Brazil" = None ->
    preparar_dados raw_csv pop sp p1 p4 = inl KeyError.
Proof.
  intros raw_csv pop sp p1 p4 Hne Hnone. unfold preparar_dados. cbv zeta.
  destruct (inicio_de_total _ p1 (fillna_frame_nonempty _ Hne)) as [ini ->].
  cbn [bind]. unfold base_brazil, getitem.
  rewrite lookup_map_fillna, Hnone. reflexivity.
Qed.

Lemma missing_target_is_refused_witness :
  Forall (fun kc : string * list float64 => snd kc <> [])
         [("Italy", [Num 0; Num 3])] /\
  lookup [("Italy", [Num 0; Num 3])] "Brazil" = None /\
  preparar_dados [("Italy", [Num 0; Num 3])] Exemplo.pop Exemplo.sp Exemplo.p1
    Exemplo.p4 = inl KeyError.
Proof.
  assert (Hne : Forall (fun kc : string * list float64 => snd kc <> [])
                       [("Italy", [Num 0; Num 3])]).
  { constructor; [discriminate | constructor]. }
  split; [exact Hne |]. split; [reflexivity |].
  exact (missing_target_is_refused _ Exemplo.pop Exemplo.sp Exemplo.p1 Exemplo.p4
           Hne eq_refl).
Defined.

Lemma adjacent_diff_length (l : list float64) :
  length (adjacent_diff l) = length l - 1.
Proof.
  induction l as [| a l IH]; [reflexivity |].
  destruct l as [| b l]; [reflexivity |].
  cbn [adjacent_diff length] in *. rewrite IH. lia.
Qed.

Lemma diarios_length (n : nat) (l : list float64) :
  length (diarios n l) = Nat.min (n + 1) (length l) - 1.
Proof.
  unfold diarios.
  now rewrite length_rev, adjacent_diff_length, length_map, length_firstn.
Qed.

(** X5.  The state's rows of the brasil.io table must number at least
    [nbr + 1]: with fewer, the daily series of the state is shorter than
    the target's and line 107 raises ValueError (nothing is filled with
    zeros). *)
Theorem too_few_state_rows_is_refused :
  forall raw_csv pop sp p1 p4 ini brazil,
    inicio_de (map (fun kc => (fst kc, map fillna0 (snd kc))) raw_csv) p1
      = inr ini ->
    base_brazil (map (fun kc => (fst kc, map fillna0 (snd kc))) raw_csv) ini p4
      = inr brazil ->
    length (filter (fun r => (place_type r =? "state")%string) sp)
      <= length brazil ->
    preparar_dados raw_csv pop sp p1 p4 = inl ValueError.
Proof.
  intros raw_csv pop sp p1 p4 ini brazil Hini Hb Hfew.
  assert (Hpos : 1 <= length brazil).
  { pose proof Hb as Hb'. apply base_brazil_inr in Hb'.
    destruct Hb' as (col & i & Hc & Hi & ->).
    pose proof (inicio_de_lookup _ _ _ Hini "Brazil") as Ho.
    rewrite Hc in Ho. destruct Ho as (i' & Hi' & Ho).
    rewrite Hi in Hi'. inversion Hi'; subst i'.
    apply onset_inr in Ho. destruct Ho as [Hlt _].
    rewrite scale_length, length_skipn. lia. }
  unfold preparar_dados. cbv zeta. rewrite Hini. cbn [bind]. rewrite Hb. cbn [bind].
  unfold assign at 1. rewrite scale_length, diarios_length, length_map.
  destruct (Nat.eqb_spec
              (Nat.min (length brazil + 1)
                 (length (filter (fun r => (place_type r =? "state")%string) sp)) - 1)
              (length brazil)) as [Heq | _]; [lia | reflexivity].
Qed.

Lemma too_few_state_rows_is_refused_witness :
  inicio_de (map (fun kc => (fst kc, map fillna0 (snd kc))) Exemplo.raw_csv)
    Exemplo.p1 = inr (inicio Exemplo.pd) /\
  base_brazil (map (fun kc => (fst kc, map fillna0 (snd kc))) Exemplo.raw_csv)
    (inicio Exemplo.pd) Exemplo.p4 = inr [Num (111 # 25); Num (222 # 25)] /\
  length (filter (fun r => (place_type r =? "state")%string)
            [Exemplo.estado 2; Exemplo.estado 1]) <= 2 /\
  preparar_dados Exemplo.raw_csv Exemplo.pop [Exemplo.estado 2; Exemplo.estado 1]
    Exemplo.p1 Exemplo.p4 = inl ValueError.
Proof.
  assert (H1 : inicio_de
                 (map (fun kc => (fst kc, map fillna0 (snd kc))) Exemplo.raw_csv)
                 Exemplo.p1 = inr (inicio Exemplo.pd)) by (vm_compute; reflexivity).
  assert (H2 : base_brazil
                 (map (fun kc => (fst kc, map fillna0 (snd kc))) Exemplo.raw_csv)
                 (inicio Exemplo.pd) Exemplo.p4
               = inr [Num (111 # 25); Num (222 # 25)]) by (vm_compute; reflexivity).
  assert (H3 : length (filter (fun r => (place_type r =? "state")%string)
                         [Exemplo.estado 2; Exemplo.estado 1]) <= 2)
    by (vm_compute; lia).
  split; [exact H1 |]. split; [exact H2 |]. split; [exact H3 |].
  exact (too_few_state_rows_is_refused _ Exemplo.pop
           [Exemplo.estado 2; Exemplo.estado 1] _ _ _ _ H1 H2 H3).
Defined.

(** ** Labels *)

Lemma keys_setitem {V : Type} (s : series V) (k : string) (v : V) :
  keys (setitem s k v) = if mem k (keys s) then keys s else keys s ++ [k].
Proof.
  unfold keys, mem. induction s as [| [k0 v0] s IH]; cbn [setitem map existsb fst].
  - reflexivity.
  - destruct (k0 =? k)%string eqn:E; cbn [map fst orb].
    + apply String.eqb_eq in E. now subst.
    + rewrite IH. now destruct (existsb (fun k' => (k' =? k)%string) (map fst s)).
Qed.

Lemma setitem_NoDup {V : Type} (s : series V) (k : string) (v : V) :
  NoDup (keys s) -> NoDup (keys (setitem s k v)).
Proof.
  intros H. rewrite keys_setitem. destruct (mem k (keys s)) eqn:E; [exact H |].
  apply NoDup_app; [exact H | repeat constructor; intros [] |].
  intros x Hx [<- | []]. apply mem_In in Hx. congruence.
Qed.

Lemma preparar_dados_NoDup raw_csv pop sp p1 p4 pd :
  preparar_dados raw_csv pop sp p1 p4 = inr pd -> NoDup (keys (data pd)).
Proof.
  intros H. apply preparar_dados_inr in H.
  destruct H as (_ & _ & _ & brazil & _ & _ & Hfold & _).
  eapply (foldM_invariant _ (fun df => NoDup (keys df))); [| | exact Hfold].
  - intros s a s' Hs Ha. apply adicionar_pais_inr in Ha.
    destruct Ha as [-> | (_ & col & ik & _ & _ & _ & ->)]; [exact Hs |].
    now apply setitem_NoDup.
  - unfold recortes, keys. cbn [map fst].
    repeat constructor; cbn [In]; intros H;
      repeat (destruct H as [H | H]; [discriminate H |]); exact H.
Qed.

Lemma firstn_NoDup {A : Type} (n : nat) (l : list A) :
  NoDup l -> NoDup (firstn n l).
Proof.
  intros H. rewrite <- (firstn_skipn n l) in H.
  now apply NoDup_app_remove_r in H.
Qed.

Lemma slice_to_incl {A : Type} (n : Z) (l : list A) (x : A) :
  In x (slice_to n l) -> In x l.
Proof.
  unfold slice_to. destruct (0 <=? n)%Z; intros H.
  - rewrite <- (firstn_skipn (Z.to_nat n) l). apply in_or_app. now left.
  - rewrite <- (firstn_skipn (length l - Z.to_nat (- n)) l).
    apply in_or_app. now left.
Qed.

Lemma slice_to_NoDup {A : Type} (n : Z) (l : list A) :
  NoDup l -> NoDup (slice_to n l).
Proof. unfold slice_to. destruct (0 <=? n)%Z; apply firstn_NoDup. Qed.

Lemma keys_perm (s t : series float64) :
  Permutation s t -> Permutation (keys s) (keys t).
Proof. apply Permutation_map. Qed.

(** The selected names are labels of the table of coefficients, outside
    the four cuts, and distinct when the labels are. *)
Lemma selecionar_In tie (pr : series float64) (p2 : Z) (c : string) :
  In c (selecionar tie pr p2) -> In c (keys pr) /\ ~ In c out.
Proof.
  unfold selecionar. intros H. apply slice_to_incl in H.
  apply filter_In in H. destruct H as [Hin Hout]. split.
  - eapply Permutation_in; [| exact Hin].
    symmetry. apply keys_perm, sort_values_desc_perm.
  - intros Ho. apply mem_In in Ho. rewrite Ho in Hout. discriminate.
Qed.

Lemma selecionar_NoDup tie (pr : series float64) (p2 : Z) :
  NoDup (keys pr) -> NoDup (selecionar tie pr p2).
Proof.
  intros H. unfold selecionar. apply slice_to_NoDup, NoDup_filter.
  eapply Permutation_NoDup; [| exact H]. apply keys_perm, sort_values_desc_perm.
Qed.

Lemma pearson_col_keys corr df ref pr :
  pearson_col corr df ref = inr pr -> keys pr = keys df.
Proof.
  unfold pearson_col. intros H. inv_bind H. inversion H; subst.
  unfold keys. rewrite map_map. reflexivity.
Qed.

(** X6.  The labels of the aligned table are distinct, and so are the
    comparators a run returns: each is a column of the aligned table
    outside the four cuts, named once (so the dict of weights of line 219
    has one entry per comparator). *)
Theorem comparators_are_distinct_columns :
  forall corr tie now raw_csv pop sp p1 p4 pd p2 p3 ref cs cal proj inf,
    preparar_dados raw_csv pop sp p1 p4 = inr pd ->
    rodar_modelo corr tie now pd p2 p3 ref = inr (cs, cal, proj, inf) ->
    NoDup (keys (data pd)) /\
    NoDup cs /\
    forall c, In c cs ->
      ~ In c out /\ exists col, lookup (data pd) c = Some col.
Proof.
  intros corr tie now raw_csv pop sp p1 p4 pd p2 p3 ref cs cal proj inf Hpd Hrun.
  pose proof (preparar_dados_NoDup _ _ _ _ _ _ Hpd) as Hnd.
  apply rodar_modelo_inr in Hrun.
  destruct Hrun as (pr & pesos & Hpr & -> & _).
  pose proof (pearson_col_keys _ _ _ _ Hpr) as Hk.
  split; [exact Hnd |]. split.
  - apply selecionar_NoDup. now rewrite Hk.
  - intros c Hc. apply selecionar_In in Hc. destruct Hc as [Hin Hout].
    split; [exact Hout |]. apply lookup_keys. now rewrite <- Hk.
Qed.

Lemma comparators_are_distinct_columns_witness :
  preparar_dados Exemplo.raw_csv Exemplo.pop Exemplo.sp Exemplo.p1 Exemplo.p4
    = inr Exemplo.pd /\
  rodar_modelo pearson2 ordem_da_tabela 100 Exemplo.pd 1 1 "Brazil"
    = inr (["Italy"], Exemplo.calibrados, Exemplo.projetado, Exemplo.resumo) /\
  NoDup (keys (data Exemplo.pd)).
Proof.
  assert (Hpd : preparar_dados Exemplo.raw_csv Exemplo.pop Exemplo.sp Exemplo.p1
                  Exemplo.p4 = inr Exemplo.pd) by (vm_compute; reflexivity).
  assert (Hrun : rodar_modelo pearson2 ordem_da_tabela 100 Exemplo.pd 1 1 "Brazil"
                 = inr (["Italy"], Exemplo.calibrados, Exemplo.projetado,
                        Exemplo.resumo)) by (vm_compute; reflexivity).
  split; [exact Hpd |]. split; [exact Hrun |].
  exact (proj1 (comparators_are_distinct_columns _ _ _ _ _ _ _ _ _ _ _ _ _ _ _ _
                  Hpd Hrun)).
Defined.

(** ** The shape of a run's results *)

Lemma coluna_pais_key pd k kc :
  coluna_pais pd k = inr kc -> fst kc = k.
Proof.
  unfold coluna_pais. intros H. inv_bind H. inv_bind H.
  destruct (k =? "China")%string.
  - inversion H. reflexivity.
  - inv_bind H. inversion H. reflexivity.
Qed.

Lemma mapM_coluna_keys pd cs cols :
  mapM (coluna_pais pd) cs = inr cols -> keys cols = cs.
Proof.
  revert cols. induction cs as [| c cs IH]; simpl; intros cols H.
  - inversion H. reflexivity.
  - inv_bind H. inv_bind H. inversion H; subst. unfold keys in *. cbn [map].
    f_equal; [eapply coluna_pais_key; eauto | now apply IH].
Qed.

Lemma calibrar_keys pd cs p3 ref cal :
  calibrar pd cs p3 ref = inr cal -> keys cal = ref :: cs.
Proof.
  unfold calibrar. intros H. inv_bind H. inv_bind H.
  apply rolling_inr in H. destruct H as [_ ->].
  unfold concat_axis1, keys. rewrite !map_map. cbn [map fst].
  f_equal. apply mapM_coluna_keys in E0. unfold keys in E0.
  rewrite <- E0. apply map_ext. reflexivity.
Qed.

Lemma projetar_length cal pesos cs ref n proj :
  projetar cal pesos cs ref n = inr proj ->
  Forall (fun kc => length (snd kc) = shape0 cal) cal ->
  1 <= n <= shape0 cal /\ length proj = shape0 cal.
Proof.
  intros H Hall. apply projetar_inr in H.
  destruct H as (r & seam & m & Hr & -> & Hm & ->).
  assert (Hl : length r = shape0 cal).
  { rewrite Forall_forall in Hall.
    assert (Hin : exists k, In (k, r) cal).
    { clear - Hr. induction cal as [| [k0 c0] cal IH]; simpl in Hr; [discriminate |].
      destruct (k0 =? ref)%string.
      - inversion Hr; subst. exists k0. now left.
      - destruct (IH Hr) as [k Hk]. exists k. now right. }
    destruct Hin as [k Hk]. exact (Hall _ Hk). }
  assert (Hlt : m < length r) by (apply nth_error_Some; congruence).
  split; [lia |].
  rewrite estender_length, length_app, repeat_length, length_seq. simpl. lia.
Qed.

(** X7.  In every run that returns, the calibrated table has the
    reference as first column followed by the comparators in their
    order, all its columns have the rows of the longest series, and the
    projected series has exactly that many rows, at least [nbr]. *)
Theorem projected_series_shape :
  forall corr tie now pd p2 p3 ref cs cal proj inf,
    rodar_modelo corr tie now pd p2 p3 ref = inr (cs, cal, proj, inf) ->
    keys cal = ref :: cs /\
    (forall k c, lookup cal k = Some c -> length c = shape0 cal) /\
    length proj = shape0 cal /\
    1 <= nbr pd <= length proj.
Proof.
  intros corr tie now pd p2 p3 ref cs cal proj inf H.
  apply rodar_modelo_inr in H.
  destruct H as (pr & pesos & _ & -> & Hcal & _ & Hproj & _).
  pose proof (calibrar_keys _ _ _ _ _ Hcal) as Hk.
  apply calibrar_inr in Hcal.
  destruct Hcal as (r0 & cols & _ & _ & _ & _ & Hall & _).
  destruct (projetar_length _ _ _ _ _ _ Hproj Hall) as [Hn Hl].
  split; [exact Hk |]. split; [| split; [exact Hl | lia]].
  intros k c Hc. eapply lookup_lengths; eauto.
Qed.

Lemma projected_series_shape_witness :
  rodar_modelo pearson2 ordem_da_tabela 100 Exemplo.pd 1 1 "Brazil"
    = inr (["Italy"], Exemplo.calibrados, Exemplo.projetado, Exemplo.resumo) /\
  length Exemplo.projetado = shape0 Exemplo.calibrados.
Proof.
  assert (Hrun : rodar_modelo pearson2 ordem_da_tabela 100 Exemplo.pd 1 1 "Brazil"
                 = inr (["Italy"], Exemplo.calibrados, Exemplo.projetado,
                        Exemplo.resumo)) by (vm_compute; reflexivity).
  split; [exact Hrun |].
  destruct (projected_series_shape _ _ _ _ _ _ _ _ _ _ _ Hrun) as (_ & _ & Hl & _).
  exact Hl.
Defined.

(** ** The peak of a run *)

Lemma resumir_inr now proj popBR ref n inf :
  resumir now proj popBR ref n = inr inf ->
  np_max (map nan_to_num proj) = inr (pico inf) /\
  list_index proj (pico inf) = inr (index inf) /\
  dia_do_pico inf = (now + (Z.of_nat (index inf) - Z.of_nat n))%Z.
Proof.
  unfold resumir. intros H. inv_bind H. inv_bind H. inv_bind H. inv_bind H.
  inversion H; subst inf. cbn [pico index dia_do_pico]. auto.
Qed.

(** The peak is found at a defined row, the seam or later. *)
Lemma peak_at_defined_row cal pesos cs ref now proj popBR n inf :
  projetar cal pesos cs ref n = inr proj ->
  resumir now proj popBR ref n = inr inf ->
  n - 1 <= index inf < length proj /\
  exists m, pico inf = Num m /\
            feqb (nth (index inf) proj NaN) (Num m) = true /\
            forall x, In x proj -> fle (nan_to_num x) (Num m) = true.
Proof.
  intros Hproj Hres.
  apply resumir_inr in Hres. destruct Hres as (Hmax & Hix & _).
  destruct (projetar_seam _ _ _ _ _ _ Hproj) as (r & _ & _ & _ & _ & Hnan).
  unfold list_index in Hix.
  destruct (first_index (fun x => feqb x (pico inf)) proj) as [ix |] eqn:Ei;
    [| discriminate].
  inversion Hix as [Hix']. rewrite <- Hix'.
  destruct (first_index_some _ _ _ NaN Ei) as (Hlt & Hat & _).
  assert (Hne : proj <> []) by (destruct proj; [simpl in Hlt; lia | discriminate]).
  destruct (np_max_nan_to_num proj Hne) as (m & Hm & _ & Hub).
  rewrite Hmax in Hm. inversion Hm as [Hp]. rewrite Hp in Hat.
  split; [split; [| exact Hlt] | exists m; repeat split; assumption].
  destruct (Nat.le_gt_cases (n - 1) ix) as [Hle | Hgt]; [exact Hle |].
  exfalso. specialize (Hnan ix Hgt).
  rewrite (nth_error_nth _ _ NaN Hnan) in Hat. discriminate.
Qed.

(** X8.  In every run that returns, the peak is a finite value met at a
    defined row of the projected series, the seam or later, and it is at
    least every entry (NaN read as zero); so the date of the peak is
    never earlier than the day before the run. *)
Theorem peak_is_not_before_the_seam :
  forall corr tie now pd p2 p3 ref cs cal proj inf,
    rodar_modelo corr tie now pd p2 p3 ref = inr (cs, cal, proj, inf) ->
    nbr pd - 1 <= index inf < length proj /\
    (exists m, pico inf = Num m /\
               feqb (nth (index inf) proj NaN) (Num m) = true /\
               forall x, In x proj -> fle (nan_to_num x) (Num m) = true) /\
    dia_do_pico inf = (now + (Z.of_nat (index inf) - Z.of_nat (nbr pd)))%Z /\
    (now - 1 <= dia_do_pico inf)%Z.
Proof.
  intros corr tie now pd p2 p3 ref cs cal proj inf H.
  apply rodar_modelo_inr in H.
  destruct H as (pr & pesos & _ & _ & _ & _ & Hproj & Hres).
  destruct (peak_at_defined_row _ _ _ _ _ _ _ _ _ Hproj Hres) as [Hix Hm].
  pose proof (resumir_inr _ _ _ _ _ _ Hres) as (_ & _ & Hdia).
  split; [exact Hix |]. split; [exact Hm |]. split; [exact Hdia |]. lia.
Qed.

Lemma peak_is_not_before_the_seam_witness :
  rodar_modelo pearson2 ordem_da_tabela 100 Exemplo.pd 1 1 "Brazil"
    = inr (["Italy"], Exemplo.calibrados, Exemplo.projetado, Exemplo.resumo) /\
  (100 - 1 <= dia_do_pico Exemplo.resumo)%Z.
Proof.
  assert (Hrun : rodar_modelo pearson2 ordem_da_tabela 100 Exemplo.pd 1 1 "Brazil"
                 = inr (["Italy"], Exemplo.calibrados, Exemplo.projetado,
                        Exemplo.resumo)) by (vm_compute; reflexivity).
  split; [exact Hrun |].
  destruct (peak_is_not_before_the_seam _ _ _ _ _ _ _ _ _ _ _ Hrun)
    as (_ & _ & _ & Hd).
  exact Hd.
Defined.

(** ** How the two functions fit *)

Lemma mapM_total {A B : Type} (f : A -> result B) (l : list A) :
  (forall a, In a l -> exists b, f a = inr b) ->
  exists bs, mapM f l = inr bs.
Proof.
  induction l as [| a l IH]; intros H; cbn [mapM].
  - eexists. reflexivity.
  - destruct (H a (or_introl eq_refl)) as [b ->].
    destruct IH as [bs ->]; [intros; apply H; now right |].
    eexists. reflexivity.
Qed.

(** The four cuts are columns of the aligned and of the normalised
    table. *)
Lemma cut_is_present raw_csv pop sp p1 p4 pd ref :
  preparar_dados raw_csv pop sp p1 p4 = inr pd ->
  In ref out ->
  (exists c, lookup (data pd) ref = Some c) /\
  (exists r, lookup (por100k pd) ref = Some r) /\
  (exists p, lookup (popuBR pd) ref = Some p).
Proof.
  intros H Hin. apply preparar_dados_inr in H.
  destruct H as (_ & _ & _ & brazil & _ & _ & _ & _ & c1 & c2 & c3 & c4 & pb
                   & H1 & H2 & H3 & H4 & _ & Hpop & Hp).
  cbv zeta in Hpop, Hp. rewrite Hpop, Hp.
  destruct Hin as [<- | [<- | [<- | [<- | []]]]];
    (split; [eauto | split; cbn [lookup String.eqb Ascii.eqb Bool.eqb]; eauto]).
Qed.

(** Any other reference has no normalised series. *)
Lemma not_a_cut_is_absent raw_csv pop sp p1 p4 pd ref :
  preparar_dados raw_csv pop sp p1 p4 = inr pd ->
  ~ In ref out -> lookup (por100k pd) ref = None.
Proof.
  intros H Hout. apply preparar_dados_inr in H.
  destruct H as (_ & _ & _ & brazil & _ & _ & _ & _ & c1 & c2 & c3 & c4 & pb
                   & _ & _ & _ & _ & _ & _ & Hp).
  cbv zeta in Hp. rewrite Hp. cbn [lookup].
  assert (Hne : forall k', In k' out -> (k' =? ref)%string = false).
  { intros k' Hin. apply String.eqb_neq. intros ->. contradiction. }
  rewrite !Hne by (unfold out; simpl; tauto). reflexivity.
Qed.

(** Every selected comparator has a raw series, an onset and (China
    apart) a population: lines 201-206 raise nothing. *)
Lemma colunas_total corr tie raw_csv pop sp p1 p4 pd ref pr p2 :
  preparar_dados raw_csv pop sp p1 p4 = inr pd ->
  pearson_col corr (data pd) ref = inr pr ->
  exists cols, mapM (coluna_pais pd) (selecionar tie pr p2) = inr cols.
Proof.
  intros Hpd Hpr. apply mapM_total. intros c Hc.
  apply selecionar_In in Hc. destruct Hc as [Hin Hout].
  rewrite (pearson_col_keys _ _ _ _ Hpr) in Hin.
  apply lookup_keys in Hin. destruct Hin as [col Hcol].
  destruct (preparar_dados_qualifica _ _ _ _ _ _ _ _ Hpd Hout Hcol)
    as (Hm & ik & ibr & Hik & _).
  pose proof (preparar_dados_alinhado _ _ _ _ _ _ Hpd) as
    (cb & ib & _ & _ & _ & _ & _ & Hal).
  destruct (Hal c col Hout Hcol) as (rc & i & Hrc & _ & _).
  apply mem_In, lookup_keys in Hm. destruct Hm as [p Hp].
  apply preparar_dados_inr in Hpd. destruct Hpd as (_ & _ & Hpop & _).
  unfold coluna_pais, getitem. rewrite Hrc, Hik, Hpop, Hp. cbn [bind ok].
  destruct (c =? "China")%string; eauto.
Qed.

Lemma pesos_de_total tie (pr : series float64) (p2 : Z) :
  exists pesos, pesos_de pr (selecionar tie pr p2) = inr pesos.
Proof.
  unfold pesos_de.
  destruct (mapM_total (getitem pr) (selecionar tie pr p2)) as [rs ->].
  - intros c Hc. apply selecionar_In in Hc. destruct Hc as [Hin _].
    apply lookup_keys in Hin. destruct Hin as [v Hv].
    exists v. unfold getitem. now rewrite Hv.
  - eexists. reflexivity.
Qed.

(** X16.  The reference must be one of the four cuts of the target: on
    a prepared table any other name, a country of the table included,
    makes [rodar_modelo] raise KeyError. *)
Theorem reference_must_be_a_cut :
  forall corr tie now raw_csv pop sp p1 p4 pd p2 p3 ref,
    preparar_dados raw_csv pop sp p1 p4 = inr pd ->
    ~ In ref out ->
    rodar_modelo corr tie now pd p2 p3 ref = inl KeyError.
Proof.
  intros corr tie now raw_csv pop sp p1 p4 pd p2 p3 ref Hpd Hout.
  unfold rodar_modelo, pearson_col, getitem at 1.
  destruct (lookup (data pd) ref) as [c |]; [| reflexivity].
  cbn [bind ok]. unfold calibrar, getitem.
  rewrite (not_a_cut_is_absent _ _ _ _ _ _ _ Hpd Hout). reflexivity.
Qed.

Lemma reference_must_be_a_cut_witness :
  preparar_dados Exemplo.raw_csv Exemplo.pop Exemplo.sp Exemplo.p1 Exemplo.p4
    = inr Exemplo.pd /\
  ~ In "Italy" out /\
  rodar_modelo pearson2 ordem_da_tabela 100 Exemplo.pd 1 1 "Italy" = inl KeyError.
Proof.
  assert (Hpd : preparar_dados Exemplo.raw_csv Exemplo.pop Exemplo.sp Exemplo.p1
                  Exemplo.p4 = inr Exemplo.pd) by (vm_compute; reflexivity).
  assert (Hout : ~ In "Italy" out).
  { intros [H | [H | [H | [H | []]]]]; discriminate H. }
  split; [exact Hpd |]. split; [exact Hout |].
  exact (reference_must_be_a_cut pearson2 ordem_da_tabela 100 _ _ _ _ _ _ 1%Z 1%Z "Italy" Hpd Hout).
Defined.

(** From the correlation to the projection nothing is raised. *)
Lemma etapas_sem_erro corr tie now raw_csv pop sp p1 p4 pd p2 p3 ref :
  preparar_dados raw_csv pop sp p1 p4 = inr pd ->
  In ref out ->
  (1 <= p3)%Z ->
  exists pr cal pesos proj,
    pearson_col corr (data pd) ref = inr pr /\
    calibrar pd (selecionar tie pr p2) p3 ref = inr cal /\
    pesos_de pr (selecionar tie pr p2) = inr pesos /\
    projetar cal pesos (selecionar tie pr p2) ref (nbr pd) = inr proj /\
    rodar_modelo corr tie now pd p2 p3 ref =
      bind (resumir now proj (popuBR pd) ref (nbr pd))
           (fun inf => ok (selecionar tie pr p2, cal, proj, inf)).
Proof.
  intros Hpd Hin Hp3.
  destruct (cut_is_present _ _ _ _ _ _ _ Hpd Hin) as ([c Hc] & [r0 Hr0] & _).
  assert (Hpr : exists pr, pearson_col corr (data pd) ref = inr pr).
  { unfold pearson_col, getitem. rewrite Hc. eexists. reflexivity. }
  destruct Hpr as [pr Hpr].
  destruct (colunas_total _ tie _ _ _ _ _ _ _ _ p2 Hpd Hpr) as [cols Hcols].
  assert (Hcal : exists cal, calibrar pd (selecionar tie pr p2) p3 ref = inr cal).
  { unfold calibrar, getitem. rewrite Hr0. cbn [bind ok]. rewrite Hcols.
    cbn [bind]. unfold rolling.
    destruct (Z.ltb_spec p3 0) as [? | _]; [lia |]. eexists. reflexivity. }
  destruct Hcal as [cal Hcal].
  destruct (pesos_de_total tie pr p2) as [pesos Hpesos].
  pose proof (calibrar_inr _ _ _ _ _ Hcal) as
    (r0' & _ & Hr0' & _ & _ & Hle & _ & Href).
  rewrite Hr0 in Hr0'. inversion Hr0'; subst r0'.
  destruct (preparar_dados_por100k _ _ _ _ _ _ _ _ Hpd Hr0) as [Hlen Hpos].
  destruct (projetar_total cal pesos (selecionar tie pr p2) ref (nbr pd) _ Href)
    as [proj Hproj].
  { rewrite rolling_mean_length, pad_length by assumption. lia. }
  exists pr, cal, pesos, proj. repeat split; try assumption.
  unfold rodar_modelo. rewrite Hpr. cbn [bind]. rewrite Hcal. cbn [bind].
  rewrite Hpesos. cbn [bind]. rewrite Hproj. reflexivity.
Qed.

(** X17.  On a prepared table, with a cut as reference and a window
    of one day or more, the correlation, the selection, the calibrated
    table, the weights and the projection raise nothing, for any [p2]
    and any coefficient function: only the summary of lines 245-257 can
    make the run fail. *)
Theorem run_reaches_the_summary :
  forall corr tie now raw_csv pop sp p1 p4 pd p2 p3 ref,
    preparar_dados raw_csv pop sp p1 p4 = inr pd ->
    In ref out ->
    (1 <= p3)%Z ->
    exists pr cal pesos proj,
      pearson_col corr (data pd) ref = inr pr /\
      calibrar pd (selecionar tie pr p2) p3 ref = inr cal /\
      pesos_de pr (selecionar tie pr p2) = inr pesos /\
      projetar cal pesos (selecionar tie pr p2) ref (nbr pd) = inr proj /\
      rodar_modelo corr tie now pd p2 p3 ref =
        bind (resumir now proj (popuBR pd) ref (nbr pd))
             (fun inf => ok (selecionar tie pr p2, cal, proj, inf)).
Proof.
  intros corr tie now raw_csv pop sp p1 p4 pd p2 p3 ref Hpd Hin Hp3.
  destruct (cut_is_present _ _ _ _ _ _ _ Hpd Hin) as ([c Hc] & [r0 Hr0] & _).
  assert (Hpr : exists pr, pearson_col corr (data pd) ref = inr pr).
  { unfold pearson_col, getitem. rewrite Hc. eexists. reflexivity. }
  destruct Hpr as [pr Hpr].
  destruct (colunas_total _ tie _ _ _ _ _ _ _ _ p2 Hpd Hpr) as [cols Hcols].
  assert (Hcal : exists cal, calibrar pd (selecionar tie pr p2) p3 ref = inr cal).
  { unfold calibrar, getitem. rewrite Hr0. cbn [bind ok]. rewrite Hcols.
    cbn [bind]. unfold rolling.
    destruct (Z.ltb_spec p3 0) as [? | _]; [lia |]. eexists. reflexivity. }
  destruct Hcal as [cal Hcal].
  destruct (pesos_de_total tie pr p2) as [pesos Hpesos].
  pose proof (calibrar_inr _ _ _ _ _ Hcal) as
    (r0' & _ & Hr0' & _ & _ & Hle & _ & Href).
  rewrite Hr0 in Hr0'. inversion Hr0'; subst r0'.
  destruct (preparar_dados_por100k _ _ _ _ _ _ _ _ Hpd Hr0) as [Hlen Hpos].
  destruct (projetar_total cal pesos (selecionar tie pr p2) ref (nbr pd) _ Href)
    as [proj Hproj].
  { rewrite rolling_mean_length, pad_length by assumption. lia. }
  exists pr, cal, pesos, proj. repeat split; try assumption.
  unfold rodar_modelo. rewrite Hpr. cbn [bind]. rewrite Hcal. cbn [bind].
  rewrite Hpesos. cbn [bind]. rewrite Hproj. reflexivity.
Qed.

Lemma run_reaches_the_summary_witness :
  preparar_dados Exemplo.raw_csv Exemplo.pop Exemplo.sp Exemplo.p1 Exemplo.p4
    = inr Exemplo.pd /\
  In "SP_City" out /\
  (1 <= 7)%Z /\
  exists pr cal pesos proj,
    pearson_col pearson2 (data Exemplo.pd) "SP_City" = inr pr /\
    calibrar Exemplo.pd (selecionar ordem_da_tabela pr 5) 7 "SP_City" = inr cal /\
    pesos_de pr (selecionar ordem_da_tabela pr 5) = inr pesos /\
    projetar cal pesos (selecionar ordem_da_tabela pr 5) "SP_City"
      (nbr Exemplo.pd) = inr proj.
Proof.
  assert (Hpd : preparar_dados Exemplo.raw_csv Exemplo.pop Exemplo.sp Exemplo.p1
                  Exemplo.p4 = inr Exemplo.pd) by (vm_compute; reflexivity).
  assert (Hin : In "SP_City" out) by (unfold out; simpl; tauto).
  assert (Hp3 : (1 <= 7)%Z) by lia.
  split; [exact Hpd |]. split; [exact Hin |]. split; [exact Hp3 |].
  destruct (run_reaches_the_summary pearson2 ordem_da_tabela 100 _ _ _ _ _ _
              5%Z 7%Z "SP_City" Hpd Hin Hp3) as (pr & cal & pesos & proj & H1 & H2 & H3 & H4 & _).
  exists pr, cal, pesos, proj. repeat split; assumption.
Defined.

(** X19.  A negative smoothing window is refused: on a prepared table,
    with a cut as reference, [rodar_modelo] raises ValueError. *)
Theorem negative_window_is_refused :
  forall corr tie now raw_csv pop sp p1 p4 pd p2 p3 ref,
    preparar_dados raw_csv pop sp p1 p4 = inr pd ->
    In ref out ->
    (p3 < 0)%Z ->
    rodar_modelo corr tie now pd p2 p3 ref = inl ValueError.
Proof.
  intros corr tie now raw_csv pop sp p1 p4 pd p2 p3 ref Hpd Hin Hp3.
  destruct (cut_is_present _ _ _ _ _ _ _ Hpd Hin) as ([c Hc] & [r0 Hr0] & _).
  assert (Hpr : exists pr, pearson_col corr (data pd) ref = inr pr).
  { unfold pearson_col, getitem. rewrite Hc. eexists. reflexivity. }
  destruct Hpr as [pr Hpr].
  destruct (colunas_total _ tie _ _ _ _ _ _ _ _ p2 Hpd Hpr) as [cols Hcols].
  unfold rodar_modelo. rewrite Hpr. cbn [bind].
  unfold calibrar, getitem. rewrite Hr0. cbn [bind ok]. rewrite Hcols.
  cbn [bind]. unfold rolling.
  destruct (Z.ltb_spec p3 0) as [_ | ?]; [reflexivity | lia].
Qed.

Lemma negative_window_is_refused_witness :
  preparar_dados Exemplo.raw_csv Exemplo.pop Exemplo.sp Exemplo.p1 Exemplo.p4
    = inr Exemplo.pd /\
  In "Brazil" out /\
  (-1 < 0)%Z /\
  rodar_modelo pearson2 ordem_da_tabela 100 Exemplo.pd 5 (-1) "Brazil" = inl ValueError.
Proof.
  assert (Hpd : preparar_dados Exemplo.raw_csv Exemplo.pop Exemplo.sp Exemplo.p1
                  Exemplo.p4 = inr Exemplo.pd) by (vm_compute; reflexivity).
  assert (Hin : In "Brazil" out) by (unfold out; simpl; tauto).
  assert (Hp3 : (-1 < 0)%Z) by lia.
  split; [exact Hpd |]. split; [exact Hin |]. split; [exact Hp3 |].
  exact (negative_window_is_refused pearson2 ordem_da_tabela 100 _ _ _ _ _ _ 5%Z (-1)%Z "Brazil"
           Hpd Hin Hp3).
Defined.

(** X18.  With no comparator ([p2 = 0]) nothing is projected: in a run
    that returns, the calibrated table holds the reference alone, the
    projected series has the [nbr] rows of the data, the peak is the
    seam and its date is the day before the run. *)
Theorem no_comparator_no_projection :
  forall corr tie now raw_csv pop sp p1 p4 pd p3 ref cs cal proj inf,
    preparar_dados raw_csv pop sp p1 p4 = inr pd ->
    rodar_modelo corr tie now pd 0 p3 ref = inr (cs, cal, proj, inf) ->
    cs = [] /\
    keys cal = [ref] /\
    length proj = nbr pd /\
    index inf = nbr pd - 1 /\
    dia_do_pico inf = (now - 1)%Z.
Proof.
  intros corr tie now raw_csv pop sp p1 p4 pd p3 ref cs cal proj inf Hpd Hrun.
  apply rodar_modelo_inr in Hrun.
  destruct Hrun as (pr & pesos & _ & Hcs & Hcal & _ & Hproj & Hres).
  assert (Hnil : cs = []) by (rewrite Hcs; reflexivity).
  subst cs. rewrite Hnil in *. clear Hnil.
  pose proof (calibrar_keys _ _ _ _ _ Hcal) as Hk.
  pose proof (calibrar_inr _ _ _ _ _ Hcal) as
    (r0 & cols & Hr0 & Hcols & _ & _ & Hall & _).
  destruct (preparar_dados_por100k _ _ _ _ _ _ _ _ Hpd Hr0) as [Hlen Hpos].
  assert (Hshape : shape0 cal = nbr pd).
  { unfold calibrar, getitem in Hcal. rewrite Hr0 in Hcal.
    cbn [bind ok mapM] in Hcal. apply rolling_inr in Hcal.
    destruct Hcal as [_ ->]. cbn [concat_axis1 map shape0 fold_right fst snd].
    rewrite rolling_mean_length, Nat.max_0_r. unfold pad.
    rewrite length_app, repeat_length, Nat.max_0_r. lia. }
  destruct (projetar_length _ _ _ _ _ _ Hproj Hall) as [_ Hl].
  destruct (peak_at_defined_row _ _ _ _ _ _ _ _ _ Hproj Hres) as [Hix _].
  pose proof (resumir_inr _ _ _ _ _ _ Hres) as (_ & _ & Hdia).
  split; [reflexivity |]. split; [exact Hk |].
  split; [lia |]. split; [lia |]. lia.
Qed.

Lemma no_comparator_no_projection_witness :
  preparar_dados Exemplo.raw_csv Exemplo.pop Exemplo.sp Exemplo.p1 Exemplo.p4
    = inr Exemplo.pd /\
  rodar_modelo pearson2 ordem_da_tabela 100 Exemplo.pd 0 1 "Brazil"
    = inr ([], [("Brazil", [Num (111 # 50); Num (111 # 25)])],
           [NaN; Num (111 # 25)],
           {| mortes_no_pico := 8; dia_do_pico := 99;
              pico := Num (111 # 25); index := 1 |}) /\
  length [NaN; Num (111 # 25)] = nbr Exemplo.pd.
Proof.
  assert (Hpd : preparar_dados Exemplo.raw_csv Exemplo.pop Exemplo.sp Exemplo.p1
                  Exemplo.p4 = inr Exemplo.pd) by (vm_compute; reflexivity).
  assert (Hrun : rodar_modelo pearson2 ordem_da_tabela 100 Exemplo.pd 0 1 "Brazil"
                 = inr ([], [("Brazil", [Num (111 # 50); Num (111 # 25)])],
                        [NaN; Num (111 # 25)],
                        {| mortes_no_pico := 8; dia_do_pico := 99;
                           pico := Num (111 # 25); index := 1 |}))
    by (vm_compute; reflexivity).
  split; [exact Hpd |]. split; [exact Hrun |].
  destruct (no_comparator_no_projection _ _ _ _ _ _ _ _ _ _ _ _ _ _ _ Hpd Hrun)
    as (_ & _ & Hl & _).
  exact Hl.
Defined.

Lemma short_series_run_raises_witness :
  preparar_dados Exemplo.raw_csv Exemplo.pop Exemplo.sp Exemplo.p1 Exemplo.p4
    = inr Exemplo.pd /\
  (Z.of_nat (nbr Exemplo.pd) < 7)%Z /\
  exists e, rodar_modelo pearson2 ordem_da_tabela 100 Exemplo.pd 5 7 "SP_City" = inl e.
Proof.
  assert (Hpd : preparar_dados Exemplo.raw_csv Exemplo.pop Exemplo.sp Exemplo.p1
                  Exemplo.p4 = inr Exemplo.pd) by (vm_compute; reflexivity).
  assert (Hlt : (Z.of_nat (nbr Exemplo.pd) < 7)%Z) by reflexivity.
  split; [exact Hpd |]. split; [exact Hlt |].
  exact (short_series_run_raises pearson2 ordem_da_tabela 100 _ _ _ _ _ _ 5%Z 7%Z "SP_City"
           Hpd Hlt).
Defined.

(** ** The moving average *)

Lemma rolling_mean_nth (w : nat) (col : list float64) (i : nat) :
  i < length col ->
  nth_error (rolling_mean w col) i =
    Some (if (w =? 0) || (i + 1 <? w) then NaN
          else window_mean w (firstn w (skipn (i + 1 - w) col))).
Proof.
  intros Hi. unfold rolling_mean. rewrite nth_error_map, nth_error_seq.
  destruct (Nat.ltb_spec i (length col)) as [_ | ?]; [reflexivity | lia].
Qed.

(** X11.  A missing or infinite value blanks the smoothed series on its
    own day and on the [w - 1] days that follow: every window that holds
    it has no mean. *)
Theorem gap_blanks_following_window :
  forall w col i j x,
    nth_error col j = Some x ->
    isfinite x = false ->
    j <= i < j + w ->
    i < length col ->
    nth_error (rolling_mean w col) i = Some NaN.
Proof.
  intros w col i j x Hj Hx Hij Hi.
  rewrite rolling_mean_nth by exact Hi.
  destruct ((w =? 0) || (i + 1 <? w)) eqn:E; [reflexivity |].
  apply orb_false_iff in E. destruct E as [_ E]. apply Nat.ltb_ge in E.
  unfold window_mean.
  assert (Hin : In x (firstn w (skipn (i + 1 - w) col))).
  { apply (nth_error_In _ (j - (i + 1 - w))).
    rewrite nth_error_firstn.
    destruct (Nat.ltb_spec (j - (i + 1 - w)) w) as [_ | ?]; [| lia].
    rewrite nth_error_skipn. replace (i + 1 - w + (j - (i + 1 - w))) with j by lia.
    exact Hj. }
  destruct (forallb isfinite (firstn w (skipn (i + 1 - w) col))) eqn:F;
    [| reflexivity].
  rewrite forallb_forall in F. rewrite (F x Hin) in Hx. discriminate.
Qed.

Lemma gap_blanks_following_window_witness :
  nth_error [Num 1; NaN; Num 3; Num 4; Num 5] 1 = Some NaN /\
  isfinite NaN = false /\
  1 <= 2 < 1 + 2 /\
  2 < length [Num 1; NaN; Num 3; Num 4; Num 5] /\
  nth_error (rolling_mean 2 [Num 1; NaN; Num 3; Num 4; Num 5]) 2 = Some NaN.
Proof.
  assert (Hij : 1 <= 2 < 1 + 2) by lia.
  assert (Hi : 2 < length [Num 1; NaN; Num 3; Num 4; Num 5]) by (simpl; lia).
  split; [reflexivity |]. split; [reflexivity |]. split; [exact Hij |].
  split; [exact Hi |].
  exact (gap_blanks_following_window 2 [Num 1; NaN; Num 3; Num 4; Num 5] 2 1 NaN
           eq_refl eq_refl Hij Hi).
Defined.

(** ** Daily deaths from cumulative counts *)

Lemma adjacent_diff_nth (l : list float64) (t : nat) :
  t + 1 < length l ->
  nth t (adjacent_diff l) NaN = fsub (nth t l NaN) (nth (t + 1) l NaN).
Proof.
  revert t. induction l as [| a l IH]; intros t Ht; [simpl in Ht; lia |].
  destruct l as [| b l]; [simpl in Ht; lia |].
  destruct t as [| t]; [reflexivity |].
  change (adjacent_diff (a :: b :: l)) with (fsub a b :: adjacent_diff (b :: l)).
  cbn [nth]. rewrite IH by (simpl in *; lia). reflexivity.
Qed.

(** X13.  With at least [n + 1] rows of cumulative counts, most recent
    first, the daily series has [n] entries in chronological order:
    entry [t] is the count of [n - 1 - t] days back minus the count of
    the day before it, missing counts read as 0. *)
Theorem diarios_are_chronological_increments :
  forall n acumulado t,
    n + 1 <= length acumulado ->
    t < n ->
    length (diarios n acumulado) = n /\
    nth t (diarios n acumulado) NaN =
      fsub (fillna0 (nth (n - 1 - t) acumulado NaN))
           (fillna0 (nth (n - t) acumulado NaN)).
Proof.
  intros n acumulado t Hlen Ht.
  assert (Hl : length (diarios n acumulado) = n).
  { rewrite diarios_length. lia. }
  split; [exact Hl |].
  unfold diarios in *. rewrite length_rev in Hl.
  rewrite rev_nth by (rewrite Hl; exact Ht). rewrite Hl.
  assert (Hf : length (map fillna0 (firstn (n + 1) acumulado)) = n + 1).
  { rewrite length_map, length_firstn. lia. }
  rewrite adjacent_diff_nth by lia.
  replace (n - S t + 1) with (n - t) by lia.
  replace (n - S t) with (n - 1 - t) by lia.
  assert (Hnth : forall i, i < n + 1 ->
            nth i (map fillna0 (firstn (n + 1) acumulado)) NaN
            = fillna0 (nth i acumulado NaN)).
  { intros i Hi.
    rewrite (nth_indep _ NaN (fillna0 NaN)) by lia.
    rewrite map_nth, nth_firstn.
    destruct (Nat.ltb_spec i (n + 1)) as [_ | ?]; [reflexivity | lia]. }
  rewrite !Hnth by lia. reflexivity.
Qed.

Lemma diarios_are_chronological_increments_witness :
  2 + 1 <= length [Num 7; Num 4; Num 2; Num 1] /\
  0 < 2 /\
  nth 0 (diarios 2 [Num 7; Num 4; Num 2; Num 1]) NaN
    = fsub (fillna0 (Num 4)) (fillna0 (Num 2)).
Proof.
  assert (H1 : 2 + 1 <= length [Num 7; Num 4; Num 2; Num 1]) by (simpl; lia).
  assert (H2 : 0 < 2) by lia.
  split; [exact H1 |]. split; [exact H2 |].
  exact (proj2 (diarios_are_chronological_increments 2
                  [Num 7; Num 4; Num 2; Num 1] 0 H1 H2)).
Defined.

Lemma Qsum_app (l1 l2 : list Q) : (Qsum (l1 ++ l2) == Qsum l1 + Qsum l2)%Q.
Proof.
  induction l1 as [| q l1 IH]; [simpl; ring |].
  change ((q :: l1) ++ l2) with (q :: (l1 ++ l2)).
  rewrite !Qsum_cons, IH. ring.
Qed.

Lemma Qsum_rev (l : list Q) : (Qsum (rev l) == Qsum l)%Q.
Proof.
  induction l as [| q l IH]; [reflexivity |].
  cbn [rev]. rewrite Qsum_app, IH, !Qsum_cons. simpl. ring.
Qed.

(** Differences of finite counts telescope. *)
Lemma adjacent_diff_nums (q : Q) (qs : list Q) :
  exists ds,
    adjacent_diff (map Num (q :: qs)) = map Num ds /\
    (Qsum ds == q - last qs q)%Q.
Proof.
  revert q. induction qs as [| b qs IH]; intros q.
  - exists []. split; [reflexivity |]. simpl. ring.
  - destruct (IH b) as (ds & Hds & Hsum).
    exists (Qred (q - b) :: ds). split.
    + change (map Num (q :: b :: qs)) with (Num q :: map Num (b :: qs)).
      change (adjacent_diff (Num q :: map Num (b :: qs)))
        with (fsub (Num q) (Num b) :: adjacent_diff (map Num (b :: qs))).
      rewrite Hds. reflexivity.
    + rewrite Qsum_cons, Hsum, Qred_correct.
      assert (Hlast : forall (l : list Q) (a d : Q), last (a :: l) d = last l a).
      { clear. induction l as [| c l IH]; intros a d; [reflexivity |].
        change (last (a :: c :: l) d) with (last (c :: l) d).
        rewrite (IH c d), (IH c a). reflexivity. }
      rewrite Hlast. ring.
Qed.

(** X20.  With finite cumulative counts, the daily series of the window
    adds up to the growth of the cumulative count over the window: the
    most recent count minus the count of [n] days before. *)
Theorem diarios_add_up_to_the_growth :
  forall n qs,
    n + 1 <= length qs ->
    exists ds,
      diarios n (map Num qs) = map Num ds /\
      length ds = n /\
      (Qsum ds == nth 0 qs 0 - nth n qs 0)%Q.
Proof.
  intros n qs Hlen.
  assert (Hf : firstn (n + 1) (map Num qs) = map Num (firstn (n + 1) qs))
    by apply firstn_map.
  assert (Hfill : map fillna0 (map Num (firstn (n + 1) qs))
                  = map Num (firstn (n + 1) qs)).
  { rewrite map_map. reflexivity. }
  destruct (firstn (n + 1) qs) as [| q rest] eqn:Efn.
  { apply (f_equal (@length _)) in Efn. rewrite length_firstn in Efn.
    simpl in Efn. lia. }
  destruct (adjacent_diff_nums q rest) as (ds & Hds & Hsum).
  exists (rev ds). unfold diarios. rewrite Hf, Hfill, Hds, <- map_rev.
  split; [reflexivity |].
  assert (Hlr : length rest = n).
  { apply (f_equal (@length _)) in Efn. rewrite length_firstn in Efn.
    simpl in Efn. lia. }
  split.
  - rewrite length_rev.
    apply (f_equal (@length _)) in Hds.
    rewrite adjacent_diff_length, !length_map in Hds. simpl in Hds. lia.
  - rewrite Qsum_rev, Hsum.
    assert (H0 : nth 0 qs 0%Q = q).
    { rewrite <- (firstn_skipn (n + 1) qs), Efn. reflexivity. }
    assert (Hn : nth n qs 0%Q = last rest q).
    { rewrite <- (firstn_skipn (n + 1) qs), Efn.
      rewrite app_nth1 by (simpl; lia).
      destruct rest as [| r rest'] using rev_ind.
      - simpl in Hlr. subst n. reflexivity.
      - rewrite last_last. rewrite length_app in Hlr. simpl in Hlr.
        change (q :: rest' ++ [r]) with ((q :: rest') ++ [r]).
        rewrite app_nth2 by (simpl; lia).
        replace (n - length (q :: rest')) with 0 by (simpl; lia). reflexivity. }
    rewrite H0, Hn. reflexivity.
Qed.

Lemma diarios_add_up_to_the_growth_witness :
  2 + 1 <= length [7%Q; 4%Q; 2%Q; 1%Q] /\
  exists ds,
    diarios 2 (map Num [7%Q; 4%Q; 2%Q; 1%Q]) = map Num ds /\
    (Qsum ds == 7 - 2)%Q.
Proof.
  assert (H1 : 2 + 1 <= length [7%Q; 4%Q; 2%Q; 1%Q]) by (simpl; lia).
  split; [exact H1 |].
  destruct (diarios_add_up_to_the_growth 2 [7%Q; 4%Q; 2%Q; 1%Q] H1)
    as (ds & Hd & _ & Hs).
  exists ds. split; [exact Hd | exact Hs].
Defined.

(** ** Weights and the multiplier *)

Lemma peso_combine (cs : list string) (vs : list float64) :
  NoDup cs -> length vs = length cs ->
  map (peso (combine cs vs)) cs = vs.
Proof.
  revert vs. induction cs as [| c cs IH]; intros vs Hnd Hl.
  - destruct vs; [reflexivity | discriminate].
  - destruct vs as [| v vs]; [discriminate |].
    inversion Hnd as [| ? ? Hc Hnd']; subst.
    cbn [combine map]. f_equal.
    + unfold peso. cbn [lookup]. now rewrite String.eqb_refl.
    + rewrite <- (IH vs Hnd') at 2 by (simpl in Hl; lia).
      apply map_ext_in. intros k Hk. unfold peso. cbn [lookup].
      destruct (c =? k)%string eqn:E; [| reflexivity].
      apply String.eqb_eq in E. subst. contradiction.
Qed.

Lemma fold_left_fadd_map {A : Type} (f : A -> float64) (l : list A) (acc : float64) :
  fold_left (fun x a => fadd x (f a)) l acc = fold_left fadd (map f l) acc.
Proof.
  revert acc. induction l as [| a l IH]; intros acc; [reflexivity |].
  cbn [fold_left map]. apply IH.
Qed.

Lemma Qsum_ones (ws : list Q) :
  (Qsum (map (fun w => Qred (1 * w)) ws) == Qsum ws)%Q.
Proof.
  induction ws as [| w ws IH]; [reflexivity |].
  cbn [map]. rewrite !Qsum_cons, IH, Qred_correct. ring.
Qed.

(** When every comparator has run out of data on a day, the multiplier
    of the day is the sum of the weights. *)
Lemma incremento_exhausted cal cs ws d :
  NoDup cs -> length ws = length cs ->
  (forall c, In c cs -> cell cal c d = NaN) ->
  exists s, incremento cal (combine cs (map Num ws)) cs d = Num s /\
            (s == Qsum ws)%Q.
Proof.
  intros Hnd Hl Hnan. unfold incremento. rewrite fold_left_fadd_map.
  assert (Hmap : map (parcela cal (combine cs (map Num ws)) d) cs
                 = map Num (map (fun w => Qred (1 * w)) ws)).
  { transitivity (map (fmul (Num 1)) (map (peso (combine cs (map Num ws))) cs)).
    - rewrite map_map. apply map_ext_in. intros c Hc.
      unfold parcela. now rewrite (Hnan c Hc).
    - rewrite peso_combine by (try assumption; now rewrite length_map).
      rewrite !map_map. reflexivity. }
  rewrite Hmap.
  destruct (fsum_nums (map (fun w => Qred (1 * w)) ws)) as (s & Hs & He & _).
  exists s. split; [exact Hs |]. now rewrite He, Qsum_ones.
Qed.

Lemma fmul_one (x : float64) (s : Q) :
  (s == 1)%Q -> mesmo_valor (fmul x (Num s)) x.
Proof.
  intros Hs.
  assert (Hgt : (s ?= 0)%Q = Gt).
  { apply Qgt_alt. rewrite Hs. reflexivity. }
  destruct x as [a | | |]; cbn [fmul fsign mul_sign inf_of mesmo_valor].
  - rewrite Qred_correct, Hs. ring.
  - rewrite Hgt. exact I.
  - rewrite Hgt. exact I.
  - exact I.
Qed.

(** X9.  On a day for which every comparator has run out of data, the
    projection stays where it was the day before, when the weights are
    finite and add up to 1: each comparator contributes the neutral
    multiplier 1 times its weight. *)
Theorem exhausted_comparators_hold_the_level :
  forall cal cs ws ref n proj d,
    projetar cal (combine cs (map Num ws)) cs ref n = inr proj ->
    NoDup cs ->
    length ws = length cs ->
    (Qsum ws == 1)%Q ->
    n <= d < shape0 cal ->
    (forall c, In c cs -> cell cal c d = NaN) ->
    mesmo_valor (nth d proj NaN) (nth (d - 1) proj NaN).
Proof.
  intros cal cs ws ref n proj d Hproj Hnd Hl Hsum Hd Hnan.
  apply projetar_inr in Hproj.
  destruct Hproj as (r & seam & m & _ & -> & _ & ->).
  rewrite (estender_step cal (combine cs (map Num ws)) cs (S m)
             (shape0 cal - S m));
    [| rewrite length_app, repeat_length; simpl; lia | lia | lia].
  destruct (incremento_exhausted cal cs ws d Hnd Hl Hnan) as (s & -> & Hs).
  apply fmul_one. now rewrite Hs.
Qed.

Lemma exhausted_comparators_hold_the_level_witness :
  projetar [("Brazil", [Num 1; Num 2; NaN; NaN]);
            ("Spain", [Num 8; Num 4; Num 2; NaN])]
           (combine ["Spain"] (map Num [1%Q])) ["Spain"] "Brazil" 2
    = inr [NaN; Num 2; Num 1; Num 1] /\
  NoDup ["Spain"] /\
  length [1%Q] = length ["Spain"] /\
  (Qsum [1] == 1)%Q /\
  2 <= 3 < shape0 [("Brazil", [Num 1; Num 2; NaN; NaN]);
                   ("Spain", [Num 8; Num 4; Num 2; NaN])] /\
  (forall c, In c ["Spain"] ->
             cell [("Brazil", [Num 1; Num 2; NaN; NaN]);
                   ("Spain", [Num 8; Num 4; Num 2; NaN])] c 3 = NaN) /\
  mesmo_valor (nth 3 [NaN; Num 2; Num 1; Num 1] NaN)
              (nth (3 - 1) [NaN; Num 2; Num 1; Num 1] NaN).
Proof.
  assert (H1 : projetar [("Brazil", [Num 1; Num 2; NaN; NaN]);
                         ("Spain", [Num 8; Num 4; Num 2; NaN])]
                 (combine ["Spain"] (map Num [1%Q])) ["Spain"] "Brazil" 2
               = inr [NaN; Num 2; Num 1; Num 1]) by (vm_compute; reflexivity).
  assert (H2 : NoDup ["Spain"]) by (repeat constructor; intros []).
  assert (H3 : length [1%Q] = length ["Spain"]) by reflexivity.
  assert (H4 : (Qsum [1] == 1)%Q) by reflexivity.
  assert (H5 : 2 <= 3 < shape0 [("Brazil", [Num 1; Num 2; NaN; NaN]);
                                ("Spain", [Num 8; Num 4; Num 2; NaN])])
    by (vm_compute; lia).
  assert (H6 : forall c, In c ["Spain"] ->
             cell [("Brazil", [Num 1; Num 2; NaN; NaN]);
                   ("Spain", [Num 8; Num 4; Num 2; NaN])] c 3 = NaN).
  { intros c [<- | []]. reflexivity. }
  repeat (split; [assumption |]).
  exact (exhausted_comparators_hold_the_level _ _ _ _ _ _ 3 H1 H2 H3 H4 H5 H6).
Defined.



(** ** The population table *)

Lemma coluna_pais_china pd v k :
  coluna_pais (com_popu pd (setitem (popu pd) "China" v)) k = coluna_pais pd k.
Proof.
  unfold coluna_pais, com_popu. cbn [raw inicio popu].
  destruct (getitem (raw pd) k) as [e | col]; [reflexivity |]. cbn [bind].
  destruct (getitem (inicio pd) k) as [e | ik]; [reflexivity |]. cbn [bind].
  destruct (k =? "China")%string eqn:E; [reflexivity |].
  apply String.eqb_neq in E. unfold getitem.
  rewrite lookup_setitem_neq by (intros Heq; apply E; now symmetry).
  reflexivity.
Qed.

Lemma mapM_ext {A B : Type} (f g : A -> result B) (l : list A) :
  (forall a, f a = g a) -> mapM f l = mapM g l.
Proof.
  intros H. induction l as [| a l IH]; [reflexivity |].
  cbn [mapM]. now rewrite H, IH.
Qed.

(** X10.  China's entry of the population table plays no part in a run:
    its series is normalised by the 15 million of line 204, so setting
    that entry to any value leaves the result of [rodar_modelo] as it
    was. *)
Theorem china_population_is_not_read :
  forall corr tie now pd p2 p3 ref v,
    rodar_modelo corr tie now (com_popu pd (setitem (popu pd) "China" v)) p2 p3 ref
    = rodar_modelo corr tie now pd p2 p3 ref.
Proof.
  intros corr tie now pd p2 p3 ref v. unfold rodar_modelo.
  change (data (com_popu pd (setitem (popu pd) "China" v))) with (data pd).
  change (nbr (com_popu pd (setitem (popu pd) "China" v))) with (nbr pd).
  change (popuBR (com_popu pd (setitem (popu pd) "China" v))) with (popuBR pd).
  destruct (pearson_col corr (data pd) ref) as [e | pr]; [reflexivity |].
  cbn [bind].
  assert (Hcal : calibrar (com_popu pd (setitem (popu pd) "China" v))
                   (selecionar tie pr p2) p3 ref
                 = calibrar pd (selecionar tie pr p2) p3 ref).
  { unfold calibrar.
    change (por100k (com_popu pd (setitem (popu pd) "China" v)))
      with (por100k pd).
    rewrite (mapM_ext _ (coluna_pais pd)) by (intros k; apply coluna_pais_china).
    reflexivity. }
  now rewrite Hcal.
Qed.

(* ================================================================== *)
(** ** The comparators *)

Lemma lookup_In_NoDup {V : Type} (s : series V) (k : string) (v : V) :
  NoDup (keys s) -> In (k, v) s -> lookup s k = Some v.
Proof.
  induction s as [| [k0 v0] s IH]; cbn [keys map fst lookup In];
    [contradiction |].
  intros Hnd Hin. inversion Hnd as [| ? ? Hk0 Hs]; subst.
  destruct Hin as [E | Hin].
  - inversion E; subst. now rewrite String.eqb_refl.
  - destruct (String.eqb_spec k0 k) as [-> | _]; [| now apply IH].
    exfalso. apply Hk0. change (In k (keys s)).
    unfold keys. apply in_map_iff. now exists (k, v).
Qed.

Lemma sorted_nth {A : Type} (R : A -> A -> Prop) (l : list A) :
  StronglySorted R l ->
  forall i j a b, i < j -> nth_error l i = Some a -> nth_error l j = Some b ->
                  R a b.
Proof.
  induction 1 as [| x l Hs IH Hx]; intros i j a b Hij Hi Hj.
  - destruct i; discriminate Hi.
  - destruct j as [| j]; [lia |]. cbn [nth_error] in Hj.
    destruct i as [| i]; cbn [nth_error] in Hi.
    + inversion Hi; subst. rewrite Forall_forall in Hx.
      apply Hx. eapply nth_error_In; eauto.
    + apply (IH i j); [lia | assumption | assumption].
Qed.

(** The labels left by the filter of line 186, by name. *)
Lemma elegivel_out (k : string) :
  negb ((k =? "Brazil") || (k =? "Brazil_sem_SP") || (k =? "SP")
        || (k =? "SP_City"))%string
  = negb (mem k out).
Proof.
  unfold mem, out. cbn [existsb].
  rewrite (String.eqb_sym "Brazil"), (String.eqb_sym "Brazil_sem_SP"),
    (String.eqb_sym "SP"), (String.eqb_sym "SP_City").
  now rewrite !orb_false_r, !orb_assoc.
Qed.

Lemma elegiveis_out (s : series float64) (df : frame) :
  keys s = keys df ->
  keys (filter (fun kv => negb (mem (fst kv) out)) s) = elegiveis df.
Proof.
  intros Hk. unfold elegiveis. rewrite <- Hk.
  rewrite <- (keys_filter (fun k => negb (mem k out))).
  apply filter_ext. intros k. symmetry. apply elegivel_out.
Qed.

Lemma not_out (c : string) :
  ~ In c out ->
  c <> "Brazil" /\ c <> "Brazil_sem_SP" /\ c <> "SP" /\ c <> "SP_City".
Proof. unfold out. cbn [In]. intuition congruence. Qed.

(** The ranking of line 186 cut at [p2]: what is selected, what is left. *)
Lemma selecionar_split tie (pr : series float64) (p2 : Z) :
  (0 <= p2)%Z ->
  NoDup (keys pr) ->
  exists ranked rest,
    selecionar tie pr p2 = keys ranked /\
    Permutation (ranked ++ rest)
      (filter (fun kv => negb (mem (fst kv) out)) pr) /\
    StronglySorted (fun a b => nao_abaixo (snd a) (snd b)) ranked /\
    (forall a b, In a ranked -> In b rest -> nao_abaixo (snd a) (snd b)) /\
    length ranked
      = Nat.min (Z.to_nat p2)
          (length (filter (fun kv => negb (mem (fst kv) out)) pr)) /\
    (length (filter (fun kv => negb (mem (fst kv) out)) pr) <= Z.to_nat p2 ->
     rest = []) /\
    (forall k v, In (k, v) (ranked ++ rest) -> lookup pr k = Some v).
Proof.
  intros Hp2 Hnd.
  set (l := filter (fun kv => negb (mem (fst kv) out)) (sort_values_desc tie pr)).
  exists (firstn (Z.to_nat p2) l), (skipn (Z.to_nat p2) l).
  assert (Hperm : Permutation l (filter (fun kv => negb (mem (fst kv) out)) pr)).
  { subst l. apply filter_series_perm. symmetry. apply sort_values_desc_perm. }
  assert (Hsorted : StronglySorted (fun a b => nao_abaixo (snd a) (snd b))
                      (firstn (Z.to_nat p2) l ++ skipn (Z.to_nat p2) l)).
  { rewrite firstn_skipn. subst l.
    apply StronglySorted_filter, sort_values_desc_sorted. }
  apply StronglySorted_app in Hsorted. destruct Hsorted as [Hs Hcross].
  split.
  { unfold selecionar, slice_to.
    destruct (Z.leb_spec 0 p2) as [_ | ?]; [| lia].
    rewrite keys_filter. unfold keys. now rewrite firstn_map. }
  split; [now rewrite firstn_skipn |].
  split; [exact Hs |].
  split; [exact Hcross |].
  split; [rewrite length_firstn; now rewrite (Permutation_length Hperm) |].
  split.
  { intros Hle. apply skipn_all2. now rewrite (Permutation_length Hperm). }
  intros k v Hin. rewrite firstn_skipn in Hin.
  apply lookup_In_NoDup; [exact Hnd |].
  eapply Permutation_in in Hin; [| exact Hperm].
  apply filter_In in Hin. tauto.
Qed.

(** C7.  On a prepared table, with one of the four cuts as reference,
    [p2 >= 0] and a window of a day or more, the comparators of line
    186, which a run returns, are regions of the table other than
    "Brazil", "Brazil_sem_SP", "SP" and "SP_City", each named once.
    They are [p2] in number, or all the eligible regions when these are
    fewer.  They are in the order of decreasing Pearson coefficient with
    the reference: a comparator's coefficient is at least that of every
    comparator after it, and at least that of every eligible region
    left out (an undefined coefficient counting as the least).  However
    few they are, the calibrated table, the weights and the projection
    are computed for them and the run goes on to the summary; with [p2]
    beyond the number of eligible regions the run is the run that asks
    for exactly that number.  This holds for every order the sort may
    leave among equal coefficients. *)
Theorem selecionar_top_k :
  forall corr tie now raw_csv pop sp p1 p4 pd ref p2 p3,
    preparar_dados raw_csv pop sp p1 p4 = inr pd ->
    ref = "Brazil" \/ ref = "Brazil_sem_SP" \/ ref = "SP" \/ ref = "SP_City" ->
    (0 <= p2)%Z ->
    (1 <= p3)%Z ->
    exists refcol pr cs cal pesos proj,
      lookup (data pd) ref = Some refcol /\
      pearson_col corr (data pd) ref = inr pr /\
      pr = map (fun kc => (fst kc, corr (snd kc) refcol)) (data pd) /\
      selecionar tie pr p2 = cs /\
      (forall cs' cal' proj' inf,
         rodar_modelo corr tie now pd p2 p3 ref = inr (cs', cal', proj', inf) ->
         cs' = cs) /\
      NoDup cs /\
      (forall c, In c cs ->
         In c (keys (data pd)) /\
         c <> "Brazil" /\ c <> "Brazil_sem_SP" /\ c <> "SP" /\ c <> "SP_City") /\
      length cs = Nat.min (Z.to_nat p2) (length (elegiveis (data pd))) /\
      (forall i j ci cj vi vj,
         i < j ->
         nth_error cs i = Some ci -> nth_error cs j = Some cj ->
         lookup pr ci = Some vi -> lookup pr cj = Some vj ->
         nao_abaixo vi vj) /\
      (forall c c' v v',
         In c cs -> In c' (elegiveis (data pd)) -> ~ In c' cs ->
         lookup pr c = Some v -> lookup pr c' = Some v' ->
         nao_abaixo v v') /\
      (length (elegiveis (data pd)) <= Z.to_nat p2 ->
       (forall c, In c (elegiveis (data pd)) -> In c cs) /\
       rodar_modelo corr tie now pd p2 p3 ref =
         rodar_modelo corr tie now pd
           (Z.of_nat (length (elegiveis (data pd)))) p3 ref) /\
      calibrar pd cs p3 ref = inr cal /\
      pesos_de pr cs = inr pesos /\
      projetar cal pesos cs ref (nbr pd) = inr proj /\
      rodar_modelo corr tie now pd p2 p3 ref =
        bind (resumir now proj (popuBR pd) ref (nbr pd))
             (fun inf => ok (cs, cal, proj, inf)).
Proof.
  intros corr tie now raw_csv pop sp p1 p4 pd ref p2 p3 Hpd Href Hp2 Hp3.
  assert (Hin : In ref out) by (unfold out; cbn [In]; intuition auto).
  destruct (etapas_sem_erro corr tie now _ _ _ _ _ _ p2 p3 ref Hpd Hin Hp3)
    as (pr & cal & pesos & proj & Hpr & Hcal & Hpesos & Hproj & Hrun).
  destruct (cut_is_present _ _ _ _ _ _ _ Hpd Hin) as ([refcol Hc] & _).
  assert (Hpr' : pr = map (fun kc => (fst kc, corr (snd kc) refcol)) (data pd)).
  { unfold pearson_col, getitem in Hpr. rewrite Hc in Hpr. cbn [bind ok] in Hpr.
    now inversion Hpr. }
  pose proof (pearson_col_keys _ _ _ _ Hpr) as Hkeys.
  assert (Hnd : NoDup (keys pr)).
  { rewrite Hkeys. eapply preparar_dados_NoDup; eauto. }
  destruct (selecionar_split tie pr p2 Hp2 Hnd)
    as (ranked & rest & Hsel & Hperm & Hs & Hcross & Hlen & Hall & Hval).
  pose proof (elegiveis_out pr (data pd) Hkeys) as Hel.
  assert (Hlen' : length (filter (fun kv => negb (mem (fst kv) out)) pr)
                  = length (elegiveis (data pd))).
  { rewrite <- Hel. unfold keys. now rewrite length_map. }
  assert (Hpair : forall i c v, nth_error (keys ranked) i = Some c ->
                    lookup pr c = Some v -> nth_error ranked i = Some (c, v)).
  { intros i c v Hi Hv. unfold keys in Hi. rewrite nth_error_map in Hi.
    destruct (nth_error ranked i) as [[c0 v0] |] eqn:E; [| discriminate].
    cbn in Hi. inversion Hi; subst c0.
    assert (Hv0 : lookup pr c = Some v0).
    { apply Hval, in_or_app. left. eapply nth_error_In; eauto. }
    congruence. }
  assert (Hmemb : forall c v, In c (keys ranked) -> lookup pr c = Some v ->
                    In (c, v) ranked).
  { intros c v Hc' Hv. apply In_nth_error in Hc'. destruct Hc' as [i Hi].
    eapply nth_error_In. eapply Hpair; eauto. }
  exists refcol, pr, (keys ranked), cal, pesos, proj.
  rewrite Hsel in *.
  split; [exact Hc |]. split; [exact Hpr |]. split; [exact Hpr' |].
  split; [reflexivity |].
  split.
  { intros cs' cal' proj' inf Hr. rewrite Hrun in Hr.
    destruct (resumir now proj (popuBR pd) ref (nbr pd)) as [e | i0];
      cbn [bind ok] in Hr; [discriminate |]. now inversion Hr. }
  split; [rewrite <- Hsel; now apply selecionar_NoDup |].
  split.
  { intros c Hc'. rewrite <- Hsel in Hc'. apply selecionar_In in Hc'.
    destruct Hc' as [Hk Ho]. rewrite Hkeys in Hk. split; [exact Hk |].
    now apply not_out. }
  split; [unfold keys at 1; rewrite length_map, Hlen, Hlen'; reflexivity |].
  split.
  { intros i j ci cj vi vj Hij Hi Hj Hvi Hvj.
    apply (sorted_nth _ _ Hs i j (ci, vi) (cj, vj) Hij); now apply Hpair. }
  split.
  { intros c c' v v' Hc' Hel' Hnot Hv Hv'.
    apply (Hcross (c, v) (c', v')); [now apply Hmemb |].
    rewrite <- Hel in Hel'. unfold keys in Hel'. apply in_map_iff in Hel'.
    destruct Hel' as ([k w] & Hk & Hkw). cbn [fst] in Hk. subst k.
    eapply Permutation_in in Hkw; [| symmetry; exact Hperm].
    assert (Hw : lookup pr c' = Some w) by (now apply Hval).
    assert (w = v') by congruence. subst w.
    apply in_app_or in Hkw. destruct Hkw as [Hkw | Hkw]; [| exact Hkw].
    exfalso. apply Hnot. unfold keys. apply in_map_iff. now exists (c', v'). }
  split.
  { intros Hle. rewrite <- Hlen' in Hle. pose proof (Hall Hle) as Hrest.
    subst rest. rewrite app_nil_r in Hperm. split.
    - intros c Hc'. rewrite <- Hel in Hc'.
      eapply Permutation_in; [| exact Hc'].
      apply keys_perm. now symmetry.
    - assert (Hsame : selecionar tie pr
                        (Z.of_nat (length (elegiveis (data pd))))
                      = selecionar tie pr p2).
      { unfold selecionar, slice_to.
        destruct (Z.leb_spec 0 p2) as [_ | ?]; [| lia].
        destruct (Z.leb_spec 0 (Z.of_nat (length (elegiveis (data pd)))))
          as [_ | ?]; [| lia].
        rewrite Nat2Z.id.
        assert (Hl : length (filter (fun k => negb (mem k out))
                               (keys (sort_values_desc tie pr)))
                     = length (elegiveis (data pd))).
        { rewrite keys_filter. unfold keys at 1. rewrite length_map.
          rewrite <- Hlen'. apply Permutation_length, filter_series_perm.
          symmetry. apply sort_values_desc_perm. }
        rewrite !firstn_all2; [reflexivity | lia | lia]. }
      unfold rodar_modelo. rewrite Hpr. cbn [bind]. now rewrite Hsame. }
  repeat split; assumption.
Qed.

(** On the tables of [Exemplo3] five comparators are asked for and three
    regions are eligible. *)
Lemma selecionar_top_k_witness :
  preparar_dados Exemplo3.raw_csv Exemplo.pop Exemplo3.sp Exemplo.p1 Exemplo.p4
    = inr Exemplo3.pd /\
  ("Brazil" = "Brazil" \/ "Brazil" = "Brazil_sem_SP" \/ "Brazil" = "SP"
   \/ "Brazil" = "SP_City") /\
  (0 <= 5)%Z /\
  (1 <= 1)%Z /\
  exists pr cs cal pesos proj,
    pearson_col pearson_q (data Exemplo3.pd) "Brazil" = inr pr /\
    selecionar ordem_da_tabela pr 5 = cs /\
    length cs = Nat.min (Z.to_nat 5) (length (elegiveis (data Exemplo3.pd))) /\
    calibrar Exemplo3.pd cs 1 "Brazil" = inr cal /\
    pesos_de pr cs = inr pesos /\
    projetar cal pesos cs "Brazil" (nbr Exemplo3.pd) = inr proj.
Proof.
  assert (Hpd : preparar_dados Exemplo3.raw_csv Exemplo.pop Exemplo3.sp
                  Exemplo.p1 Exemplo.p4 = inr Exemplo3.pd)
    by (vm_compute; reflexivity).
  assert (Href : "Brazil" = "Brazil" \/ "Brazil" = "Brazil_sem_SP"
                 \/ "Brazil" = "SP" \/ "Brazil" = "SP_City") by now left.
  assert (H5 : (0 <= 5)%Z) by lia.
  assert (H1 : (1 <= 1)%Z) by lia.
  split; [exact Hpd |]. split; [exact Href |]. split; [exact H5 |].
  split; [exact H1 |].
  destruct (selecionar_top_k pearson_q ordem_da_tabela 100 _ _ _ _ _ _
              "Brazil" 5%Z 1%Z Hpd Href H5 H1)
    as (refcol & pr & cs & cal & pesos & proj & _ & Hpr & _ & Hsel & _ & _ & _
          & Hlen & _ & _ & _ & Hcal & Hpesos & Hproj & _).
  exists pr, cs, cal, pesos, proj. repeat split; assumption.
Defined.
